(** * DealDigger AI: the AI-response ingestion pipeline

    A shallow embedding of [src/services/geminiService.ts] (the tolerant
    JSON decoder [parseJsonFromText], [generateDeals], [verifyDeal] and the
    credential gate [initializeAi]) and of the [fetchDeals] /
    [handleVerifyDeal] callers in the application component, together with
    the ECMAScript built-ins they rely on ([String.prototype.trim],
    [JSON.parse], [RegExp] matching, [encodeURIComponent], number
    formatting); then the rest of the service (the chat, the mock price
    history) and the computations of the components (the category
    filter, the discount of a deal card, the score display), with
    [parseFloat], [Math.round], [toFixed] and the arithmetic of numbers.

    Conventions.
    - A JavaScript string is a list of UTF-16 code units ([N]).
    - Console output ([console.log/warn/error]) has no influence on any
      value computed and is left out.
    - [await] is modelled as sequencing: one call runs to completion. *)

From Stdlib Require Import String Ascii.
From Stdlib Require Import List NArith ZArith PArith Lia Bool.
Import ListNotations.

Set Implicit Arguments.
Set Warnings "-register-all".

(* ================================================================== *)
(** * Part I. Definitions                                              *)
(* ================================================================== *)

(** ** JavaScript strings *)

Module JsString.

Definition char := N.
Definition str := list char.

(** An ASCII literal as a JavaScript string. *)
Definition lit (s : string) : str :=
  map N_of_ascii (list_ascii_of_string s).

(** Same, with every apostrophe standing for a double quote (code unit
    34), so that JSON texts can be written down legibly. *)
Definition jq (s : string) : str :=
  map (fun c => if N.eqb c 39 then 34%N else c) (lit s).

Fixpoint eqb (a b : str) : bool :=
  match a, b with
  | [], [] => true
  | x :: a', y :: b' => N.eqb x y && eqb a' b'
  | _, _ => false
  end.

(** WhiteSpace and LineTerminator code units: what [trim] strips and what
    the regular-expression class [\s] matches. *)
Definition isWhiteSpace (c : char) : bool :=
  ((9 <=? c) && (c <=? 13) || (c =? 32) || (c =? 160) || (c =? 5760)
   || (8192 <=? c) && (c <=? 8202) || (c =? 8232) || (c =? 8233)
   || (c =? 8239) || (c =? 8287) || (c =? 12288) || (c =? 65279))%N.

Fixpoint trimStart (s : str) : str :=
  match s with
  | c :: s' => if isWhiteSpace c then trimStart s' else s
  | [] => []
  end.

Definition trimEnd (s : str) : str := rev (trimStart (rev s)).

Definition trim (s : str) : str := trimEnd (trimStart s).

Fixpoint startsWith (s p : str) {struct p} : bool :=
  match p, s with
  | [], _ => true
  | x :: p', y :: s' => N.eqb x y && startsWith s' p'
  | _ :: _, [] => false
  end.

Definition endsWith (s p : str) : bool := startsWith (rev s) (rev p).

(** [s.substring(a, b)] for non-negative integer arguments: both are
    clamped to the length and swapped when out of order. *)
Definition substring (s : str) (a b : nat) : str :=
  let a' := Nat.min a (length s) in
  let b' := Nat.min b (length s) in
  firstn (Nat.max a' b' - Nat.min a' b') (skipn (Nat.min a' b') s).

(** Decimal digits of a natural number, as [String(n)] prints an integer
    below 10^21. *)
Fixpoint digits_fuel (fuel : nat) (n : N) (acc : str) : str :=
  match fuel with
  | O => acc
  | S f =>
      let acc' := (48 + n mod 10)%N :: acc in
      if (n <? 10)%N then acc' else digits_fuel f (n / 10)%N acc'
  end.

Definition ofN (n : N) : str := digits_fuel (S (N.to_nat (N.log2 n))) n [].

Definition ofNat (n : nat) : str := ofN (N.of_nat n).

Fixpoint concat_with (sep : str) (l : list str) : str :=
  match l with
  | [] => []
  | [x] => x
  | x :: l' => x ++ sep ++ concat_with sep l'
  end.

End JsString.

Import JsString.

(** ** IEEE-754 binary64 numbers

    Only what the pipeline needs: correctly rounded conversion from a
    decimal literal ([JSON.parse]), multiplication and addition (the mock
    prices), and the two printers [Number::toString] and [toFixed]. *)

Module Double.

Local Open Scope Z_scope.

(** [DNum neg m e] is (-1)^neg * m * 2^e with 2^52 <= m < 2^53, or
    m < 2^52 and e = -1074 (subnormal). NaN never arises here. *)
Inductive double :=
| DZero (neg : bool)
| DInf (neg : bool)
| DNum (neg : bool) (m : Z) (e : Z).

Definition double_eqb (x y : double) : bool :=
  match x, y with
  | DZero a, DZero b => Bool.eqb a b
  | DInf a, DInf b => Bool.eqb a b
  | DNum a m e, DNum b m' e' => Bool.eqb a b && (m =? m') && (e =? e')
  | _, _ => false
  end.

(** Round the positive rational p/q to nearest, ties to even. *)
Definition of_ratio (neg : bool) (p q : Z) : double :=
  if p <=? 0 then DZero neg else
  let e1 := Z.log2 p - Z.log2 q - 52 in
  let big e := if 0 <=? e then (p, q * 2 ^ e) else (p * 2 ^ (- e), q) in
  let e2 := (let '(n, d) := big e1 in if n / d <? 2 ^ 52 then e1 - 1 else e1) in
  let e3 := (let '(n, d) := big e2 in if 2 ^ 53 <=? n / d then e2 + 1 else e2) in
  let e := Z.max e3 (-1074) in
  let '(n, d) := big e in
  let m0 := n / d in
  let r := n mod d in
  let m := if (d <? 2 * r) || ((d =? 2 * r) && Z.odd m0) then m0 + 1 else m0 in
  let '(m', e') := if m =? 2 ^ 53 then (2 ^ 52, e + 1) else (m, e) in
  if m' =? 0 then DZero neg
  else if 971 <? e' then DInf neg
  else DNum neg m' e'.

(** The number denoted by a decimal literal: (-1)^neg * m * 10^e10. *)
Definition of_decimal (neg : bool) (m : Z) (e10 : Z) : double :=
  if 0 <=? e10 then of_ratio neg (m * 10 ^ e10) 1
  else of_ratio neg m (10 ^ (- e10)).

Definition of_Z (z : Z) : double :=
  of_ratio (z <? 0) (Z.abs z) 1.

(** The exact value of a finite double as a signed multiple of a power of
    two: value = n * 2^e. *)
Definition exact (x : double) : option (Z * Z) :=
  match x with
  | DZero _ => Some (0, 0)
  | DInf _ => None
  | DNum neg m e => Some (if neg then - m else m, e)
  end.

Definition sign (x : double) : bool :=
  match x with DZero s | DInf s | DNum s _ _ => s end.

Definition mul (x y : double) : double :=
  let s := xorb (sign x) (sign y) in
  match x, y with
  | DNum _ m1 e1, DNum _ m2 e2 =>
      let e := e1 + e2 in
      if 0 <=? e then of_ratio s (m1 * m2 * 2 ^ e) 1
      else of_ratio s (m1 * m2) (2 ^ (- e))
  | DZero _, DNum _ _ _ | DNum _ _ _, DZero _ | DZero _, DZero _ => DZero s
  | _, _ => DInf s
  end.

Definition add (x y : double) : double :=
  match x, y with
  | DZero a, DZero b => DZero (a && b)
  | DZero _, _ => y
  | _, DZero _ => x
  | DInf _, _ => x
  | _, DInf _ => y
  | DNum s1 m1 e1, DNum s2 m2 e2 =>
      let e := Z.min e1 e2 in
      let n := (if s1 then - m1 else m1) * 2 ^ (e1 - e)
               + (if s2 then - m2 else m2) * 2 ^ (e2 - e) in
      if n =? 0 then DZero false
      else if 0 <=? e then of_ratio (n <? 0) (Z.abs n * 2 ^ e) 1
      else of_ratio (n <? 0) (Z.abs n) (2 ^ (- e))
  end.

(** [ToBoolean] on a number (NaN apart): only the zeros are falsy. *)
Definition truthy (x : double) : bool :=
  match x with DZero _ => false | _ => true end.

(** *** Number::toString, radix 10 *)

(** p/q >= 10^n *)
Definition ge_pow10 (p q n : Z) : bool :=
  if 0 <=? n then q * 10 ^ n <=? p else q <=? p * 10 ^ (- n).

(** The integer n with 10^(n-1) <= p/q < 10^n, from an estimate. *)
Fixpoint adjust_n (fuel : nat) (p q n : Z) : Z :=
  match fuel with
  | O => n
  | S f =>
      if ge_pow10 p q n then adjust_n f p q (n + 1)
      else if ge_pow10 p q (n - 1) then n
      else adjust_n f p q (n - 1)
  end.

Definition decimal_exponent (p q : Z) : Z :=
  adjust_n 8 p q (((Z.log2 p - Z.log2 q) * 30103) / 100000).

(** The k-digit candidates s (below and above) for which s * 10^(n-k)
    reads back as the double, the closer one first. *)
Definition candidate (x : double) (p q n k : Z) : option Z :=
  let j := n - k in
  let '(num, den) := if 0 <=? j then (p, q * 10 ^ j) else (p * 10 ^ (- j), q) in
  let lo := num / den in
  let r := num mod den in
  let hi := lo + 1 in
  let ok s := (0 <? s) && double_eqb (of_decimal false s j) x in
  let lo_first := (2 * r <? den) || ((2 * r =? den) && Z.even lo) in
  if lo_first then
    if ok lo then Some lo else if ok hi then Some hi else None
  else
    if ok hi then Some hi else if ok lo then Some lo else None.

Fixpoint shortest (fuel : nat) (x : double) (p q n k : Z) : Z * Z :=
  match fuel with
  | O => (0, k)
  | S f =>
      match candidate x p q n k with
      | Some s => (s, k)
      | None => shortest f x p q n (k + 1)
      end
  end.

Definition zeros (n : Z) : str := repeat 48%N (Z.to_nat n).

Definition toString (x : double) : str :=
  match x with
  | DZero _ => lit "0"
  | DInf neg => (if neg then lit "-" else []) ++ lit "Infinity"
  | DNum neg m e =>
      let '(p, q) := if 0 <=? e then (m * 2 ^ e, 1) else (m, 2 ^ (- e)) in
      let n0 := decimal_exponent p q in
      let '(s0, k0) := shortest 17 (DNum false m e) p q n0 1 in
      (* a candidate that rolled over to 10^k is the single digit 1 *)
      let '(s, k, n) := if s0 =? 10 ^ k0 then (1, 1, n0 + 1) else (s0, k0, n0) in
      let ds := ofN (Z.to_N s) in
      let body :=
        if (k <=? n) && (n <=? 21) then ds ++ zeros (n - k)
        else if (0 <? n) && (n <=? 21) then
          firstn (Z.to_nat n) ds ++ lit "." ++ skipn (Z.to_nat n) ds
        else if (-6 <? n) && (n <=? 0) then
          lit "0." ++ zeros (- n) ++ ds
        else
          let ex := n - 1 in
          let es := (if ex <? 0 then lit "-" else lit "+")
                    ++ ofN (Z.to_N (Z.abs ex)) in
          if k =? 1 then ds ++ lit "e" ++ es
          else firstn 1 ds ++ lit "." ++ skipn 1 ds ++ lit "e" ++ es
      in
      (if neg then lit "-" else []) ++ body
  end.

(** *** Number.prototype.toFixed(f) *)
Definition toFixed (x : double) (f : nat) : str :=
  match x with
  | DInf _ => toString x
  | DZero _ =>
      if Nat.eqb f 0 then lit "0" else lit "0." ++ repeat 48%N f
  | DNum neg m e =>
      let '(p, q) := if 0 <=? e then (m * 2 ^ e, 1) else (m, 2 ^ (- e)) in
      if q * 10 ^ 21 <=? p then toString x
      else
        (* the integer n closest to x * 10^f, the larger one on a tie *)
        let num := p * 10 ^ Z.of_nat f in
        let n := (2 * num + q) / (2 * q) in
        let ds := ofN (Z.to_N n) in
        let ds' := repeat 48%N (S f - length ds) ++ ds in
        let k := length ds' in
        let body :=
          if Nat.eqb f 0 then ds
          else firstn (k - f) ds' ++ lit "." ++ skipn (k - f) ds' in
        (if neg then lit "-" else []) ++ body
  end.

End Double.

(** ** JSON values and [JSON.parse] *)

Module Json.

Export Double.
Local Open Scope N_scope.

(** What [JSON.parse] can produce. An object keeps its own properties in
    the order [Object.keys] enumerates them. *)
Inductive value :=
| JNull
| JBool (b : bool)
| JNumber (d : double)
| JString (s : str)
| JArray (items : list value)
| JObject (props : list (str * value)).

(** *** Objects: ordinary own properties *)

Definition is_digit (c : char) : bool := (48 <=? c) && (c <=? 57).

Fixpoint digits_N (ds : str) (acc : N) : N :=
  match ds with
  | [] => acc
  | c :: r => digits_N r (acc * 10 + (c - 48))
  end.

(** A key that is an array index (canonical decimal, at most 2^32 - 2):
    such keys are enumerated first, in ascending order. *)
Definition array_index (k : str) : option N :=
  match k with
  | [] => None
  | c :: r =>
      if forallb is_digit k
         && (negb (c =? 48) || match r with [] => true | _ => false end)
         && (Nat.leb (length k) 10)
      then let n := digits_N k 0 in
           if n <=? 4294967294 then Some n else None
      else None
  end.

Fixpoint obj_get (k : str) (props : list (str * value)) : option value :=
  match props with
  | [] => None
  | (k', v) :: rest => if JsString.eqb k' k then Some v else obj_get k rest
  end.

Fixpoint obj_replace (k : str) (v : value) (props : list (str * value))
  : list (str * value) :=
  match props with
  | [] => []
  | (k', v') :: rest =>
      if JsString.eqb k' k then (k', v) :: rest
      else (k', v') :: obj_replace k v rest
  end.

Fixpoint obj_insert_index (i : N) (k : str) (v : value)
         (props : list (str * value)) : list (str * value) :=
  match props with
  | [] => [(k, v)]
  | (k', v') :: rest =>
      match array_index k' with
      | Some j => if j <? i then (k', v') :: obj_insert_index i k v rest
                  else (k, v) :: props
      | None => (k, v) :: props
      end
  end.

(** [CreateDataProperty]: an existing key keeps its place and takes the
    new value; a new key is added. *)
Definition obj_set (k : str) (v : value) (props : list (str * value))
  : list (str * value) :=
  match obj_get k props with
  | Some _ => obj_replace k v props
  | None =>
      match array_index k with
      | Some i => obj_insert_index i k v props
      | None => props ++ [(k, v)]
      end
  end.

Definition mk_object (members : list (str * value)) : list (str * value) :=
  fold_left (fun o kv => obj_set (fst kv) (snd kv) o) members [].

(** *** The JSON grammar, as a recursive-descent parser *)

Definition is_ws (c : char) : bool :=
  (c =? 32) || (c =? 9) || (c =? 10) || (c =? 13).

Fixpoint skip_ws (s : str) : str :=
  match s with
  | c :: s' => if is_ws c then skip_ws s' else s
  | [] => []
  end.

Fixpoint span_digits (s : str) : str * str :=
  match s with
  | c :: s' =>
      if is_digit c then let (d, r) := span_digits s' in (c :: d, r)
      else ([], s)
  | [] => ([], [])
  end.

Definition digits_Z (ds : str) : Z := Z.of_N (digits_N ds 0).

(** An optional fraction: a dot and at least one digit. *)
Definition parse_frac (s : str) : option (str * str) :=
  match s with
  | c :: r =>
      if c =? 46 then
        match span_digits r with
        | ([], _) => None
        | (ds, r') => Some (ds, r')
        end
      else Some ([], s)
  | [] => Some ([], [])
  end.

(** An optional exponent: e or E, an optional sign, at least one digit. *)
Definition parse_exp (s : str) : option (Z * str) :=
  match s with
  | c :: r =>
      if (c =? 101) || (c =? 69) then
        let '(neg, r1) :=
          match r with
          | x :: r0 => if x =? 43 then (false, r0)
                       else if x =? 45 then (true, r0) else (false, r)
          | [] => (false, r)
          end in
        match span_digits r1 with
        | ([], _) => None
        | (ds, r2) => Some (if neg then (- digits_Z ds)%Z else digits_Z ds, r2)
        end
      else Some (0%Z, s)
  | [] => Some (0%Z, [])
  end.

(** The integer part: 0, or a non-zero digit followed by digits. *)
Definition parse_int (s : str) : option (str * str) :=
  match s with
  | d :: s2 =>
      if is_digit d then
        Some (if d =? 48 then ([d], s2) else span_digits s)
      else None
  | [] => None
  end.

Definition parse_sign (s : str) : bool * str :=
  match s with
  | c :: r => if c =? 45 then (true, r) else (false, s)
  | [] => (false, s)
  end.

(** A number literal: an optional minus sign, the integer part, an
    optional fraction and an optional exponent. *)
Definition parse_number (s : str) : option (double * str) :=
  let '(neg, s1) := parse_sign s in
  match parse_int s1 with
  | None => None
  | Some (int_ds, s3) =>
      match parse_frac s3 with
      | None => None
      | Some (frac_ds, s4) =>
          match parse_exp s4 with
          | None => None
          | Some (ex, s5) =>
              Some (of_decimal neg (digits_Z (int_ds ++ frac_ds))
                               (ex - Z.of_nat (length frac_ds)), s5)
          end
      end
  end.

Definition hex_value (c : char) : option N :=
  if is_digit c then Some (c - 48)
  else if (97 <=? c) && (c <=? 102) then Some (c - 87)
  else if (65 <=? c) && (c <=? 70) then Some (c - 55)
  else None.

Definition hex4 (a b c d : char) : option char :=
  match hex_value a, hex_value b, hex_value c, hex_value d with
  | Some x, Some y, Some z, Some w => Some (((x * 16 + y) * 16 + z) * 16 + w)
  | _, _, _, _ => None
  end.

(** The character a single-letter escape stands for. *)
Definition unescape (e : char) : option char :=
  if e =? 34 then Some 34
  else if e =? 92 then Some 92
  else if e =? 47 then Some 47
  else if e =? 98 then Some 8
  else if e =? 102 then Some 12
  else if e =? 110 then Some 10
  else if e =? 114 then Some 13
  else if e =? 116 then Some 9
  else None.

(** The characters of a string literal after its opening quote, up to
    and including the closing quote. *)
Fixpoint parse_string_body (s : str) : option (str * str) :=
  match s with
  | [] => None
  | c :: s' =>
      if c =? 34 then Some ([], s')
      else if c =? 92 then
        match s' with
        | [] => None
        | e :: s'' =>
            if e =? 117 then
              match s'' with
              | h1 :: h2 :: h3 :: h4 :: s3 =>
                  match hex4 h1 h2 h3 h4 with
                  | Some u =>
                      match parse_string_body s3 with
                      | Some (x, r) => Some (u :: x, r)
                      | None => None
                      end
                  | None => None
                  end
              | _ => None
              end
            else
              match unescape e with
              | Some u =>
                  match parse_string_body s'' with
                  | Some (x, r) => Some (u :: x, r)
                  | None => None
                  end
              | None => None
              end
        end
      else if c <? 32 then None
      else
        match parse_string_body s' with
        | Some (x, r) => Some (c :: x, r)
        | None => None
        end
  end.

Fixpoint parse_value (fuel : nat) (s : str) {struct fuel}
  : option (value * str) :=
  match fuel with
  | O => None
  | S n =>
      match s with
      | [] => None
      | c :: s' =>
          if c =? 123 then
            match skip_ws s' with
            | [] => None
            | c1 :: r1 =>
                if c1 =? 125 then Some (JObject [], r1)
                else
                  match parse_members n (c1 :: r1) with
                  | Some (ms, r) => Some (JObject (mk_object ms), r)
                  | None => None
                  end
            end
          else if c =? 91 then
            match skip_ws s' with
            | [] => None
            | c1 :: r1 =>
                if c1 =? 93 then Some (JArray [], r1)
                else
                  match parse_elements n (c1 :: r1) with
                  | Some (vs, r) => Some (JArray vs, r)
                  | None => None
                  end
            end
          else if c =? 34 then
            match parse_string_body s' with
            | Some (x, r) => Some (JString x, r)
            | None => None
            end
          else if startsWith s (lit "true") then Some (JBool true, skipn 4 s)
          else if startsWith s (lit "false") then Some (JBool false, skipn 5 s)
          else if startsWith s (lit "null") then Some (JNull, skipn 4 s)
          else
            match parse_number s with
            | Some (d, r) => Some (JNumber d, r)
            | None => None
            end
      end
  end

with parse_elements (fuel : nat) (s : str) {struct fuel}
  : option (list value * str) :=
  match fuel with
  | O => None
  | S n =>
      match parse_value n s with
      | None => None
      | Some (v, r) =>
          match skip_ws r with
          | [] => None
          | c :: r' =>
              if c =? 93 then Some ([v], r')
              else if c =? 44 then
                match parse_elements n (skip_ws r') with
                | Some (vs, r'') => Some (v :: vs, r'')
                | None => None
                end
              else None
          end
      end
  end

with parse_members (fuel : nat) (s : str) {struct fuel}
  : option (list (str * value) * str) :=
  match fuel with
  | O => None
  | S n =>
      match s with
      | [] => None
      | q :: s' =>
          if q =? 34 then
            match parse_string_body s' with
            | None => None
            | Some (k, r) =>
                match skip_ws r with
                | [] => None
                | colon :: r1 =>
                    if colon =? 58 then
                      match parse_value n (skip_ws r1) with
                      | None => None
                      | Some (v, r2) =>
                          match skip_ws r2 with
                          | [] => None
                          | c :: r3 =>
                              if c =? 125 then Some ([(k, v)], r3)
                              else if c =? 44 then
                                match parse_members n (skip_ws r3) with
                                | Some (ms, r4) => Some ((k, v) :: ms, r4)
                                | None => None
                                end
                              else None
                          end
                      end
                    else None
                end
            end
          else None
      end
  end.

(** [JSON.parse(text)] without reviver; [None] is the SyntaxError. The
    fuel is the length of the text, which is always enough
    ([JSON_parse_fuel] below). *)
Definition JSON_parse (s : str) : option value :=
  match parse_value (length s) (skip_ws s) with
  | Some (v, r) => match skip_ws r with [] => Some v | _ => None end
  | None => None
  end.

End Json.

Import Json.

(** ** JavaScript operations on parsed values *)

Module JsValue.

Local Open Scope N_scope.

(** Exceptions: the three error classes that can arise here. *)
Inductive JsError :=
| Error (msg : str)
| TypeError (msg : str)
| URIError (msg : str).

Definition message (e : JsError) : str :=
  match e with Error m | TypeError m | URIError m => m end.

(** [ToBoolean] *)
Definition truthy (v : value) : bool :=
  match v with
  | JNull => false
  | JBool b => b
  | JNumber d => Double.truthy d
  | JString s => match s with [] => false | _ :: _ => true end
  | JArray _ | JObject _ => true
  end.

(** [ToString]. An array prints its elements joined by commas, a null
    element as the empty string. A plain object prints as
    [[object Object]], unless an own property shadows [toString]: a
    parsed value is never callable, and the conversion is a TypeError
    ([None]). *)
Fixpoint ToString (v : value) : option str :=
  match v with
  | JNull => Some (lit "null")
  | JBool b => Some (if b then lit "true" else lit "false")
  | JNumber d => Some (Double.toString d)
  | JString s => Some s
  | JArray items =>
      (fix join (l : list value) : option str :=
         match l with
         | [] => Some []
         | x :: l' =>
             let sx := match x with JNull => Some [] | _ => ToString x end in
             match sx, l' with
             | None, _ => None
             | Some a, [] => Some a
             | Some a, _ :: _ =>
                 match join l' with
                 | Some b => Some (a ++ lit "," ++ b)
                 | None => None
                 end
             end
         end) items
  | JObject props =>
      match obj_get (lit "toString") props with
      | Some _ => None
      | None => Some (lit "[object Object]")
      end
  end.

(** A value or [undefined] inside a template literal. *)
Definition interpolate (v : option value) : option str :=
  match v with
  | None => Some (lit "undefined")
  | Some x => ToString x
  end.

(** [v.name] for a property name that no built-in prototype defines and
    that is neither [length] nor an index (title, description, ...):
    [None] is the TypeError on null, [Some None] is undefined. *)
Definition getField (v : value) (name : str) : option (option value) :=
  match v with
  | JNull => None
  | JObject props => Some (obj_get name props)
  | _ => Some None
  end.

(** The own enumerable properties an object spread copies. *)
Definition spreadProps (v : value) : list (str * value) :=
  match v with
  | JObject props => props
  | JArray items =>
      combine (map ofNat (seq 0 (length items))) items
  | JString s =>
      combine (map ofNat (seq 0 (length s))) (map (fun c => JString [c]) s)
  | _ => []
  end.

(** *** encodeURIComponent *)

Definition uriUnreserved (c : char) : bool :=
  (48 <=? c) && (c <=? 57) || (65 <=? c) && (c <=? 90)
  || (97 <=? c) && (c <=? 122)
  || (c =? 45) || (c =? 95) || (c =? 46) || (c =? 33) || (c =? 126)
  || (c =? 42) || (c =? 39) || (c =? 40) || (c =? 41).

Definition hexDigit (d : N) : char := if d <? 10 then 48 + d else 55 + d.

Definition percent (octet : N) : str :=
  [37; hexDigit (octet / 16); hexDigit (octet mod 16)].

Definition utf8 (v : N) : list N :=
  if v <? 128 then [v]
  else if v <? 2048 then [192 + v / 64; 128 + v mod 64]
  else if v <? 65536 then
    [224 + v / 4096; 128 + (v / 64) mod 64; 128 + v mod 64]
  else
    [240 + v / 262144; 128 + (v / 4096) mod 64; 128 + (v / 64) mod 64;
     128 + v mod 64].

Definition isHighSurrogate (c : char) : bool := (55296 <=? c) && (c <=? 56319).
Definition isLowSurrogate (c : char) : bool := (56320 <=? c) && (c <=? 57343).

(** [None] is the URIError on a lone surrogate. *)
Fixpoint encodeURIComponent (s : str) : option str :=
  match s with
  | [] => Some []
  | c :: r =>
      if uriUnreserved c then option_map (cons c) (encodeURIComponent r)
      else if isLowSurrogate c then None
      else if isHighSurrogate c then
        match r with
        | c2 :: r2 =>
            if isLowSurrogate c2 then
              let v := (c - 55296) * 1024 + (c2 - 56320) + 65536 in
              option_map (app (flat_map percent (utf8 v)))
                         (encodeURIComponent r2)
            else None
        | [] => None
        end
      else
        option_map (app (flat_map percent (utf8 c))) (encodeURIComponent r)
  end.

End JsValue.

Import JsValue.

(** ** Regular expressions

    A backtracking matcher for the fragment of ECMAScript patterns the
    service uses, in continuation-passing style: alternatives are tried
    left to right, a greedy quantifier tries one more iteration before it
    tries the rest of the pattern, a lazy one the other way round. Matching
    is by code unit (no [u] flag). *)

Module Regex.

Inductive regex :=
| Empty
| Chr (c : char)
| Class (p : char -> bool)
| Seq (a b : regex)
| Alt (a b : regex)
| Star (greedy : bool) (r : regex)
| Opt (r : regex)
| Group (i : nat) (r : regex)
| Bol
| Eol.

Definition cat (l : list regex) : regex := fold_right Seq Empty l.

(** Capture groups: index to captured substring, [None] for undefined. *)
Definition captures := nat -> option str.

Definition no_captures : captures := fun _ => None.

Definition set_capture (i : nat) (x : option str) (c : captures) : captures :=
  fun j => if Nat.eqb j i then x else c j.

Fixpoint groups_of (r : regex) : list nat :=
  match r with
  | Seq a b | Alt a b => groups_of a ++ groups_of b
  | Star _ a | Opt a => groups_of a
  | Group i a => i :: groups_of a
  | _ => []
  end.

(** Every group inside a quantified atom is reset when an iteration
    starts. *)
Definition clear_groups (r : regex) (c : captures) : captures :=
  fold_right (fun i c' => set_capture i None c') c (groups_of r).

Definition cont := str -> captures -> option (str * captures).

Definition matcher := str -> captures -> cont -> option (str * captures).

(** The iterations of a starred atom [body], at most [fuel] of them: a
    greedy star tries one more iteration first, a lazy one the
    continuation. An iteration that consumes nothing is rejected, so the
    length of the input is enough fuel. *)
Fixpoint star_loop (body : matcher) (reset : captures -> captures)
         (greedy : bool) (k : cont) (fuel : nat) (s : str) (caps : captures)
  : option (str * captures) :=
  match fuel with
  | O => k s caps
  | S f =>
      let again :=
        body s (reset caps)
          (fun s' caps' =>
             if Nat.ltb (length s') (length s)
             then star_loop body reset greedy k f s' caps' else None) in
      if greedy then
        match again with Some res => Some res | None => k s caps end
      else
        match k s caps with Some res => Some res | None => again end
  end.

(** [rmatch r total s caps k]: match [r] at the front of [s], the rest of
    an input of [total] code units, then hand what is left to [k]. *)
Fixpoint rmatch (r : regex) (total : nat) (s : str) (caps : captures)
         (k : cont) {struct r} : option (str * captures) :=
  match r with
  | Empty => k s caps
  | Chr c =>
      match s with
      | x :: s' => if N.eqb x c then k s' caps else None
      | [] => None
      end
  | Class p =>
      match s with
      | x :: s' => if p x then k s' caps else None
      | [] => None
      end
  | Seq a b =>
      rmatch a total s caps (fun s' caps' => rmatch b total s' caps' k)
  | Alt a b =>
      match rmatch a total s caps k with
      | Some res => Some res
      | None => rmatch b total s caps k
      end
  | Star greedy a =>
      star_loop (rmatch a total) (clear_groups a) greedy k (length s) s caps
  | Opt a =>
      match rmatch a total s (clear_groups a caps)
              (fun s' caps' =>
                 if Nat.ltb (length s') (length s) then k s' caps' else None)
      with
      | Some res => Some res
      | None => k s caps
      end
  | Group i a =>
      rmatch a total s caps
        (fun s' caps' =>
           k s' (set_capture i (Some (firstn (length s - length s') s)) caps'))
  | Bol => if Nat.eqb (length s) total then k s caps else None
  | Eol => match s with [] => k s caps | _ :: _ => None end
  end.

(** The result of [String.prototype.match] with a non-global pattern:
    element 0 is the matched text, element i the i-th group. *)
Record MatchResult := { whole : str; group : nat -> option str }.

Fixpoint exec_from (r : regex) (total : nat) (s : str) : option MatchResult :=
  match rmatch r total s no_captures (fun s' caps' => Some (s', caps')) with
  | Some (rest, caps) =>
      Some {| whole := firstn (length s - length rest) s; group := caps |}
  | None =>
      match s with
      | [] => None
      | _ :: s' => exec_from r total s'
      end
  end.

Definition exec (r : regex) (s : str) : option MatchResult :=
  exec_from r (length s) s.

(** [\w] *)
Definition isWord (c : char) : bool :=
  ((48 <=? c) && (c <=? 57) || (65 <=? c) && (c <=? 90)
   || (97 <=? c) && (c <=? 122) || (c =? 95))%N.

(** [.] under the [s] flag, and [[\s\S]] *)
Definition anyChar (c : char) : bool := true.

End Regex.

(** ** The service: [src/services/geminiService.ts] *)

Module GeminiService.

Import Regex.
Local Open Scope N_scope.

(** *** parseJsonFromText *)

(** The pattern of [fenceRegex], with the [s] flag: start of input, three
    backticks, an optional group 1 of word characters (greedy), white
    space (greedy), an optional newline, group 2 of any characters
    (lazy), an optional newline, white space (greedy), three backticks,
    end of input. *)
Definition fenceRegex : regex :=
  cat [ Bol; Chr 96; Chr 96; Chr 96;
        Opt (Group 1 (Star true (Class isWord)));
        Star true (Class isWhiteSpace);
        Opt (Chr 10);
        Group 2 (Star false (Class anyChar));
        Opt (Chr 10);
        Star true (Class isWhiteSpace);
        Chr 96; Chr 96; Chr 96; Eol ].

(** The pattern of the loose match: one group, either an opening
    bracket, any characters (greedy) and a closing bracket, or the same
    with braces. *)
Definition looseRegex : regex :=
  Group 1 (Alt (cat [Chr 91; Star true (Class anyChar); Chr 93])
               (cat [Chr 123; Star true (Class anyChar); Chr 125])).

(** The variables of the iterative array scan. *)
Record Scan := {
  buffer : str;
  depth : Z;
  inString : bool;
  extractedObjects : list value
}.

(** The inner loop [for (j = i - 1; j >= 0; j--)]: the number of
    consecutive backslashes just before position [i]. *)
Fixpoint backslashCount (arrayContent : str) (i : nat) : nat :=
  match i with
  | O => O
  | S j =>
      if nth j arrayContent 0 =? 92 then S (backslashCount arrayContent j)
      else O
  end.

(** The body of the loop for the character [char], given the number of
    backslashes just before it. *)
Definition scanChar (char : char) (backslashes : nat) (st : Scan) : Scan :=
  let inString1 :=
    if char =? 34 then
      if Nat.even backslashes then negb (inString st) else inString st
    else inString st in
  let '(buffer1, depth1) :=
    if negb inString1 then
      if char =? 123 then
        ((if (depth st =? 0)%Z then [] else buffer st), (depth st + 1)%Z)
      else if char =? 125 then (buffer st, (depth st - 1)%Z)
      else (buffer st, depth st)
    else (buffer st, depth st) in
  let buffer2 := buffer1 ++ [char] in
  let keep b :=
    {| buffer := b; depth := depth1; inString := inString1;
       extractedObjects := extractedObjects st |} in
  if negb inString1 && (depth1 =? 0)%Z && (char =? 125) then
    if startsWith (trim buffer2) (lit "{") then
      match JSON_parse buffer2 with
      | Some obj =>
          {| buffer := []; depth := depth1; inString := inString1;
             extractedObjects := extractedObjects st ++ [obj] |}
      | None => keep buffer2
      end
    else keep []
  else if negb inString1 && (depth1 =? 0)%Z && (char =? 44) then keep []
  else keep buffer2.

(** One iteration of [for (let i = 0; i < arrayContent.length; i++)]. *)
Definition scanStep (arrayContent : str) (i : nat) (st : Scan) : Scan :=
  scanChar (nth i arrayContent 0) (backslashCount arrayContent i) st.

Fixpoint scanLoop (arrayContent : str) (count : nat) (i : nat) (st : Scan)
  : Scan :=
  match count with
  | O => st
  | S count' => scanLoop arrayContent count' (S i) (scanStep arrayContent i st)
  end.

Definition scanArray (arrayContent : str) : Scan :=
  scanLoop arrayContent (length arrayContent) 0
    {| buffer := []; depth := 0; inString := false; extractedObjects := [] |}.

Definition nonEmpty (s : str) : bool :=
  match s with [] => false | _ :: _ => true end.

(** Lines 57 to 62: the interior of a fence that spans the whole text,
    when the pattern matches and its group 2 is a non-empty string. *)
Definition stripFence (jsonStr : str) : str :=
  match exec fenceRegex jsonStr with
  | Some fenceMatch =>
      match group fenceMatch 2 with
      | Some inner => if nonEmpty inner then trim inner else jsonStr
      | None => jsonStr
      end
  | None => jsonStr
  end.

(** Fallback 1, inside its guard: the objects the scan extracts from the
    text between the brackets, if there are any. *)
Definition iterativeArrayParse (jsonStr : str) : option value :=
  let arrayContent := trim (substring jsonStr 1 (length jsonStr - 1)) in
  let extracted := extractedObjects (scanArray arrayContent) in
  if Nat.ltb 0 (length extracted) then Some (JArray extracted) else None.

(** Fallback 2: the loose match, parsed strictly. *)
Definition looseMatchParse (jsonStr : str) : value :=
  match exec looseRegex jsonStr with
  | Some jsonLooseMatch =>
      if nonEmpty (whole jsonLooseMatch) then
        match JSON_parse (whole jsonLooseMatch) with
        | Some parsed => parsed
        | None => JNull
        end
      else JNull
  | None => JNull
  end.

(** [parseJsonFromText<T>(text, isArrayExpected): T | null]. The result
    is a JavaScript value; [JNull] is [null], whether it was parsed or
    stands for failure. *)
Definition parseJsonFromText (text : str) (isArrayExpected : bool) : value :=
  let jsonStr := stripFence (trim text) in
  match JSON_parse jsonStr with
  | Some v => v
  | None =>
      let fallback1 :=
        if isArrayExpected && startsWith jsonStr (lit "[")
           && endsWith jsonStr (lit "]")
        then iterativeArrayParse jsonStr
        else None in
      match fallback1 with
      | Some v => v
      | None => looseMatchParse jsonStr
      end
  end.

(** *** Constants: [src/constants.ts] *)

Definition DEAL_CATEGORIES : list str :=
  [ lit "Electronics"; lit "Fashion"; lit "Home & Kitchen";
    lit "Sports & Outdoors"; lit "Books"; lit "Groceries";
    lit "Beauty & Personal Care"; lit "Toys & Games"; lit "Automotive";
    lit "Travel" ].

Definition GEMINI_MODEL_TEXT : str := lit "gemini-2.5-flash-preview-04-17".

Definition MOCK_API_KEY_NOTICE : str :=
  lit "API_KEY environment variable not found. Using mock data. For live AI features, please ensure the API_KEY is configured in your environment.".

Definition GEMINI_ERROR_MESSAGE : str :=
  lit "Could not connect to AI services. Please check your API key or network connection.".

Definition INITIAL_DEALS_COUNT : nat := 6.

(** *** Types: [src/types.ts] and the request and response of the SDK *)

Record UserPreferences := {
  categories : list str;
  location : str;
  keywords : str
}.

Record GroundingChunkSource := { uri : option str; title : option str }.

Record GroundingChunk := {
  web : option GroundingChunkSource;
  retrievedContext : option GroundingChunkSource
}.

Record GroundingMetadata := {
  groundingChunks : option (list GroundingChunk);
  searchQueries : option (list str)
}.

Record Part := { text : str }.

Record Content := { role : str; parts : list Part }.

(** The one tool the service attaches: [{googleSearch: {}}]. *)
Inductive Tool := GoogleSearch.

(** The [config] object: an absent key is [None]. *)
Record Config := {
  responseMimeType : option str;
  tools : option (list Tool)
}.

Record GenerateContentParameters := {
  model : str;
  contents : list Content;
  config : Config
}.

Record Candidate := { candidateGrounding : option GroundingMetadata }.

Record GenerateContentResponse := {
  responseText : str;
  candidates : option (list Candidate)
}.

Record GoogleGenAI := { apiKey : str }.

(** *** The world the service runs in

    [Env] is what the service cannot see into: the build-time
    environment variable, the remote model (which answers the n-th
    request with a response or rejects it with an error), the clock and
    the random source. [World] is the mutable state: the module-level
    client handle [ai], and the history of requests sent, clock reads and
    random draws. *)

Record Env := {
  VITE_GEMINI_API_KEY : option str;
  remoteGenerateContent :
    nat -> GenerateContentParameters -> JsError + GenerateContentResponse;
  Date_now : nat -> N;
  Math_random : nat -> double
}.

Record World := {
  ai : option GoogleGenAI;
  sent : list GenerateContentParameters;
  clockReads : nat;
  randomDraws : nat
}.

Inductive Outcome (A : Type) :=
| Return (a : A)
| Throw (e : JsError).

Arguments Return {A} a.
Arguments Throw {A} e.

(** Computations that read and write the world and may throw. *)
Definition M (A : Type) : Type := World -> Outcome A * World.

Definition ret {A} (a : A) : M A := fun w => (Return a, w).

Definition throw {A} (e : JsError) : M A := fun w => (Throw e, w).

Definition bind {A B} (c : M A) (k : A -> M B) : M B :=
  fun w =>
    match c w with
    | (Return a, w') => k a w'
    | (Throw e, w') => (Throw e, w')
    end.

Definition tryCatch {A} (body : M A) (handler : JsError -> M A) : M A :=
  fun w =>
    match body w with
    | (Return a, w') => (Return a, w')
    | (Throw e, w') => handler e w'
    end.

Notation "x <- c ;; k" := (bind c (fun x => k))
  (at level 61, c at next level, right associativity).

(** Steps that do not touch the world. *)
Definition obind {A B} (o : Outcome A) (k : A -> Outcome B) : Outcome B :=
  match o with
  | Return a => k a
  | Throw e => Throw e
  end.

Definition lift {A} (o : Outcome A) : M A := fun w => (o, w).

Notation "x <~ o ;; k" := (obind o (fun x => k))
  (at level 61, o at next level, right associativity).

(** A conversion that fails raises a TypeError. *)
Definition orTypeError {A} (o : option A) (msg : str) : Outcome A :=
  match o with
  | Some a => Return a
  | None => Throw (TypeError msg)
  end.

Definition dateNow (env : Env) : M N :=
  fun w =>
    (Return (Date_now env (clockReads w)),
     {| ai := ai w; sent := sent w; clockReads := S (clockReads w);
        randomDraws := randomDraws w |}).

Definition mathRandom (env : Env) : M double :=
  fun w =>
    (Return (Math_random env (randomDraws w)),
     {| ai := ai w; sent := sent w; clockReads := clockReads w;
        randomDraws := S (randomDraws w) |}).

(** [await localAi.models.generateContent(request)] *)
Definition generateContent (env : Env) (request : GenerateContentParameters)
  : M GenerateContentResponse :=
  fun w =>
    let w' := {| ai := ai w; sent := sent w ++ [request];
                 clockReads := clockReads w; randomDraws := randomDraws w |} in
    match remoteGenerateContent env (length (sent w)) request with
    | inl e => (Throw e, w')
    | inr response => (Return response, w')
    end.

(** *** initializeAi *)

Definition API_KEY_MISSING : str := lit "API_KEY_MISSING".

Definition initializeAi (env : Env) : M GoogleGenAI :=
  fun w =>
    match ai w with
    | Some client => (Return client, w)
    | None =>
        match VITE_GEMINI_API_KEY env with
        | Some key =>
            if nonEmpty key then
              let client := {| apiKey := key |} in
              (Return client,
               {| ai := Some client; sent := sent w;
                  clockReads := clockReads w; randomDraws := randomDraws w |})
            else (Throw (Error API_KEY_MISSING), w)
        | None => (Throw (Error API_KEY_MISSING), w)
        end
    end.

(** *** generateDeals *)

Definition nl : str := [10].

Definition basePrompt (preferences : UserPreferences) : str :=
  let prompt0 :=
    jq "Generate " ++ ofNat INITIAL_DEALS_COUNT
    ++ jq " realistic-sounding deals for an e-commerce website.
For each deal, include: title, a short description (1-2 sentences), original price (e.g., $100.00), discounted price (e.g., $75.00), merchant name (e.g., Amazon, BestBuy, LocalMart), and a product category.
Output ONLY the deals as a JSON array of objects, where each object has keys: 'title', 'description', 'originalPrice', 'discountedPrice', 'merchant', 'category'.
Ensure prices are strings representing currency values. Do not include any text before or after the JSON array.
Example of one deal object:
{
  'title': '50% Off Sony WH-1000XM5 Noise Cancelling Headphones',
  'description': 'Experience industry-leading noise cancellation with these premium headphones. Perfect for travel and focus.',
  'originalPrice': '399.99',
  'discountedPrice': '199.99',
  'merchant': 'BestBuy',
  'category': 'Electronics'
}" in
  let prompt1 :=
    if nonEmpty (keywords preferences) then
      prompt0 ++ nl ++ jq "Focus on deals related to: '"
      ++ keywords preferences ++ jq "'."
    else prompt0 in
  let prompt2 :=
    if Nat.ltb 0 (length (categories preferences)) then
      prompt1 ++ nl ++ lit "Prioritize categories: "
      ++ concat_with (lit ", ") (categories preferences)
      ++ lit ". Available categories can include Electronics, Fashion, Home & Kitchen, Sports & Outdoors, Books, Groceries, Beauty & Personal Care, Toys & Games, Automotive, Travel."
    else prompt1 in
  let prompt3 :=
    if nonEmpty (location preferences) then
      prompt2 ++ nl ++ jq "Consider offers relevant to location: '"
      ++ location preferences
      ++ jq "' or online deals accessible from there. Mention if a deal is local or online."
    else prompt2 in
  prompt3 ++ nl
  ++ lit "Provide varied and appealing deals. If generating local deals, ensure the merchant name reflects that. Ensure the output is strictly a JSON array.".

Definition searchPrompt (preferences : UserPreferences) : str :=
  let searchQuery0 := lit "latest deals" in
  let searchQuery1 :=
    if nonEmpty (keywords preferences)
    then searchQuery0 ++ lit " for " ++ keywords preferences
    else searchQuery0 in
  let searchQuery2 :=
    if Nat.ltb 0 (length (categories preferences))
    then searchQuery1 ++ lit " in "
         ++ concat_with (lit ", ") (categories preferences)
    else searchQuery1 in
  let searchQuery :=
    if nonEmpty (location preferences)
    then searchQuery2 ++ lit " near " ++ location preferences
    else searchQuery2 in
  jq "Find recent top deals based on the query: '" ++ searchQuery
  ++ jq "'.
        Provide a list of up to " ++ ofNat INITIAL_DEALS_COUNT
  ++ jq " deals.
        For each deal, extract or infer: title, a short description, original price, discounted price, merchant name, and a product category.
        Format the output ONLY as a JSON array of objects with keys: 'title', 'description', 'originalPrice', 'discountedPrice', 'merchant', 'category'.
        Do not include any text before or after the JSON array.
        If price information is not available, you can state 'Price varies' or omit price fields for that specific deal.
        Focus on concrete deals, not general advice.".

(** The request [generateDeals] sends: [contents] and [config] as they
    stand after the [if (useSearchGrounding)] block, which overwrites
    the prompt, sets [config.tools] and deletes
    [config.responseMimeType]. *)
Definition dealsRequest (preferences : UserPreferences)
           (useSearchGrounding : bool) : GenerateContentParameters :=
  let prompt := basePrompt preferences in
  let contents0 := [ {| role := lit "user"; parts := [ {| text := prompt |} ] |} ] in
  let config0 := {| responseMimeType := Some (lit "application/json");
                    tools := None |} in
  let '(contents1, config1) :=
    if useSearchGrounding then
      ( [ {| role := lit "user";
             parts := [ {| text := searchPrompt preferences |} ] |} ],
        {| responseMimeType := None; tools := Some [GoogleSearch] |} )
    else (contents0, config0) in
  {| model := GEMINI_MODEL_TEXT; contents := contents1; config := config1 |}.

Definition picsumUrl (seed : str) : str :=
  lit "https://picsum.photos/seed/" ++ seed ++ lit "/300/200".

(** The callback of [.map((deal, index) => ...)]: the object literal is
    evaluated left to right, the spread first, then [id] (which reads the
    clock), then [imageUrl]. *)
Definition dealWithId (env : Env) (deal : value) (index : nat) : M value :=
  let copied := spreadProps deal in
  now <- dateNow env ;;
  let id := ofN now ++ lit "-" ++ ofNat index in
  titleField <- lift (orTypeError (getField deal (lit "title"))
                  (lit "Cannot read properties of null (reading 'title')")) ;;
  let seedValue :=
    match titleField with
    | Some t => if truthy t then t else JString (lit "deal-" ++ ofNat index)
    | None => JString (lit "deal-" ++ ofNat index)
    end in
  seedText <- lift (orTypeError (ToString seedValue)
                (lit "Cannot convert object to primitive value")) ;;
  match encodeURIComponent seedText with
  | None => throw (URIError (lit "URI malformed"))
  | Some seed =>
      ret (JObject
             (obj_set (lit "imageUrl") (JString (picsumUrl seed))
                (obj_set (lit "id") (JString id) (mk_object copied))))
  end.

Fixpoint mapDeals (env : Env) (items : list value) (index : nat)
  : M (list value) :=
  match items with
  | [] => ret []
  | deal :: rest =>
      d <- dealWithId env deal index ;;
      ds <- mapDeals env rest (S index) ;;
      ret (d :: ds)
  end.

(** [(parsedDeals || []).map(...)]: a falsy value gives the empty list,
    an array is mapped, anything else has no [map] method. *)
Definition dealsWithIds (env : Env) (parsedDeals : value) : M (list value) :=
  if truthy parsedDeals then
    match parsedDeals with
    | JArray items => mapDeals env items 0
    | _ => throw (TypeError (lit "(parsedDeals || []).map is not a function"))
    end
  else ret [].

Record GenerateDealsResult := {
  deals : list value;
  groundingMetadata : option GroundingMetadata
}.

(** [response.candidates?.[0]?.groundingMetadata] *)
Definition firstGrounding (response : GenerateContentResponse)
  : option GroundingMetadata :=
  match candidates response with
  | Some (c :: _) => candidateGrounding c
  | _ => None
  end.

Definition GENERATE_FAILED : str := lit "Failed to generate deals from AI.".

Definition generateDeals (env : Env) (preferences : UserPreferences)
           (useSearchGrounding : bool) : M GenerateDealsResult :=
  tryCatch
    (localAi <- initializeAi env ;;
     response <- generateContent env (dealsRequest preferences useSearchGrounding) ;;
     let parsedDeals := parseJsonFromText (responseText response) true in
     ds <- dealsWithIds env parsedDeals ;;
     ret {| deals := ds; groundingMetadata := firstGrounding response |})
    (fun error =>
       if JsString.eqb (message error) API_KEY_MISSING then throw error
       else throw (Error GENERATE_FAILED)).

(** *** verifyDeal *)

(** [${deal.name}] inside the prompt template. *)
Definition readField (deal : value) (name : str) : Outcome str :=
  field <~ orTypeError (getField deal name)
             (lit "Cannot read properties of null") ;;
  orTypeError (interpolate field)
              (lit "Cannot convert object to primitive value").

Definition verifyPrompt (deal : value) : Outcome str :=
  t <~ readField deal (lit "title") ;;
  d <~ readField deal (lit "description") ;;
  o <~ readField deal (lit "originalPrice") ;;
  p <~ readField deal (lit "discountedPrice") ;;
  m <~ readField deal (lit "merchant") ;;
  c <~ readField deal (lit "category") ;;
  Return (jq "Given the following deal information:
Title: " ++ t ++ jq "
Description: " ++ d ++ jq "
Original Price: " ++ o ++ jq "
Discounted Price: " ++ p ++ jq "
Merchant: " ++ m ++ jq "
Category: " ++ c ++ jq "

Assess the authenticity and value of this deal. Provide a brief verification summary (1-2 sentences) and a score from 1 (likely scam/bad deal) to 5 (excellent, trustworthy deal).
Consider factors like typical product pricing for the category, merchant reputation (if generally known), and plausibility of the discount.
Output ONLY the result as a JSON object with keys: 'summary' (string) and 'score' (number). Do not include any text before or after the JSON object.
Example output:
{
  'summary': 'This seems like a legitimate and good value deal from a reputable merchant, given the typical price range for this product type.',
  'score': 4
}").

Definition verifyRequest (prompt : str) : GenerateContentParameters :=
  {| model := GEMINI_MODEL_TEXT;
     contents := [ {| role := lit "user"; parts := [ {| text := prompt |} ] |} ];
     config := {| responseMimeType := Some (lit "application/json");
                  tools := None |} |}.

(** The object literal [{ summary: ..., score: 0 }]. *)
Definition verification (summary : str) : value :=
  JObject [ (lit "summary", JString summary);
            (lit "score", JNumber (DZero false)) ].

Definition FORMAT_ERROR : str :=
  lit "AI could not verify this deal due to response format error.".

Definition CONNECT_FAILED : str :=
  lit "Failed to connect to AI for verification.".

Definition verifyDeal (env : Env) (deal : value) : M value :=
  tryCatch
    (localAi <- initializeAi env ;;
     prompt <- lift (verifyPrompt deal) ;;
     response <- generateContent env (verifyRequest prompt) ;;
     let verificationResult := parseJsonFromText (responseText response) false in
     if negb (truthy verificationResult) then ret (verification FORMAT_ERROR)
     else ret verificationResult)
    (fun error =>
       if JsString.eqb (message error) API_KEY_MISSING then throw error
       else ret (verification CONNECT_FAILED)).

End GeminiService.
Import GeminiService.

(** ** The application component: [fetchDeals] and [handleVerifyDeal] *)

Module App.

Local Open Scope N_scope.

(** The React state the two callbacks write. *)
Record AppState := {
  deals : list value;
  isLoading : bool;
  error : option str;
  apiKeyMissing : bool;
  groundingMetadata : option GroundingMetadata;
  selectedDealForVerification : option value;
  verificationData : option value;
  isVerifying : bool
}.

Definition hundred : double := of_Z 100.
Definition fifty : double := of_Z 50.
Definition twenty : double := of_Z 20.

(** The callback of [Array.from({ length: INITIAL_DEALS_COUNT }).map]:
    one placeholder deal, drawing two random numbers. *)
Definition mockDeal (env : Env) (i : nat) (w : World) : value * World :=
  let r1 := Math_random env (randomDraws w) in
  let r2 := Math_random env (S (randomDraws w)) in
  (JObject
     [ (lit "id", JString (lit "mock-" ++ ofNat i));
       (lit "title", JString (lit "Mock Deal Title " ++ ofNat (i + 1)));
       (lit "description",
        JString (lit "This is a placeholder deal because the AI service is unavailable. Please configure API_KEY."));
       (lit "originalPrice",
        JString (lit "$" ++ toFixed (Double.add (Double.mul r1 hundred) fifty) 2));
       (lit "discountedPrice",
        JString (lit "$" ++ toFixed (Double.add (Double.mul r2 fifty) twenty) 2));
       (lit "merchant", JString (lit "Mock Merchant"));
       (lit "category",
        JString (nth (Nat.modulo i (length DEAL_CATEGORIES)) DEAL_CATEGORIES []));
       (lit "imageUrl",
        JString (lit "https://picsum.photos/seed/mockdeal" ++ ofNat i
                 ++ lit "/300/200")) ],
   {| ai := ai w; sent := sent w; clockReads := clockReads w;
      randomDraws := S (S (randomDraws w)) |}).

Fixpoint mockDeals (env : Env) (count i : nat) (w : World)
  : list value * World :=
  match count with
  | O => ([], w)
  | S count' =>
      let '(d, w1) := mockDeal env i w in
      let '(ds, w2) := mockDeals env count' (S i) w1 in
      (d :: ds, w2)
  end.

Definition fetchDeals (env : Env) (prefs : UserPreferences)
           (useSearchGrounding : bool) (st : AppState) (w : World)
  : AppState * World :=
  (* setIsLoading(true); setError(null); setGroundingMetadata(undefined) *)
  let st1 := {| deals := deals st; isLoading := true; error := None;
                apiKeyMissing := apiKeyMissing st;
                groundingMetadata := None;
                selectedDealForVerification := selectedDealForVerification st;
                verificationData := verificationData st;
                isVerifying := isVerifying st |} in
  match generateDeals env prefs useSearchGrounding w with
  | (Return result, w1) =>
      ({| deals := GeminiService.deals result; isLoading := false;
          error := error st1; apiKeyMissing := apiKeyMissing st1;
          groundingMetadata :=
            match GeminiService.groundingMetadata result with
            | Some g => Some g
            | None => groundingMetadata st1
            end;
          selectedDealForVerification := selectedDealForVerification st1;
          verificationData := verificationData st1;
          isVerifying := isVerifying st1 |}, w1)
  | (Throw err, w1) =>
      let errorMessage := message err in
      if JsString.eqb errorMessage API_KEY_MISSING then
        let '(placeholders, w2) := mockDeals env INITIAL_DEALS_COUNT 0 w1 in
        ({| deals := placeholders; isLoading := false;
            error := Some MOCK_API_KEY_NOTICE; apiKeyMissing := true;
            groundingMetadata := groundingMetadata st1;
            selectedDealForVerification := selectedDealForVerification st1;
            verificationData := verificationData st1;
            isVerifying := isVerifying st1 |}, w2)
      else
        ({| deals := []; isLoading := false;
            error := Some (GEMINI_ERROR_MESSAGE ++ lit " Details: " ++ errorMessage);
            apiKeyMissing := apiKeyMissing st1;
            groundingMetadata := groundingMetadata st1;
            selectedDealForVerification := selectedDealForVerification st1;
            verificationData := verificationData st1;
            isVerifying := isVerifying st1 |}, w1)
  end.

Definition withVerification (st : AppState) (deal : value) (v : value)
  : AppState :=
  {| deals := deals st; isLoading := isLoading st; error := error st;
     apiKeyMissing := apiKeyMissing st;
     groundingMetadata := groundingMetadata st;
     selectedDealForVerification := Some deal;
     verificationData := Some v;
     isVerifying := false |}.

Definition handleVerifyDeal (env : Env) (deal : value) (st : AppState)
           (w : World) : AppState * World :=
  if apiKeyMissing st then
    (withVerification st deal
       (verification (lit "AI Verification is unavailable. API_KEY is missing.")), w)
  else
    match verifyDeal env deal w with
    | (Return v, w1) => (withVerification st deal v, w1)
    | (Throw _, w1) =>
        (withVerification st deal
           (verification (lit "Failed to get verification from AI.")), w1)
    end.

End App.

(** ** Vocabulary of the statements and sample inputs *)

Module Spec.

(** The credential gate is open: a client was built earlier, or the
    environment variable holds a non-empty key. *)
Definition credentialAvailable (env : Env) (w : World) : bool :=
  match ai w with
  | Some _ => true
  | None =>
      match VITE_GEMINI_API_KEY env with
      | Some key => nonEmpty key
      | None => false
      end
  end.

(** The three ways a verification can fail. *)
Inductive Failure :=
| MissingCredentials
| OracleFailure (e : JsError)
| DecodeFailure (response : GenerateContentResponse).

(** [happens env deal w f]: a call of [verifyDeal env deal] in world [w]
    meets failure [f]. An oracle failure is any rejection whose message
    is not the text [API_KEY_MISSING]; a decode failure is a response
    for which the decoder gives a falsy value (null included). *)
Definition happens (env : Env) (deal : value) (w : World) (f : Failure) : Prop :=
  match f with
  | MissingCredentials => credentialAvailable env w = false
  | OracleFailure e =>
      credentialAvailable env w = true
      /\ exists prompt,
          verifyPrompt deal = Return prompt
          /\ remoteGenerateContent env (length (sent w)) (verifyRequest prompt) = inl e
          /\ JsString.eqb (message e) API_KEY_MISSING = false
  | DecodeFailure response =>
      credentialAvailable env w = true
      /\ exists prompt,
          verifyPrompt deal = Return prompt
          /\ remoteGenerateContent env (length (sent w)) (verifyRequest prompt)
             = inr response
          /\ truthy (parseJsonFromText (responseText response) false) = false
  end.

(** The own property [name] of an object, [None] for anything else. *)
Definition field (v : value) (name : str) : option value :=
  match v with
  | JObject props => obj_get name props
  | _ => None
  end.

Definition zero : value := JNumber (DZero false).

(** The value whose text seeds the placeholder image of an item: its
    title when that is truthy, the text deal-index otherwise. *)
Definition seedSource (deal : value) (index : nat) : value :=
  match getField deal (lit "title") with
  | Some (Some t) =>
      if truthy t then t else JString (lit "deal-" ++ ofNat index)
  | _ => JString (lit "deal-" ++ ofNat index)
  end.

(** The world after one request has gone out. *)
Definition afterRequest (w : World) (request : GenerateContentParameters) : World :=
  {| ai := ai w; sent := sent w ++ [request]; clockReads := clockReads w;
     randomDraws := randomDraws w |}.

(** The category of a deal is one of the known categories. *)
Definition categoryFromList (d : value) : Prop :=
  exists c, field d (lit "category") = Some (JString c) /\ In c DEAL_CATEGORIES.

End Spec.

Module Samples.

Local Open Scope N_scope.

Definition emptyWorld : World :=
  {| ai := None; sent := []; clockReads := 0; randomDraws := 0 |}.

Definition clock (n : nat) : N := 1700000000000 + N.of_nat n.

Definition half (n : nat) : double := of_decimal false 5 (-1).

Definition noResponse : GenerateContentResponse :=
  {| responseText := []; candidates := None |}.

(** No key configured. *)
Definition noKeyEnv : Env :=
  {| VITE_GEMINI_API_KEY := None;
     remoteGenerateContent := fun _ _ => inr noResponse;
     Date_now := clock; Math_random := half |}.

(** A key is configured and the model answers every request with the
    given text. *)
Definition answeringEnv (answer : str) : Env :=
  {| VITE_GEMINI_API_KEY := Some (lit "secret");
     remoteGenerateContent :=
       fun _ _ => inr {| responseText := answer; candidates := None |};
     Date_now := clock; Math_random := half |}.

(** A key is configured and every request is rejected. *)
Definition rejectingEnv (msg : str) : Env :=
  {| VITE_GEMINI_API_KEY := Some (lit "secret");
     remoteGenerateContent := fun _ _ => inl (Error msg);
     Date_now := clock; Math_random := half |}.

Definition noPreferences : UserPreferences :=
  {| categories := []; location := []; keywords := [] |}.

Definition sampleDeal : value :=
  JObject [ (lit "title", JString (lit "Desk lamp"));
            (lit "description", JString (lit "A lamp."));
            (lit "originalPrice", JString (lit "$40.00"));
            (lit "discountedPrice", JString (lit "$25.00"));
            (lit "merchant", JString (lit "LocalMart"));
            (lit "category", JString (lit "Home & Kitchen")) ].

(** The truncated array of the specification's example. *)
Definition truncatedAB : str := jq "[{'title':'A'},{'title':'B'".

Definition objA : value := JObject [ (lit "title", JString (lit "A")) ].
Definition objB : value := JObject [ (lit "title", JString (lit "B")) ].

(** An item that supplies its own image. *)
Definition itemWithImage : str :=
  jq "[{'title':'A','imageUrl':'https://cdn.example.com/a.png'}]".

(** The deal made of it at the clock reading 1700000000000. *)
Definition dealOfItemWithImage : value :=
  JObject [ (lit "title", JString (lit "A"));
            (lit "imageUrl", JString (lit "https://picsum.photos/seed/A/300/200"));
            (lit "id", JString (lit "1700000000000-0")) ].

(** The application before its first fetch. *)
Definition blankApp : App.AppState :=
  {| App.deals := []; App.isLoading := true; App.error := None;
     App.apiKeyMissing := false; App.groundingMetadata := None;
     App.selectedDealForVerification := None; App.verificationData := None;
     App.isVerifying := false |}.

Definition objC : value := JObject [ (lit "title", JString (lit "C")) ].

(** Two complete objects and a third one cut before its closing brace. *)
Definition truncatedABC : str := jq "[{'title':'A'},{'title':'B'},{'title':'C'".

(** One complete object, then malformed content that holds another one. *)
Definition closedAxB : str := jq "[{'title':'A'},x{'title':'B'}]".

End Samples.

(** ** Vocabulary of the proofs about the decoder *)

Unset Implicit Arguments.

(** *** The brace and quote tracker

    The three variables the array scan of [parseJsonFromText] keeps while
    it walks over a text, apart from its buffer: whether it is inside a
    string, the brace depth, and the number of backslashes just read. *)

Module Tracker.

Local Open Scope N_scope.

Record Track := { t_in : bool; t_depth : Z; t_run : nat }.

Definition tstep (t : Track) (c : char) : Track :=
  let ins :=
    if c =? 34 then
      if Nat.even (t_run t) then negb (t_in t) else t_in t
    else t_in t in
  let d :=
    if negb ins then
      if c =? 123 then (t_depth t + 1)%Z
      else if c =? 125 then (t_depth t - 1)%Z
      else t_depth t
    else t_depth t in
  {| t_in := ins; t_depth := d; t_run := if c =? 92 then S (t_run t) else O |}.

Arguments tstep : simpl never.

Fixpoint trun (t : Track) (s : str) : Track :=
  match s with
  | [] => t
  | c :: s' => trun (tstep t c) s'
  end.

(** The depth stays at [d] or above at every character of [s]. *)
Fixpoint above (d : Z) (t : Track) (s : str) : Prop :=
  match s with
  | [] => True
  | c :: s' => (d <= t_depth (tstep t c))%Z /\ above d (tstep t c) s'
  end.

Abbreviation outside d := {| t_in := false; t_depth := d; t_run := 0 |} (only parsing).

Abbreviation inside d r := {| t_in := true; t_depth := d; t_run := r |} (only parsing).

(** A text that, read outside a string, brings the tracker back to where
    it started without going below the starting depth. *)
Definition Quiet (pre : str) : Prop :=
  forall d, trun (outside d) pre = outside d /\ above d (outside d) pre.

(** Characters the tracker ignores outside a string. *)
Definition neutral (c : char) : bool :=
  negb (c =? 34) && negb (c =? 92) && negb (c =? 123) && negb (c =? 125).

End Tracker.

(** *** What [JSON.parse] accepts *)

Module Grammar.

Import Tracker.
Local Open Scope N_scope.

(** Characters a number is written with. *)
Definition numchar (c : char) : bool :=
  is_digit c || (c =? 45) || (c =? 43) || (c =? 46) || (c =? 101) || (c =? 69).

Definition head_is (p : char -> bool) (s : str) : bool :=
  match s with
  | [] => false
  | c :: _ => p c
  end.

(** What may follow a number without changing how it is read. *)
Definition num_cont (c : char) : bool :=
  is_digit c || (c =? 46) || (c =? 101) || (c =? 69).

Definition delim (r : str) : Prop := head_is num_cont r = false.

Definition is_e (c : char) : bool := (c =? 101) || (c =? 69).

Definition firstOk (pre : str) : Prop :=
  exists c0 rest0, pre = c0 :: rest0 /\ isWhiteSpace c0 = false /\ (c0 =? 96) = false.

Definition lastOk (pre : str) : Prop :=
  exists body z, pre = body ++ [z] /\ isWhiteSpace z = false.

Definition firstSolid (s : str) : Prop :=
  exists c0 rest0, s = c0 :: rest0 /\ isWhiteSpace c0 = false.

Definition starts_solid (s : str) : bool := head_is (fun c => negb (is_ws c)) s.

Definition opensObject (pre : str) : bool := head_is (fun c => c =? 123) pre.

(** What the parser guarantees about the text of a value it has read. *)
Definition ValueText (pre : str) (v : value) : Prop :=
  firstOk pre /\ lastOk pre /\ Quiet pre
  /\ (opensObject pre = true ->
      exists mid props, pre = 123 :: mid ++ [125] /\ Quiet mid /\ v = JObject props)
  /\ (forall props, v = JObject props -> opensObject pre = true)
  /\ (forall m r', (length pre <= m)%nat -> delim r' ->
                   parse_value m (pre ++ r') = Some (v, r')).

(** The same for the rest of an array after its opening bracket. *)
Definition ElementsText (pre : str) (vs : list value) : Prop :=
  Quiet pre /\ (exists body, pre = body ++ [93])
  /\ (forall m r', (length pre <= m)%nat ->
                   parse_elements m (pre ++ r') = Some (vs, r')).

(** And for the rest of an object after its opening brace. *)
Definition MembersText (pre : str) (ms : list (str * value)) : Prop :=
  (exists body, pre = body ++ [125] /\ Quiet body)
  /\ (forall m r', (length pre <= m)%nat ->
                   parse_members m (pre ++ r') = Some (ms, r')).

Definition SpecV (n : nat) : Prop :=
  forall s v rest, parse_value n s = Some (v, rest) ->
                   exists pre, s = pre ++ rest /\ ValueText pre v.

Definition SpecE (n : nat) : Prop :=
  forall s vs rest, parse_elements n s = Some (vs, rest) ->
                    exists pre, s = pre ++ rest /\ ElementsText pre vs.

Definition SpecM (n : nat) : Prop :=
  forall s ms rest, parse_members n s = Some (ms, rest) ->
                    exists pre, s = pre ++ rest /\ MembersText pre ms.

End Grammar.

(** *** The pieces of the fence expression, and a fenced text *)

Module Fence.

Import Regex.
Local Open Scope N_scope.

Definition class_loop (p : char -> bool) (total : nat) :=
  star_loop (rmatch (Class p) total) (clear_groups (Class p)).

Definition ticksEnd : regex := cat [Chr 96; Chr 96; Chr 96; Eol].

Definition spaceTicks : regex := Seq (Star true (Class isWhiteSpace)) ticksEnd.

Definition fenceTail : regex := Seq (Opt (Chr 10)) spaceTicks.

Definition fenceInner : regex := Seq (Group 2 (Star false (Class anyChar))) fenceTail.

Definition fenceBody : regex :=
  Seq (Star true (Class isWhiteSpace)) (Seq (Opt (Chr 10)) fenceInner).

Definition langTag : regex := Opt (Group 1 (Star true (Class isWord))).

(** The continuation that accepts. *)
Definition done : cont := fun s' caps' => Some (s', caps').

Definition ticks : str := [96; 96; 96].

(** A whole-string fenced code block: three backticks, a language tag of
    word characters (possibly empty), a newline, the text, a newline, three
    backticks. *)
Definition fence (lang t : str) : str :=
  ticks ++ lang ++ [10] ++ t ++ [10] ++ ticks.

End Fence.

(** *** The array scan as a fold, and texts that hold an object *)

Module Salvage.

Import Tracker.
Local Open Scope N_scope.

(** The number of backslashes just before the next character. *)
Definition nextRun (run : nat) (c : char) : nat := if c =? 92 then S run else O.

(** [scanLoop] over the characters that remain, with the run of
    backslashes carried along instead of counted by looking back. *)
Fixpoint sfold (run : nat) (s : str) (st : Scan) : Scan :=
  match s with
  | [] => st
  | c :: s' => sfold (nextRun run c) s' (scanChar c run st)
  end.

Definition runAfter (run : nat) (s : str) : nat := fold_left nextRun s run.

Definition track (st : Scan) (run : nat) : Track :=
  {| t_in := inString st; t_depth := depth st; t_run := run |}.

(** Characters that only go into the buffer when read outside a string. *)
Definition plain (c : char) : bool :=
  negb (c =? 34) && negb (c =? 123) && negb (c =? 125) && negb (c =? 44).

Definition isObject (v : value) : bool :=
  match v with JObject _ => true | _ => false end.

(** A text [JSON.parse] reads as an object. *)
Definition ObjectText (o : str) (v : value) : Prop :=
  JSON_parse o = Some v /\ isObject v = true.

(** No piece of [t] is the text of an object. *)
Definition NoObj (t : str) : Prop :=
  forall a seg b props, t = a ++ seg ++ b -> JSON_parse seg <> Some (JObject props).

Fixpoint prefixes (s : str) : list str :=
  [] :: match s with
        | [] => []
        | c :: s' => map (cons c) (prefixes s')
        end.

(** Every contiguous piece of a text. *)
Fixpoint infixes (s : str) : list str :=
  prefixes s ++ match s with
                | [] => []
                | _ :: s' => infixes s'
                end.

Definition parsesToObject (seg : str) : bool :=
  match JSON_parse seg with
  | Some v => isObject v
  | None => false
  end.

(** The decidable form of [NoObj]: no contiguous piece of [junk] parses
    to an object. *)
Definition noObjectInside (junk : str) : bool :=
  forallb (fun seg => negb (parsesToObject seg)) (infixes junk).

(** Two runs of the scan that differ only by white space at the front of
    the buffer, and by what was extracted before. *)
Definition alike (before : list value) (st1 st2 : Scan) : Prop :=
  depth st1 = depth st2 /\ inString st1 = inString st2
  /\ (exists b, Forall (fun c => is_ws c = true) b /\ buffer st1 = b ++ buffer st2)
  /\ extractedObjects st1 = before ++ extractedObjects st2.

End Salvage.

(** ** The chat of the service: [startChat] and [sendMessageToChat] *)

Module Chat.

Local Open Scope N_scope.

(** What [localAi.chats.create] is given: the model and the system
    instruction of the [config]. *)
Record ChatSession := {
  chatModel : str;
  systemInstruction : str
}.

(** The remote end of a chat: it answers the n-th message sent through
    the service with a response, or rejects it. *)
Record ChatEnv := {
  remoteSendMessage :
    nat -> ChatSession -> str -> JsError + GenerateContentResponse
}.

(** The module-level state: [ai] and the request history (the world of
    [generateDeals] and [verifyDeal]), [chatInstance], and the messages
    handed to [chatInstance.sendMessage]. *)
Record Service := {
  world : World;
  chatInstance : option ChatSession;
  chatSent : list (ChatSession * str)
}.

Definition SYSTEM_INSTRUCTION : str :=
  lit "You are a helpful assistant for finding deals and shopping advice.".

Definition CHAT_NOT_AVAILABLE : str :=
  lit "Chat not available. API Key might be missing.".

Definition CHAT_ERROR : str := lit "Error communicating with chat AI.".

(** [!apiKey] on the environment variable. *)
Definition keyMissing (env : Env) : bool :=
  match VITE_GEMINI_API_KEY env with
  | Some key => negb (nonEmpty key)
  | None => true
  end.

Definition startChat (env : Env) (s : Service) : Outcome unit * Service :=
  if keyMissing env then (Return tt, s)
  else
    match initializeAi env (world s) with
    | (Return localAi, w1) =>
        (Return tt,
         {| world := w1;
            chatInstance :=
              Some {| chatModel := GEMINI_MODEL_TEXT;
                      systemInstruction := SYSTEM_INSTRUCTION |};
            chatSent := chatSent s |})
    | (Throw e, w1) =>
        (Throw e,
         {| world := w1; chatInstance := chatInstance s; chatSent := chatSent s |})
    end.

(** The [try] block: [await chatInstance.sendMessage({ message })]. *)
Definition sendThrough (cenv : ChatEnv) (chat : ChatSession) (message : str)
           (s : Service) : Outcome str * Service :=
  let s' := {| world := world s; chatInstance := chatInstance s;
               chatSent := chatSent s ++ [(chat, message)] |} in
  match remoteSendMessage cenv (length (chatSent s)) chat message with
  | inr response => (Return (responseText response), s')
  | inl _ => (Return CHAT_ERROR, s')
  end.

Definition sendMessageToChat (env : Env) (cenv : ChatEnv) (message : str)
           (s : Service) : Outcome str * Service :=
  match chatInstance s with
  | Some chat => sendThrough cenv chat message s
  | None =>
      match startChat env s with
      | (Return _, s1) =>
          match chatInstance s1 with
          | None => (Return CHAT_NOT_AVAILABLE, s1)
          | Some chat => sendThrough cenv chat message s1
          end
      | (Throw e, s1) => (Throw e, s1)
      end
  end.

End Chat.

(** ** The category filter: [handleCategoryToggle] and [handleSubmit]
    of [SearchBarAndFilters] *)

Module Filters.

(** [prev.includes(category)] *)
Definition includes (l : list str) (category : str) : bool :=
  existsb (fun c => JsString.eqb c category) l.

Definition handleCategoryToggle (category : str) (prev : list str) : list str :=
  if includes prev category
  then filter (fun c => negb (JsString.eqb c category)) prev
  else prev ++ [category].

(** The state of the form that [handleSubmit] reads. *)
Record FormState := {
  keywords : str;
  selectedCategories : list str;
  location : str;
  useSearchGrounding : bool
}.

(** [handleSubmit(event?, searchGroundingOverride?)]: the arguments
    [onSearch] is called with. *)
Definition handleSubmit (form : FormState) (searchGroundingOverride : option bool)
  : UserPreferences * bool :=
  let isGroundingSearch :=
    match searchGroundingOverride with
    | Some b => b
    | None => useSearchGrounding form
    end in
  ({| GeminiService.categories := selectedCategories form;
      GeminiService.location := location form;
      GeminiService.keywords := keywords form |},
   isGroundingSearch).

End Filters.

(** ** Numbers with NaN, and the built-ins of the price computations

    [parseFloat], the arithmetic operators, the relational operators,
    [Math.round] and [toFixed] on Number values that may be NaN. *)

Module Numbers.

Local Open Scope Z_scope.

Inductive number :=
| NaN
| Num (d : double).

Definition isNaN (x : number) : bool :=
  match x with NaN => true | Num _ => false end.

Definition neg (d : double) : double :=
  match d with
  | DZero s => DZero (negb s)
  | DInf s => DInf (negb s)
  | DNum s m e => DNum (negb s) m e
  end.

Definition expo (d : double) : Z :=
  match d with DNum _ _ e => e | _ => 0 end.

(** The value of a finite double in units of 2^e0, for e0 at most its
    exponent. *)
Definition scaled (d : double) (e0 : Z) : Z :=
  match d with
  | DNum s m e => (if s then - m else m) * 2 ^ (e - e0)
  | _ => 0
  end.

(** The order of two doubles by value: the two zeros are equal. *)
Definition compare (x y : double) : comparison :=
  match x, y with
  | DInf a, DInf b => if Bool.eqb a b then Eq else if a then Lt else Gt
  | DInf a, _ => if a then Lt else Gt
  | _, DInf b => if b then Gt else Lt
  | _, _ =>
      let e0 := Z.min (expo x) (expo y) in
      Z.compare (scaled x e0) (scaled y e0)
  end.

(** [x <= y] and [x >= y]: false when an operand is NaN. *)
Definition le (x y : number) : bool :=
  match x, y with
  | Num a, Num b => match compare a b with Gt => false | _ => true end
  | _, _ => false
  end.

Definition ge (x y : number) : bool :=
  match x, y with
  | Num a, Num b => match compare a b with Lt => false | _ => true end
  | _, _ => false
  end.

Definition gt (x y : number) : bool :=
  match x, y with
  | Num a, Num b => match compare a b with Gt => true | _ => false end
  | _, _ => false
  end.

(** [x + y] *)
Definition add (x y : number) : number :=
  match x, y with
  | Num (DInf a), Num (DInf b) => if Bool.eqb a b then Num (DInf a) else NaN
  | Num a, Num b => Num (Double.add a b)
  | _, _ => NaN
  end.

(** [x - y] *)
Definition sub (x y : number) : number :=
  match y with
  | Num b => add x (Num (neg b))
  | NaN => NaN
  end.

(** [x * y] *)
Definition mul (x y : number) : number :=
  match x, y with
  | Num (DZero _), Num (DInf _) | Num (DInf _), Num (DZero _) => NaN
  | Num a, Num b => Num (Double.mul a b)
  | _, _ => NaN
  end.

(** [x / y] *)
Definition div (x y : number) : number :=
  match x, y with
  | Num a, Num b =>
      let s := xorb (Double.sign a) (Double.sign b) in
      match a, b with
      | DZero _, DZero _ | DInf _, DInf _ => NaN
      | DZero _, _ | _, DInf _ => Num (DZero s)
      | _, DZero _ | DInf _, _ => Num (DInf s)
      | DNum _ m1 e1, DNum _ m2 e2 =>
          let e := Z.min e1 e2 in
          Num (of_ratio s (m1 * 2 ^ (e1 - e)) (m2 * 2 ^ (e2 - e)))
      end
  | _, _ => NaN
  end.

(** [Math.round]: the closest integer, the larger one on a tie; a
    result of zero keeps the sign of the argument. *)
Definition round (x : number) : number :=
  match x with
  | Num (DNum s m e) =>
      if 0 <=? e then x
      else
        let q := 2 ^ (- e) in
        let n := if s then (q - 2 * m) / (2 * q) else (2 * m + q) / (2 * q) in
        if n =? 0 then Num (DZero s) else Num (of_Z n)
  | _ => x
  end.

(** [x.toFixed(f)] *)
Definition toFixed (x : number) (f : nat) : str :=
  match x with
  | NaN => lit "NaN"
  | Num d => Double.toFixed d f
  end.

Local Open Scope N_scope.

(** [s.replace(c, '')] for a one-character pattern: the first occurrence
    is removed. *)
Fixpoint removeFirst (c : char) (s : str) : str :=
  match s with
  | [] => []
  | x :: r => if x =? c then r else x :: removeFirst c r
  end.

Definition isExponentMark (c : char) : bool := (c =? 101) || (c =? 69).

(** The exponent part of a decimal literal, if one is there: the mark,
    an optional sign, and at least one digit. *)
Definition exponentPart (s : str) : Z :=
  match s with
  | c :: r =>
      if isExponentMark c then
        let '(negative, r') :=
          match r with
          | 45 :: r' => (true, r')
          | 43 :: r' => (false, r')
          | _ => (false, r)
          end in
        let '(ed, _) := span_digits r' in
        match ed with
        | [] => 0%Z
        | _ :: _ => if negative then (- digits_Z ed)%Z else digits_Z ed
        end
      else 0%Z
  | [] => 0%Z
  end.

(** The optional sign of a decimal literal. *)
Definition signPart (t : str) : bool * str :=
  match t with
  | c :: r =>
      if c =? 45 then (true, r)
      else if c =? 43 then (false, r)
      else (false, t)
  | [] => (false, t)
  end.

(** The digits after the point, if a point follows the integer digits
    [ip]: a point with no digit on either side is no part of a
    literal. *)
Definition fractionPart (ip r1 : str) : str * str :=
  match r1 with
  | c :: r1' =>
      if c =? 46 then
        let '(fd, r') := span_digits r1' in
        match ip, fd with
        | [], [] => ([], r1)
        | _, _ => (fd, r')
        end
      else ([], r1)
  | [] => ([], r1)
  end.

(** [parseFloat] of a string: leading white space is skipped, and the
    longest prefix that is a decimal literal is read; without one the
    result is NaN. *)
Definition parseFloat (s : str) : number :=
  let '(negative, r) := signPart (trimStart s) in
  if startsWith r (lit "Infinity") then Num (DInf negative)
  else
    let '(ip, r1) := span_digits r in
    let '(fp, r2) := fractionPart ip r1 in
    match ip ++ fp with
    | [] => NaN
    | ds =>
        Num (of_decimal negative (digits_Z ds)
               (exponentPart r2 - Z.of_nat (length fp)))
    end.

(** [parseFloat(undefined)]: the text is [undefined], not a number. *)
Definition parseFloatOpt (s : option str) : number :=
  match s with
  | Some t => parseFloat t
  | None => NaN
  end.

(** [v?.replace('$', '')] for a value or [undefined]: null and undefined
    short-circuit to undefined, a string has the method, nothing else
    has. *)
Definition withoutDollar (v : option value) : Outcome (option str) :=
  match v with
  | None | Some JNull => Return None
  | Some (JString s) => Return (Some (removeFirst 36 s))
  | Some _ => Throw (TypeError (lit "replace is not a function"))
  end.

End Numbers.

(** ** The mock price history: [generateMockPriceHistory] *)

Module PriceHistory.

Import Numbers.

Record PriceDataPoint := {
  date : str;
  price : number
}.

(** The calendar of the host. For the time value [today] and a number
    of weeks [i], the text of
    [date.toISOString().split('T')[0]] after
    [date.setDate(today.getDate() - i * 7)], which depends on the local
    time zone; [toISOString] raises a RangeError on a date out of
    range. *)
Record Calendar := {
  weeksBefore : N -> nat -> JsError + str
}.

Definition threeTenths : double := of_decimal false 3 (-1).
Definition twoTenths : double := of_decimal false 2 (-1).

(** The iterations [i], [i - 1], ..., [0] of the loop, for [count] equal
    to [i + 1]. *)
Fixpoint historyLoop (env : Env) (cal : Calendar) (basePrice : number) (today : N)
         (count : nat) (history : list PriceDataPoint)
  : M (list PriceDataPoint) :=
  match count with
  | O => ret history
  | S i =>
      random <- mathRandom env ;;
      let priceFluctuation :=
        mul (sub (Num random) (Num threeTenths))
            (mul basePrice (Num twoTenths)) in
      let price0 := add basePrice priceFluctuation in
      let price1 := if Nat.eqb i 0 then basePrice else price0 in
      match weeksBefore cal today i with
      | inl e => throw e
      | inr day =>
          historyLoop env cal basePrice today i
            (history ++ [ {| date := day;
                              price := parseFloat (toFixed price1 2) |} ])
      end
  end.

Definition generateMockPriceHistory (env : Env) (cal : Calendar)
           (basePriceStr : option value) : M (list PriceDataPoint) :=
  text <- lift (withoutDollar basePriceStr) ;;
  let basePrice := parseFloatOpt text in
  if isNaN basePrice then ret []
  else
    today <- dateNow env ;;
    historyLoop env cal basePrice today 7 [].

End PriceHistory.

(** ** The deal card and the score display *)

Module Display.

Import Numbers.

Definition zero : double := DZero false.
Definition hundred : double := of_Z 100.

(** [deal.name?.replace('$', '')] read as a number. *)
Definition priceOf (deal : value) (name : str) : Outcome number :=
  field <~ orTypeError (getField deal name)
             (lit "Cannot read properties of null") ;;
  text <~ withoutDollar field ;;
  Return (parseFloatOpt text).

(** [discountPercentage()] of [DealCard]: [None] is null. *)
Definition discountPercentage (deal : value) : Outcome (option number) :=
  original <~ priceOf deal (lit "originalPrice") ;;
  discounted <~ priceOf deal (lit "discountedPrice") ;;
  if isNaN original || isNaN discounted || le original (Num zero)
     || ge discounted original
  then Return None
  else Return (Some (round (mul (div (sub original discounted) original)
                                (Num hundred)))).

(** [ToBoolean] of a number: the badge [currentDiscount && ...] shows
    for a truthy percentage. *)
Definition truthyNumber (x : number) : bool :=
  match x with
  | NaN => false
  | Num d => Double.truthy d
  end.

Definition four : double := of_Z 4.
Definition three : double := of_Z 3.
Definition two : double := of_Z 2.

(** [ScoreDisplay] of the verification modal. *)
Definition scoreColor (score : number) : str :=
  if ge score (Num four) then lit "text-green-500"
  else if ge score (Num two) then lit "text-yellow-500"
  else lit "text-red-500".

Definition scoreText (score : number) : str :=
  if ge score (Num four) then lit "Excellent"
  else if ge score (Num three) then lit "Good"
  else if ge score (Num two) then lit "Fair"
  else lit "Poor/Risky".

End Display.

(** ** Shapes of texts and of matches, for the facts about the decoder *)

Module Loose.

Import Regex Spec Samples Tracker Grammar Fence Salvage.
Local Open Scope N_scope.

(** [v] is an object, and the strict parse of a contiguous piece of [t]. *)
Definition ObjectOf (t : str) (v : value) : Prop :=
  isObject v = true
  /\ exists a seg b, t = a ++ seg ++ b /\ JSON_parse seg = Some v.

(** A bracketed stretch: the opening character, any characters as many
    as possible, the closing character. *)
Definition bracketed (opening closing : char) : regex :=
  cat [Chr opening; Star true (Class anyChar); Chr closing].

(** The continuation after the star: the closing character, then [k]. *)
Definition closeThen (closing : char) (k : cont) : cont :=
  fun s caps =>
    match s with
    | x :: s' => if x =? closing then k s' caps else None
    | [] => None
    end.

Definition noOpening (c : char) : Prop := c <> 91 /\ c <> 123.

Definition proseChar (c : char) : Prop := c <> 91 /\ c <> 123 /\ c <> 96.

End Loose.

(** ** Worlds and deals, for the facts about [generateDeals] *)

Module Deals.

Import Spec Samples.
Local Open Scope N_scope.

Definition tick (w : World) : World :=
  {| ai := ai w; sent := sent w; clockReads := S (clockReads w);
     randomDraws := randomDraws w |}.

Definition dealId (env : Env) (reads index : nat) : str :=
  ofN (Date_now env reads) ++ lit "-" ++ ofNat index.

Definition builtDeal (env : Env) (deal : value) (reads index : nat) (seed : str)
  : value :=
  JObject
    (obj_set (lit "imageUrl") (JString (picsumUrl seed))
       (obj_set (lit "id") (JString (dealId env reads index))
          (mk_object (spreadProps deal)))).

Definition notKeyError (e : JsError) : Prop :=
  JsString.eqb (message e) API_KEY_MISSING = false.

Definition sentWorld (reads : nat) : World :=
  {| ai := Some {| apiKey := lit "secret" |};
     sent := [dealsRequest noPreferences false];
     clockReads := reads; randomDraws := 0 |}.

Definition oneDeal : GenerateDealsResult :=
  {| deals := [dealOfItemWithImage]; groundingMetadata := None |}.

(** An item that cannot be turned into a deal. *)
Definition unusable (item : value) : Prop :=
  item = JNull
  \/ exists props t,
       item = JObject props
       /\ obj_get (lit "title") props = Some (JString t)
       /\ t <> [] /\ encodeURIComponent t = None.

End Deals.

(** ** A service before its first message, and a chat that is offline *)

Module ChatSamples.

Import Spec Samples Chat Filters.

Definition freshService : Service :=
  {| world := emptyWorld; chatInstance := None; chatSent := [] |}.

Definition silentChat : ChatEnv :=
  {| remoteSendMessage := fun _ _ _ => inl (Error (lit "offline")) |}.

End ChatSamples.

(** ** Prices and worlds, for the facts about the price history and the discount *)

Module Prices.

Import Spec Samples Numbers PriceHistory Display.

Definition drawn (w : World) (n : nat) : World :=
  {| ai := ai w; sent := sent w; clockReads := clockReads w;
     randomDraws := (randomDraws w + n)%nat |}.

(** The price of the point [i] weeks back, from the random number drawn
    for it. *)
Definition pointPrice (basePrice : number) (random : double) (i : nat) : number :=
  parseFloat
    (toFixed
       (if Nat.eqb i 0 then basePrice
        else add basePrice
               (mul (sub (Num random) (Num threeTenths))
                    (mul basePrice (Num twoTenths))))
       2).

(** A calendar that names each day by the number of weeks back. *)
Definition weekNumbers : Calendar :=
  {| weeksBefore := fun _ i => inr (ofNat i) |}.

Local Open Scope Z_scope.

(** A finite non-zero double has a positive significand. *)
Definition positiveSignificand (d : double) : Prop :=
  match d with DNum _ m _ => 0 < m | _ => True end.

Definition pricedDeal (original discounted : string) : value :=
  JObject [ (lit "originalPrice", JString (lit original));
            (lit "discountedPrice", JString (lit discounted)) ].

Local Open Scope N_scope.



(** A value that is there and is neither null nor a string. *)
Definition noText (v : value) : bool :=
  match v with
  | JNull | JString _ => false
  | _ => true
  end.

End Prices.

(* ================================================================== *)
(** * Part II. Properties                                              *)
(* ================================================================== *)

Import Spec Samples.

Arguments lit : simpl never.
Arguments jq : simpl never.

(** ** Strings and objects *)

Lemma str_eqb_refl (a : str) : JsString.eqb a a = true.
Proof.
  induction a as [|x a IH]; simpl; [reflexivity|].
  now rewrite N.eqb_refl, IH.
Qed.

Lemma str_eqb_eq (a b : str) : JsString.eqb a b = true <-> a = b.
Proof.
  split.
  - revert b. induction a as [|x a IH]; intros [|y b]; simpl; try discriminate; auto.
    intros H. apply andb_true_iff in H as [Hx Hr].
    apply N.eqb_eq in Hx. subst. f_equal. auto.
  - intros ->. apply str_eqb_refl.
Qed.

Lemma obj_get_replace (k : str) (v : value) (o : list (str * value)) :
  obj_get k o <> None -> obj_get k (obj_replace k v o) = Some v.
Proof.
  induction o as [|[k' v'] o IH]; simpl; [congruence|].
  destruct (JsString.eqb k' k) eqn:E; simpl; rewrite E; auto.
Qed.

Lemma obj_get_insert_index (i : N) (k : str) (v : value) (o : list (str * value)) :
  obj_get k o = None -> obj_get k (obj_insert_index i k v o) = Some v.
Proof.
  induction o as [|[k' v'] o IH]; simpl.
  - now rewrite str_eqb_refl.
  - destruct (JsString.eqb k' k) eqn:E; [discriminate|]. intros H.
    destruct (array_index k') as [j|].
    + destruct (N.ltb j i); simpl; [rewrite E; auto | now rewrite str_eqb_refl].
    + simpl. now rewrite str_eqb_refl.
Qed.

Lemma obj_get_app_new (k : str) (v : value) (o : list (str * value)) :
  obj_get k o = None -> obj_get k (o ++ [(k, v)]) = Some v.
Proof.
  induction o as [|[k' v'] o IH]; simpl.
  - now rewrite str_eqb_refl.
  - destruct (JsString.eqb k' k); [discriminate | auto].
Qed.

(** Reading back the property just written. *)
Lemma obj_get_set (k : str) (v : value) (o : list (str * value)) :
  obj_get k (obj_set k v o) = Some v.
Proof.
  unfold obj_set. destruct (obj_get k o) eqn:E.
  - apply obj_get_replace. congruence.
  - destruct (array_index k).
    + now apply obj_get_insert_index.
    + now apply obj_get_app_new.
Qed.

(** ** The credential gate *)

Lemma initializeAi_absent (env : Env) (w : World) :
  credentialAvailable env w = false ->
  initializeAi env w = (Throw (Error API_KEY_MISSING), w).
Proof.
  unfold credentialAvailable, initializeAi.
  destruct (ai w); [discriminate|].
  destruct (VITE_GEMINI_API_KEY env) as [key|]; [|reflexivity].
  intros ->. reflexivity.
Qed.

Lemma initializeAi_available (env : Env) (w : World) :
  credentialAvailable env w = true ->
  exists client w1,
    initializeAi env w = (Return client, w1)
    /\ sent w1 = sent w /\ clockReads w1 = clockReads w
    /\ randomDraws w1 = randomDraws w.
Proof.
  unfold credentialAvailable, initializeAi.
  destruct (ai w) as [c|].
  - intros _. now exists c, w.
  - destruct (VITE_GEMINI_API_KEY env) as [key|]; [|discriminate].
    intros ->. eexists _, _. split; [reflexivity|]. now simpl.
Qed.

(** ** verifyDeal *)

Lemma verifyDeal_rejected (env : Env) (deal : value) (w : World)
      (prompt : str) (e : JsError) :
  credentialAvailable env w = true ->
  verifyPrompt deal = Return prompt ->
  remoteGenerateContent env (length (sent w)) (verifyRequest prompt) = inl e ->
  exists w',
    verifyDeal env deal w
    = (if JsString.eqb (message e) API_KEY_MISSING
       then Throw e else Return (verification CONNECT_FAILED), w')
    /\ sent w' = sent w ++ [verifyRequest prompt].
Proof.
  intros Hav Hp Hr.
  destruct (initializeAi_available env w Hav) as (c & w1 & Hi & Hs & _).
  unfold verifyDeal, tryCatch, bind, lift, generateContent.
  rewrite Hi, Hp; cbv beta iota; rewrite Hs, Hr.
  destruct (JsString.eqb (message e) API_KEY_MISSING);
    eexists; (split; [reflexivity|]); reflexivity.
Qed.

Lemma verifyDeal_answered (env : Env) (deal : value) (w : World)
      (prompt : str) (response : GenerateContentResponse) :
  credentialAvailable env w = true ->
  verifyPrompt deal = Return prompt ->
  remoteGenerateContent env (length (sent w)) (verifyRequest prompt) = inr response ->
  exists w',
    verifyDeal env deal w
    = (Return (let v := parseJsonFromText (responseText response) false in
               if truthy v then v else verification FORMAT_ERROR), w')
    /\ sent w' = sent w ++ [verifyRequest prompt].
Proof.
  intros Hav Hp Hr.
  destruct (initializeAi_available env w Hav) as (c & w1 & Hi & Hs & _).
  unfold verifyDeal, tryCatch, bind, lift, generateContent.
  rewrite Hi, Hp; cbv beta iota; rewrite Hs, Hr. cbv beta iota zeta.
  destruct (truthy (parseJsonFromText (responseText response) false));
    eexists; (split; [reflexivity|]); reflexivity.
Qed.

(** C1, as the code has it. For every deal and every failure kind:
    with the credential missing, [verifyDeal] raises the error
    [API_KEY_MISSING] to its caller and leaves the world as it was (no
    request is sent); an oracle error and a decode failure are absorbed
    into a verification whose [score] is exactly 0. *)
Theorem C1_verifyDeal_failure_paths
        (env : Env) (deal : value) (w : World) (f : Failure) :
  happens env deal w f ->
  match f with
  | MissingCredentials =>
      verifyDeal env deal w = (Throw (Error API_KEY_MISSING), w)
  | OracleFailure _ =>
      exists w', verifyDeal env deal w = (Return (verification CONNECT_FAILED), w')
                 /\ field (verification CONNECT_FAILED) (lit "score") = Some zero
  | DecodeFailure _ =>
      exists w', verifyDeal env deal w = (Return (verification FORMAT_ERROR), w')
                 /\ field (verification FORMAT_ERROR) (lit "score") = Some zero
  end.
Proof.
  destruct f as [|e|response]; simpl.
  - intros Habs. unfold verifyDeal, tryCatch, bind.
    rewrite (initializeAi_absent env w Habs). reflexivity.
  - intros (Hav & prompt & Hp & Hr & Hm).
    destruct (verifyDeal_rejected env deal w _ _ Hav Hp Hr) as (w' & Hv & _).
    rewrite Hm in Hv. exists w'. split; [exact Hv | reflexivity].
  - intros (Hav & prompt & Hp & Hr & Ht).
    destruct (verifyDeal_answered env deal w _ _ Hav Hp Hr) as (w' & Hv & _).
    cbv zeta in Hv. rewrite Ht in Hv. exists w'. split; [exact Hv | reflexivity].
Qed.

(** The three failure kinds of C1 at concrete inputs. *)
Lemma C1_witness :
  verifyDeal noKeyEnv sampleDeal emptyWorld
  = (Throw (Error API_KEY_MISSING), emptyWorld)
  /\ (exists w', verifyDeal (rejectingEnv (lit "503 Service Unavailable"))
                            sampleDeal emptyWorld
                 = (Return (verification CONNECT_FAILED), w')
                 /\ field (verification CONNECT_FAILED) (lit "score") = Some zero)
  /\ (exists w', verifyDeal (answeringEnv (lit "I cannot help with that."))
                            sampleDeal emptyWorld
                 = (Return (verification FORMAT_ERROR), w')
                 /\ field (verification FORMAT_ERROR) (lit "score") = Some zero).
Proof.
  split; [|split].
  - apply (C1_verifyDeal_failure_paths noKeyEnv sampleDeal emptyWorld
             MissingCredentials).
    reflexivity.
  - apply (C1_verifyDeal_failure_paths (rejectingEnv (lit "503 Service Unavailable"))
             sampleDeal emptyWorld
             (OracleFailure (Error (lit "503 Service Unavailable")))).
    split; [reflexivity|]. eexists. split; [vm_compute; reflexivity|].
    split; reflexivity.
  - apply (C1_verifyDeal_failure_paths (answeringEnv (lit "I cannot help with that."))
             sampleDeal emptyWorld
             (DecodeFailure {| responseText := lit "I cannot help with that.";
                               candidates := None |})).
    split; [reflexivity|]. eexists. split; [vm_compute; reflexivity|].
    split; [reflexivity | vm_compute; reflexivity].
Defined.

(** C1 as stated fails: with no credential, [verifyDeal] does not return
    a score-0 verification, it throws. *)
Lemma C1_counterexample :
  credentialAvailable noKeyEnv emptyWorld = false
  /\ verifyDeal noKeyEnv sampleDeal emptyWorld
     = (Throw (Error API_KEY_MISSING), emptyWorld).
Proof. split; reflexivity. Qed.

(** C10, as the code has it. Whenever the decoder returns a truthy value
    for the verification response (every object and every array is one),
    [verifyDeal] returns that value itself, whatever its shape. *)
Theorem C10_verifyDeal_passes_truthy_through
        (env : Env) (deal : value) (w : World) (prompt : str)
        (response : GenerateContentResponse) :
  credentialAvailable env w = true ->
  verifyPrompt deal = Return prompt ->
  remoteGenerateContent env (length (sent w)) (verifyRequest prompt) = inr response ->
  truthy (parseJsonFromText (responseText response) false) = true ->
  exists w',
    verifyDeal env deal w
    = (Return (parseJsonFromText (responseText response) false), w').
Proof.
  intros Hav Hp Hr Ht.
  destruct (verifyDeal_answered env deal w _ _ Hav Hp Hr) as (w' & Hv & _).
  cbv zeta in Hv. rewrite Ht in Hv. now exists w'.
Qed.

(** An answer with neither [summary] nor a numeric [score] goes through. *)
Lemma C10_witness :
  exists w',
    verifyDeal (answeringEnv (jq "{'score':'high','note':[1,2]}"))
               sampleDeal emptyWorld
    = (Return (parseJsonFromText (jq "{'score':'high','note':[1,2]}") false), w').
Proof.
  eapply (C10_verifyDeal_passes_truthy_through
            (answeringEnv (jq "{'score':'high','note':[1,2]}"))
            sampleDeal emptyWorld _
            {| responseText := jq "{'score':'high','note':[1,2]}";
               candidates := None |}).
  - reflexivity.
  - vm_compute; reflexivity.
  - reflexivity.
  - vm_compute; reflexivity.
Defined.

(** C10 as stated fails: the decoded value [false] is not null, and
    [verifyDeal] replaces it by the format-error verification. *)
Lemma C10_counterexample :
  parseJsonFromText (lit "false") false = JBool false
  /\ fst (verifyDeal (answeringEnv (lit "false")) sampleDeal emptyWorld)
     = Return (verification FORMAT_ERROR)
  /\ verification FORMAT_ERROR <> JBool false.
Proof.
  split; [vm_compute; reflexivity|].
  split; [vm_compute; reflexivity | discriminate].
Qed.

(** ** generateDeals *)

Lemma generateDeals_absent (env : Env) (prefs : UserPreferences) (g : bool)
      (w : World) :
  credentialAvailable env w = false ->
  generateDeals env prefs g w = (Throw (Error API_KEY_MISSING), w).
Proof.
  intros Habs. unfold generateDeals, tryCatch, bind.
  rewrite (initializeAi_absent env w Habs). cbv beta iota.
  change (message (Error API_KEY_MISSING)) with API_KEY_MISSING.
  now rewrite str_eqb_refl.
Qed.

Lemma dealWithId_sent (env : Env) (deal : value) (index : nat) (w : World) :
  sent (snd (dealWithId env deal index w)) = sent w.
Proof.
  unfold dealWithId, bind, dateNow, lift, ret, throw.
  destruct (orTypeError (getField deal (lit "title")) _); [|reflexivity].
  destruct (orTypeError (ToString _) _); [|reflexivity].
  destruct (encodeURIComponent _); reflexivity.
Qed.

Lemma mapDeals_sent (env : Env) (items : list value) :
  forall (index : nat) (w : World),
    sent (snd (mapDeals env items index w)) = sent w.
Proof.
  induction items as [|deal rest IH]; intros index w; [reflexivity|].
  cbn [mapDeals]. unfold bind at 1.
  pose proof (dealWithId_sent env deal index w) as Hd.
  destruct (dealWithId env deal index w) as [[d|e] w1]; simpl in Hd; [|exact Hd].
  unfold bind at 1. specialize (IH (S index) w1).
  destruct (mapDeals env rest (S index) w1) as [[ds|e] w2]; simpl in IH;
    simpl; congruence.
Qed.

Lemma dealsWithIds_sent (env : Env) (parsed : value) (w : World) :
  sent (snd (dealsWithIds env parsed w)) = sent w.
Proof.
  unfold dealsWithIds. destruct (truthy parsed); [|reflexivity].
  destruct parsed; try reflexivity. apply mapDeals_sent.
Qed.

(** With the gate open, [generateDeals] sends exactly one request, the
    one [dealsRequest] builds, whatever happens afterwards. *)
Lemma generateDeals_sends (env : Env) (prefs : UserPreferences) (g : bool)
      (w : World) :
  credentialAvailable env w = true ->
  sent (snd (generateDeals env prefs g w)) = sent w ++ [dealsRequest prefs g].
Proof.
  intros Hav.
  destruct (initializeAi_available env w Hav) as (c & w1 & Hi & Hs & _).
  unfold generateDeals, tryCatch, bind, generateContent.
  rewrite Hi; cbv beta iota; rewrite Hs.
  destruct (remoteGenerateContent env (length (sent w)) (dealsRequest prefs g))
    as [e|response].
  - destruct (JsString.eqb (message e) API_KEY_MISSING); reflexivity.
  - match goal with
    | |- context [dealsWithIds env ?p ?w0] =>
        pose proof (dealsWithIds_sent env p w0) as Hd;
        destruct (dealsWithIds env p w0) as [[ds|e] w2]
    end; simpl in Hd.
    + simpl. exact Hd.
    + destruct (JsString.eqb (message e) API_KEY_MISSING); simpl; exact Hd.
Qed.

Lemma generateDeals_rejected (env : Env) (prefs : UserPreferences) (g : bool)
      (w : World) (e : JsError) :
  credentialAvailable env w = true ->
  remoteGenerateContent env (length (sent w)) (dealsRequest prefs g) = inl e ->
  fst (generateDeals env prefs g w)
  = if JsString.eqb (message e) API_KEY_MISSING
    then Throw e else Throw (Error GENERATE_FAILED).
Proof.
  intros Hav Hr.
  destruct (initializeAi_available env w Hav) as (c & w1 & Hi & Hs & _).
  unfold generateDeals, tryCatch, bind, generateContent.
  rewrite Hi; cbv beta iota; rewrite Hs, Hr.
  destruct (JsString.eqb (message e) API_KEY_MISSING); reflexivity.
Qed.

(** C3, as the code has it. Every oracle failure during [generateDeals]
    that is not named [API_KEY_MISSING] reaches the caller as one and the
    same error, whose message is the fixed text [GENERATE_FAILED]: the
    message of the underlying error is not part of it. *)
Theorem C3_generateDeals_oracle_error_is_generic
        (env : Env) (prefs : UserPreferences) (g : bool) (w : World)
        (e : JsError) :
  credentialAvailable env w = true ->
  remoteGenerateContent env (length (sent w)) (dealsRequest prefs g) = inl e ->
  JsString.eqb (message e) API_KEY_MISSING = false ->
  fst (generateDeals env prefs g w) = Throw (Error GENERATE_FAILED).
Proof.
  intros Hav Hr Hm. rewrite (generateDeals_rejected env prefs g w _ Hav Hr).
  now rewrite Hm.
Qed.

Lemma C3_witness :
  fst (generateDeals (rejectingEnv (lit "429 quota exceeded")) noPreferences
                     false emptyWorld)
  = Throw (Error GENERATE_FAILED).
Proof.
  apply (C3_generateDeals_oracle_error_is_generic
           (rejectingEnv (lit "429 quota exceeded")) noPreferences false
           emptyWorld (Error (lit "429 quota exceeded")));
    reflexivity.
Defined.

(** C3 as stated fails: the oracle rejects with the message
    [429 quota exceeded], and the error the caller gets carries another
    message. *)
Lemma C3_counterexample :
  remoteGenerateContent (rejectingEnv (lit "429 quota exceeded")) 0
    (dealsRequest noPreferences false)
  = inl (Error (lit "429 quota exceeded"))
  /\ fst (generateDeals (rejectingEnv (lit "429 quota exceeded")) noPreferences
                        false emptyWorld)
     = Throw (Error (lit "Failed to generate deals from AI."))
  /\ JsString.eqb (lit "Failed to generate deals from AI.")
                  (lit "429 quota exceeded") = false.
Proof. repeat split; vm_compute; reflexivity. Qed.

(** C9. For every preferences value and every value of the grounding
    flag, the one request [generateDeals] sends never carries both the
    JSON response hint and the search tool: with grounding the hint is
    absent and the tool attached, without it the hint is present and no
    tool is attached. *)
Theorem C9_request_hint_and_search_exclusive
        (env : Env) (prefs : UserPreferences) (g : bool) (w : World) :
  credentialAvailable env w = true ->
  let request := dealsRequest prefs g in
  sent (snd (generateDeals env prefs g w)) = sent w ++ [request]
  /\ responseMimeType (config request)
     = (if g then None else Some (lit "application/json"))
  /\ tools (config request) = (if g then Some [GoogleSearch] else None)
  /\ (responseMimeType (config request) = None
      \/ tools (config request) = None).
Proof.
  intros Hav request. split; [now apply generateDeals_sends|].
  unfold request, dealsRequest. destruct g; simpl; auto.
Qed.

Lemma C9_witness :
  let request := dealsRequest noPreferences true in
  sent (snd (generateDeals (answeringEnv (lit "[]")) noPreferences true emptyWorld))
  = sent emptyWorld ++ [request]
  /\ responseMimeType (config request) = None
  /\ tools (config request) = Some [GoogleSearch]
  /\ (responseMimeType (config request) = None
      \/ tools (config request) = None).
Proof.
  apply (C9_request_hint_and_search_exclusive (answeringEnv (lit "[]"))
           noPreferences true emptyWorld).
  reflexivity.
Defined.

(** ** The image reference of a returned deal *)

Lemma dealWithId_imageUrl (env : Env) (deal : value) (index : nat)
      (w w' : World) (d : value) :
  dealWithId env deal index w = (Return d, w') ->
  exists text seed,
    ToString (seedSource deal index) = Some text
    /\ encodeURIComponent text = Some seed
    /\ field d (lit "imageUrl") = Some (JString (picsumUrl seed)).
Proof.
  unfold dealWithId, bind, dateNow, lift, ret, throw, seedSource.
  destruct (getField deal (lit "title")) as [titleField|]; simpl;
    [|discriminate].
  match goal with
  | |- context [ToString ?v] =>
      assert (Hsrc : v = match titleField with
                         | Some t => if truthy t then t
                                     else JString (lit "deal-" ++ ofNat index)
                         | None => JString (lit "deal-" ++ ofNat index)
                         end) by reflexivity;
      destruct (ToString v) as [text|] eqn:Htext
  end; simpl; [|discriminate].
  destruct (encodeURIComponent text) as [seed|] eqn:Hseed; [|discriminate].
  intros H. injection H as <- _.
  exists text, seed. split; [|split; [exact Hseed|]].
  - destruct titleField; first [exact Htext | reflexivity].
  - simpl. apply obj_get_set.
Qed.

Lemma mapDeals_imageUrl (env : Env) (items : list value) :
  forall (k : nat) (w w' : World) (ds : list value),
    mapDeals env items k w = (Return ds, w') ->
    forall (i : nat) (d : value),
      nth_error ds i = Some d ->
      exists item text seed,
        nth_error items i = Some item
        /\ ToString (seedSource item (k + i)) = Some text
        /\ encodeURIComponent text = Some seed
        /\ field d (lit "imageUrl") = Some (JString (picsumUrl seed)).
Proof.
  induction items as [|deal rest IH]; intros k w w' ds.
  - simpl. unfold ret. intros H. injection H as <- _.
    intros [|i] d; discriminate.
  - cbn [mapDeals]. unfold bind at 1.
    destruct (dealWithId env deal k w) as [[d0|e] w1] eqn:Hd; [|discriminate].
    unfold bind at 1.
    destruct (mapDeals env rest (S k) w1) as [[ds0|e] w2] eqn:Hm; [|discriminate].
    unfold ret. intros H. injection H as <- _.
    intros [|i] d; simpl.
    + intros H. injection H as <-.
      destruct (dealWithId_imageUrl _ _ _ _ _ _ Hd) as (text & seed & H1 & H2 & H3).
      exists deal, text, seed. rewrite Nat.add_0_r. auto.
    + intros H. destruct (IH _ _ _ _ Hm _ _ H) as (item & text & seed & H0 & H1 & H2 & H3).
      exists item, text, seed. rewrite Nat.add_succ_r. auto.
Qed.

(** C4, as the code has it. For every decoded item that [generateDeals]
    maps to a deal, the [imageUrl] of the deal is the synthesized
    placeholder, seeded from the item's title (or from its index when it
    has no truthy title), whether or not the item carried an [imageUrl] of
    its own: a supplied one is overwritten. *)
Theorem C4_imageUrl_always_synthesized
        (env : Env) (items : list value) (w w' : World) (ds : list value)
        (i : nat) (d : value) :
  dealsWithIds env (JArray items) w = (Return ds, w') ->
  nth_error ds i = Some d ->
  exists item text seed,
    nth_error items i = Some item
    /\ ToString (seedSource item i) = Some text
    /\ encodeURIComponent text = Some seed
    /\ field d (lit "imageUrl") = Some (JString (picsumUrl seed)).
Proof.
  unfold dealsWithIds. simpl. intros Hm Hd.
  exact (mapDeals_imageUrl env items 0 w w' ds Hm i d Hd).
Qed.

Lemma C4_witness :
  exists item text seed,
    nth_error [JObject [ (lit "title", JString (lit "A"));
                         (lit "imageUrl", JString (lit "https://cdn.example.com/a.png")) ]]
              0 = Some item
    /\ ToString (seedSource item 0) = Some text
    /\ encodeURIComponent text = Some seed
    /\ field dealOfItemWithImage (lit "imageUrl") = Some (JString (picsumUrl seed)).
Proof.
  apply (C4_imageUrl_always_synthesized (answeringEnv itemWithImage)
           [JObject [ (lit "title", JString (lit "A"));
                      (lit "imageUrl", JString (lit "https://cdn.example.com/a.png")) ]]
           emptyWorld
           {| ai := None; sent := []; clockReads := 1; randomDraws := 0 |}
           [dealOfItemWithImage] 0 dealOfItemWithImage);
    vm_compute; reflexivity.
Defined.

(** C4 as stated fails: the item carries the image
    [https://cdn.example.com/a.png], and the deal [generateDeals] returns
    for it carries the placeholder instead. *)
Lemma C4_counterexample :
  parseJsonFromText itemWithImage true
  = JArray [JObject [ (lit "title", JString (lit "A"));
                      (lit "imageUrl", JString (lit "https://cdn.example.com/a.png")) ]]
  /\ fst (generateDeals (answeringEnv itemWithImage) noPreferences false emptyWorld)
     = Return {| GeminiService.deals := [dealOfItemWithImage];
                 GeminiService.groundingMetadata := None |}
  /\ field dealOfItemWithImage (lit "imageUrl")
     = Some (JString (lit "https://picsum.photos/seed/A/300/200")).
Proof. repeat split; vm_compute; reflexivity. Qed.

(** ** The placeholder deals of the application *)

Lemma mockDeals_length (env : Env) (count : nat) :
  forall (i : nat) (w : World), length (fst (App.mockDeals env count i w)) = count.
Proof.
  induction count as [|count IH]; intros i w; [reflexivity|].
  cbn [App.mockDeals]. destruct (App.mockDeal env i w) as [d w1].
  specialize (IH (S i) w1).
  destruct (App.mockDeals env count (S i) w1) as [ds w2]. simpl in *. now rewrite IH.
Qed.

Lemma mockDeal_category (env : Env) (i : nat) (w : World) :
  categoryFromList (fst (App.mockDeal env i w)).
Proof.
  exists (nth (Nat.modulo i (length DEAL_CATEGORIES)) DEAL_CATEGORIES []).
  split; [reflexivity|].
  apply nth_In. apply Nat.mod_upper_bound. discriminate.
Qed.

Lemma mockDeals_category (env : Env) (count : nat) :
  forall (i : nat) (w : World),
    Forall categoryFromList (fst (App.mockDeals env count i w)).
Proof.
  induction count as [|count IH]; intros i w; [constructor|].
  cbn [App.mockDeals].
  pose proof (mockDeal_category env i w) as Hc.
  destruct (App.mockDeal env i w) as [d w1].
  specialize (IH (S i) w1).
  destruct (App.mockDeals env count (S i) w1) as [ds w2].
  constructor; assumption.
Qed.

(** C8. When generation fails with the missing-credentials error, the deal
    list [fetchDeals] presents is a non-empty list of placeholders, as
    many as [INITIAL_DEALS_COUNT], and the category of each is an element
    of [DEAL_CATEGORIES]. *)
Theorem C8_placeholder_deals
        (env : Env) (prefs : UserPreferences) (g : bool) (st : App.AppState)
        (w w1 : World) (e : JsError) :
  generateDeals env prefs g w = (Throw e, w1) ->
  message e = API_KEY_MISSING ->
  let st' := fst (App.fetchDeals env prefs g st w) in
  length (App.deals st') = INITIAL_DEALS_COUNT
  /\ App.deals st' <> []
  /\ Forall categoryFromList (App.deals st').
Proof.
  intros Hg Hm st'. unfold st', App.fetchDeals. rewrite Hg, Hm, str_eqb_refl.
  pose proof (mockDeals_length env INITIAL_DEALS_COUNT 0 w1) as Hl.
  pose proof (mockDeals_category env INITIAL_DEALS_COUNT 0 w1) as Hc.
  destruct (App.mockDeals env INITIAL_DEALS_COUNT 0 w1) as [ds w2].
  simpl in *. repeat split; auto.
  intros ->. discriminate.
Qed.

Lemma C8_witness :
  let st' := fst (App.fetchDeals noKeyEnv noPreferences false blankApp emptyWorld) in
  length (App.deals st') = INITIAL_DEALS_COUNT
  /\ App.deals st' <> []
  /\ Forall categoryFromList (App.deals st').
Proof.
  apply (C8_placeholder_deals noKeyEnv noPreferences false blankApp
           emptyWorld emptyWorld (Error API_KEY_MISSING));
    reflexivity.
Defined.

(** ** The truncated array of the specification *)

(** C2, as the code has it. For the truncated text
    [[{"title":"A"},{"title":"B"] and an array expected, the decoder
    returns the object with title A itself, not a sequence holding it:
    the text does not end with a closing bracket, so the array scan is not
    attempted, and the loose match runs from the first opening brace to
    the last closing one. *)
Theorem C2_truncated_array_gives_bare_object :
  JSON_parse truncatedAB = None
  /\ endsWith truncatedAB (lit "]") = false
  /\ option_map Regex.whole (Regex.exec looseRegex truncatedAB)
     = Some (jq "{'title':'A'}")
  /\ parseJsonFromText truncatedAB true = objA.
Proof. repeat split; vm_compute; reflexivity. Qed.

(** C2 as stated fails: the result is not the one-element sequence. *)
Lemma C2_counterexample :
  parseJsonFromText truncatedAB true = objA /\ objA <> JArray [objA].
Proof. split; [vm_compute; reflexivity | discriminate]. Qed.

(* ================================================================== *)
(** * Part III. The decoder on well-formed and on damaged texts        *)
(* ================================================================== *)

Import Regex Tracker Grammar Fence Salvage.

Local Open Scope N_scope.

Ltac app_norm := repeat (progress (cbn [app]; rewrite <- ?app_assoc)).

(** ** White space *)

Lemma is_ws_isWhiteSpace (c : char) : is_ws c = true -> isWhiteSpace c = true.
Proof.
  unfold is_ws. intros H.
  repeat (apply orb_true_iff in H as [H|H]); apply N.eqb_eq in H; subst; reflexivity.
Qed.

Lemma skip_ws_split (s : str) :
  exists w, s = w ++ skip_ws s /\ Forall (fun c => is_ws c = true) w.
Proof.
  induction s as [|c s IH]; simpl.
  - exists []. split; [reflexivity | constructor].
  - destruct (is_ws c) eqn:E.
    + destruct IH as (w & Hs & Hw). exists (c :: w). split.
      * simpl. now rewrite <- Hs.
      * now constructor.
    + exists []. split; [reflexivity | constructor].
Qed.

Lemma skip_ws_app (w s : str) :
  Forall (fun c => is_ws c = true) w -> skip_ws (w ++ s) = skip_ws s.
Proof.
  induction 1 as [|c w Hc _ IH]; simpl; [reflexivity|]. now rewrite Hc.
Qed.

Lemma skip_ws_head (c : char) (s : str) :
  is_ws c = false -> skip_ws (c :: s) = c :: s.
Proof. intros H. simpl. now rewrite H. Qed.

Lemma skip_ws_idem (s : str) : skip_ws (skip_ws s) = skip_ws s.
Proof.
  induction s as [|c s IH]; simpl; [reflexivity|].
  destruct (is_ws c) eqn:E; [exact IH | simpl; now rewrite E].
Qed.

Lemma skip_ws_cons_inv (s : str) (c : char) (r : str) :
  skip_ws s = c :: r -> is_ws c = false.
Proof.
  induction s as [|x s IH]; simpl; [discriminate|].
  destruct (is_ws x) eqn:E; [exact IH|]. intros H. injection H as -> _. exact E.
Qed.

Lemma skip_ws_nil_all (s : str) :
  skip_ws s = [] -> Forall (fun c => is_ws c = true) s.
Proof.
  induction s as [|x s IH]; simpl; [constructor|].
  destruct (is_ws x) eqn:E; [|discriminate]. intros H. constructor; auto.
Qed.

(** ** The brace and quote tracker *)

Lemma trun_app (t : Track) (a b : str) : trun t (a ++ b) = trun (trun t a) b.
Proof. revert t. induction a as [|c a IH]; intros t; simpl; auto. Qed.

Lemma above_app (d : Z) (t : Track) (a b : str) :
  above d t (a ++ b) <-> above d t a /\ above d (trun t a) b.
Proof.
  revert t. induction a as [|c a IH]; intros t; simpl.
  - tauto.
  - rewrite IH. tauto.
Qed.

Lemma above_mono (d d' : Z) (t : Track) (s : str) :
  (d <= d')%Z -> above d' t s -> above d t s.
Proof.
  intros Hd. revert t. induction s as [|c s IH]; intros t; simpl; auto.
  intros [H1 H2]. split; [lia | auto].
Qed.

Lemma Quiet_nil : Quiet [].
Proof. intros d. simpl. auto. Qed.

Lemma Quiet_app (a b : str) : Quiet a -> Quiet b -> Quiet (a ++ b).
Proof.
  intros Ha Hb d. destruct (Ha d) as [Ha1 Ha2]. destruct (Hb d) as [Hb1 Hb2].
  split.
  - now rewrite trun_app, Ha1.
  - apply above_app. rewrite Ha1. auto.
Qed.

Lemma tstep_neutral (d : Z) (c : char) :
  neutral c = true -> tstep (outside d) c = outside d.
Proof.
  unfold neutral, tstep. intros H.
  repeat (apply andb_true_iff in H as [H ?]).
  repeat match goal with
         | H : negb (_ =? _) = true |- _ =>
             apply negb_true_iff in H; rewrite H
         end.
  reflexivity.
Qed.

Lemma Quiet_neutral (s : str) : Forall (fun c => neutral c = true) s -> Quiet s.
Proof.
  induction 1 as [|c s Hc _ IH]; [apply Quiet_nil|].
  intros d. cbn [trun above]. rewrite (tstep_neutral d c Hc).
  destruct (IH d) as [I1 I2]. split; [exact I1 | split; [simpl; lia | exact I2]].
Qed.

Lemma is_ws_neutral (c : char) : is_ws c = true -> neutral c = true.
Proof.
  unfold is_ws. intros H.
  repeat (apply orb_true_iff in H as [H|H]); apply N.eqb_eq in H; subst; reflexivity.
Qed.

Lemma Quiet_ws (w : str) : Forall (fun c => is_ws c = true) w -> Quiet w.
Proof.
  intros H. apply Quiet_neutral. eapply Forall_impl; [|exact H].
  intros c. apply is_ws_neutral.
Qed.

(** An object text: braces around a part that keeps the depth up. *)
Lemma Quiet_braces (mid : str) : Quiet mid -> Quiet (123 :: mid ++ [125]).
Proof.
  intros Hm d. destruct (Hm (d + 1)%Z) as [H1 H2].
  change (123 :: mid ++ [125]) with ([123] ++ mid ++ [125]).
  split.
  - rewrite !trun_app. simpl trun at 2.
    change (tstep (outside d) 123) with (outside (d + 1)).
    rewrite H1. cbn [trun]. unfold tstep. simpl. f_equal. lia.
  - apply above_app. split.
    + cbn [above]. unfold tstep. simpl. split; [lia | exact I].
    + cbn [trun]. change (tstep (outside d) 123) with (outside (d + 1)).
      apply above_app. split.
      * apply (above_mono d (d + 1)); [lia | exact H2].
      * rewrite H1. cbn [above]. unfold tstep. simpl. split; [lia | exact I].
Qed.

(** ** String literals *)

Lemma hex_value_plain (c : char) (x : N) :
  hex_value c = Some x -> (c =? 34) = false /\ (c =? 92) = false.
Proof.
  unfold hex_value, is_digit.
  destruct (N.eqb_spec c 34) as [->|]; [discriminate|].
  destruct (N.eqb_spec c 92) as [->|]; [discriminate|]. auto.
Qed.

Lemma hex4_plain (a b c d : char) (u : char) :
  hex4 a b c d = Some u ->
  ((a =? 34) = false /\ (a =? 92) = false) /\ ((b =? 34) = false /\ (b =? 92) = false)
  /\ ((c =? 34) = false /\ (c =? 92) = false) /\ ((d =? 34) = false /\ (d =? 92) = false).
Proof.
  unfold hex4.
  destruct (hex_value a) eqn:Ea; [|discriminate].
  destruct (hex_value b) eqn:Eb; [|discriminate].
  destruct (hex_value c) eqn:Ec; [|discriminate].
  destruct (hex_value d) eqn:Ed; [|discriminate].
  intros _. repeat split; eapply hex_value_plain; eauto.
Qed.

Lemma tstep_inside_plain (d : Z) (r : nat) (c : char) :
  (c =? 34) = false -> (c =? 92) = false ->
  tstep (inside d r) c = inside d 0.
Proof. intros H1 H2. unfold tstep. simpl. now rewrite H1, H2. Qed.

Lemma tstep_inside_backslash (d : Z) (r : nat) :
  tstep (inside d r) 92 = inside d (S r).
Proof. reflexivity. Qed.

Lemma tstep_inside_quote_odd (d : Z) (r : nat) :
  Nat.even r = false -> tstep (inside d r) 34 = inside d 0.
Proof. intros H. unfold tstep. simpl. now rewrite H. Qed.

Lemma tstep_inside_quote_even (d : Z) (r : nat) :
  Nat.even r = true -> tstep (inside d r) 34 = outside d.
Proof. intros H. unfold tstep. simpl. now rewrite H. Qed.

Lemma even_SS (r : nat) : Nat.even (S (S r)) = Nat.even r.
Proof. reflexivity. Qed.

Lemma even_S_false (r : nat) : Nat.even r = true -> Nat.even (S r) = false.
Proof. rewrite Nat.even_succ, <- Nat.negb_even. now intros ->. Qed.

(** The body of a string literal: what the scan sees, and that the result
    does not depend on the text after the closing quote. *)
Lemma parse_string_body_spec (n : nat) :
  forall (s x rest : str),
    (length s <= n)%nat ->
    parse_string_body s = Some (x, rest) ->
    exists body,
      s = body ++ 34 :: rest
      /\ (forall d r, Nat.even r = true ->
                      trun (inside d r) (body ++ [34]) = outside d
                      /\ above d (inside d r) (body ++ [34]))
      /\ (forall r', parse_string_body (body ++ 34 :: r') = Some (x, r')).
Proof.
  induction n as [|n IH]; intros s x rest Hlen.
  - destruct s; [discriminate | simpl in Hlen; lia].
  - destruct s as [|c s']; [discriminate|]. simpl in Hlen.
    cbn [parse_string_body].
    destruct (N.eqb_spec c 34) as [->|Hq].
    { intros H. injection H as <- <-. exists []. split; [reflexivity|]. split.
      - intros d r Hr. cbn [app trun above].
        rewrite tstep_inside_quote_even by assumption.
        split; [reflexivity|]. simpl. split; [lia | exact I].
      - intros r'. reflexivity. }
    destruct (N.eqb_spec c 92) as [->|Hb].
    { destruct s' as [|e s'']; [discriminate|]. simpl in Hlen.
      destruct (N.eqb_spec e 117) as [->|Hu].
      - destruct s'' as [|h1 [|h2 [|h3 [|h4 s3]]]]; try discriminate.
        simpl in Hlen.
        destruct (hex4 h1 h2 h3 h4) as [u|] eqn:Eh; [|discriminate].
        destruct (parse_string_body s3) as [[x0 r0]|] eqn:Ep; [|discriminate].
        intros H. injection H as <- <-.
        destruct (IH s3 x0 r0 ltac:(lia) Ep) as (body & -> & Ht & Hl).
        destruct (hex4_plain _ _ _ _ _ Eh) as ((A1 & A2) & (B1 & B2) & (C1 & C2) & (D1 & D2)).
        exists (92 :: 117 :: h1 :: h2 :: h3 :: h4 :: body). split; [reflexivity|]. split.
        + intros d r Hr. cbn [app trun above].
          rewrite tstep_inside_backslash.
          rewrite (tstep_inside_plain d (S r) 117) by reflexivity.
          rewrite !tstep_inside_plain by assumption.
          destruct (Ht d 0%nat eq_refl) as [T1 T2].
          split; [exact T1|]. cbn [t_depth]. repeat split; try lia. exact T2.
        + intros r'. cbn [app parse_string_body].
          change (92 =? 34) with false. change (92 =? 92) with true.
          change (117 =? 117) with true. cbv iota. rewrite Eh, Hl. reflexivity.
      - destruct (unescape e) as [u|] eqn:Eu; [|discriminate].
        destruct (parse_string_body s'') as [[x0 r0]|] eqn:Ep; [|discriminate].
        intros H. injection H as <- <-.
        destruct (IH s'' x0 r0 ltac:(lia) Ep) as (body & -> & Ht & Hl).
        exists (92 :: e :: body). split; [reflexivity|]. split.
        + intros d r Hr. cbn [app trun above]. rewrite tstep_inside_backslash.
          destruct (N.eqb_spec e 34) as [->|He1].
          * rewrite tstep_inside_quote_odd by now apply even_S_false.
            destruct (Ht d 0%nat eq_refl) as [T1 T2].
            split; [exact T1|]. cbn [t_depth]. repeat split; try lia. exact T2.
          * destruct (N.eqb_spec e 92) as [->|He2].
            -- rewrite tstep_inside_backslash.
               destruct (Ht d (S (S r)) Hr) as [T1 T2].
               split; [exact T1|]. cbn [t_depth]. repeat split; try lia. exact T2.
            -- rewrite tstep_inside_plain by now apply N.eqb_neq.
               destruct (Ht d 0%nat eq_refl) as [T1 T2].
               split; [exact T1|]. cbn [t_depth]. repeat split; try lia. exact T2.
        + intros r'. cbn [app parse_string_body].
          change (92 =? 34) with false. change (92 =? 92) with true. cbv iota.
          apply N.eqb_neq in Hu. rewrite Hu, Eu, Hl. reflexivity. }
    destruct (c <? 32) eqn:Ec; [discriminate|].
    destruct (parse_string_body s') as [[x0 r0]|] eqn:Ep; [|discriminate].
    intros H. injection H as <- <-.
    destruct (IH s' x0 r0 ltac:(lia) Ep) as (body & -> & Ht & Hl).
    exists (c :: body). split; [reflexivity|]. split.
    + intros d r Hr. cbn [app trun above].
      rewrite tstep_inside_plain by now apply N.eqb_neq.
      destruct (Ht d 0%nat eq_refl) as [T1 T2].
      split; [exact T1|]. cbn [t_depth]. repeat split; try lia. exact T2.
    + intros r'. cbn [app parse_string_body].
      apply N.eqb_neq in Hq, Hb. rewrite Hq, Hb, Ec, Hl. reflexivity.
Qed.

(** ** Number literals *)

Lemma span_digits_spec (s : str) :
  s = fst (span_digits s) ++ snd (span_digits s)
  /\ Forall (fun c => is_digit c = true) (fst (span_digits s))
  /\ head_is is_digit (snd (span_digits s)) = false.
Proof.
  induction s as [|c s IH]; simpl.
  - repeat split. constructor.
  - destruct (is_digit c) eqn:E.
    + destruct (span_digits s) as [ds r]. simpl in *.
      destruct IH as (H1 & H2 & H3). repeat split; auto. now rewrite <- H1.
    + simpl. repeat split; auto.
Qed.

Lemma span_digits_app (ds r : str) :
  Forall (fun c => is_digit c = true) ds ->
  head_is is_digit r = false ->
  span_digits (ds ++ r) = (ds, r).
Proof.
  induction 1 as [|c ds Hc _ IH]; intros Hr; simpl.
  - destruct r as [|c r]; [reflexivity|]. simpl in *. now rewrite Hr.
  - rewrite Hc, (IH Hr). reflexivity.
Qed.

Lemma digit_numchar (c : char) : is_digit c = true -> numchar c = true.
Proof. unfold numchar. now intros ->. Qed.

Lemma digits_numchar (ds : str) :
  Forall (fun c => is_digit c = true) ds -> Forall (fun c => numchar c = true) ds.
Proof. intros H. eapply Forall_impl; [|exact H]. exact digit_numchar. Qed.

Lemma parse_int_spec (s ds r : str) :
  parse_int s = Some (ds, r) ->
  s = ds ++ r /\ ds <> []
  /\ Forall (fun c => is_digit c = true) ds
  /\ (forall r', head_is is_digit r' = false -> parse_int (ds ++ r') = Some (ds, r')).
Proof.
  unfold parse_int. destruct s as [|d s2]; [discriminate|].
  destruct (is_digit d) eqn:Ed; [|discriminate].
  destruct (N.eqb_spec d 48) as [->|Hz].
  - intros H. injection H as <- <-. repeat split; auto; discriminate.
  - pose proof (span_digits_spec (d :: s2)) as Hsp.
    destruct (span_digits (d :: s2)) as [ds0 r0] eqn:Es.
    cbn [fst snd] in Hsp. destruct Hsp as (H1 & H2 & H3).
    intros H. injection H as <- <-.
    assert (Hne : exists ds', ds0 = d :: ds').
    { revert Es. simpl. rewrite Ed. destruct (span_digits s2). intros H.
      injection H as <- _. eauto. }
    destruct Hne as (ds' & ->). repeat split; auto; try discriminate.
    intros r' Hr'. cbn [app]. rewrite Ed.
    apply N.eqb_neq in Hz. rewrite Hz.
    change (d :: ds' ++ r') with ((d :: ds') ++ r').
    now rewrite span_digits_app.
Qed.

Lemma parse_frac_spec (s fd r : str) :
  parse_frac s = Some (fd, r) ->
  exists pre,
    s = pre ++ r
    /\ Forall (fun c => numchar c = true) pre
    /\ (pre = [] \/ head_is (fun c => c =? 46) pre = true)
    /\ (pre = [] \/ exists body z, pre = body ++ [z] /\ is_digit z = true)
    /\ (forall r', head_is is_digit r' = false ->
                   (pre = [] -> head_is (fun c => c =? 46) r' = false) ->
                   parse_frac (pre ++ r') = Some (fd, r')).
Proof.
  unfold parse_frac. destruct s as [|c s0].
  - intros H. injection H as <- <-. exists []. repeat split; auto.
    intros [|c r'] _ H; [reflexivity|]. specialize (H eq_refl).
    cbn [head_is] in H. cbn [app]. now rewrite H.
  - destruct (N.eqb_spec c 46) as [->|Hc].
    + pose proof (span_digits_spec s0) as (H1 & H2 & H3).
      destruct (span_digits s0) as [ds r0]. simpl in H1, H2, H3.
      destruct ds as [|d0 ds]; [discriminate|].
      intros H. injection H as <- <-. exists (46 :: d0 :: ds).
      split; [simpl; now rewrite H1|]. split.
      * constructor; [reflexivity | now apply digits_numchar].
      * split; [right; reflexivity|]. split.
        { right. destruct (@exists_last _ (d0 :: ds) ltac:(discriminate)) as (b & z & Hbz).
          exists (46 :: b), z. split.
          - cbn [app]. now rewrite Hbz.
          - rewrite Hbz in H2. apply Forall_app in H2 as [_ H2]. now inversion H2. }
        intros r' Hr' _. cbn [app].
        change (46 =? 46) with true. cbv iota.
        change (d0 :: ds ++ r') with ((d0 :: ds) ++ r').
        now rewrite span_digits_app.
    + intros H. injection H as <- <-. exists []. repeat split; auto.
      intros [|c' r'] _ H; [reflexivity|]. specialize (H eq_refl).
      cbn [head_is] in H. cbn [app]. now rewrite H.
Qed.

Lemma parse_exp_spec (s : str) (ex : Z) (r : str) :
  parse_exp s = Some (ex, r) ->
  exists pre,
    s = pre ++ r
    /\ Forall (fun c => numchar c = true) pre
    /\ (pre = [] \/ head_is is_e pre = true)
    /\ (pre = [] \/ exists body z, pre = body ++ [z] /\ is_digit z = true)
    /\ (forall r', head_is is_digit r' = false ->
                   (pre = [] -> head_is is_e r' = false) ->
                   parse_exp (pre ++ r') = Some (ex, r')).
Proof.
  unfold parse_exp. destruct s as [|c s0].
  - intros H. injection H as <- <-. exists []. repeat split; auto.
    intros [|c r'] _ H; [reflexivity|]. specialize (H eq_refl).
    cbn [head_is] in H. unfold is_e in H. cbn [app]. now rewrite H.
  - fold (is_e c). destruct (is_e c) eqn:Ec.
    + set (sg := match s0 with
                 | [] => (false, s0)
                 | x :: r0 => if x =? 43 then (false, r0)
                              else if x =? 45 then (true, r0) else (false, s0)
                 end).
      assert (Hsg : exists sp, s0 = sp ++ snd sg
                               /\ Forall (fun c => numchar c = true) sp
                               /\ (forall ds r', ds <> [] ->
                                     Forall (fun c => is_digit c = true) ds ->
                                     match sp ++ ds ++ r' with
                                     | [] => (false, sp ++ ds ++ r')
                                     | x :: r0 =>
                                         if x =? 43 then (false, r0)
                                         else if x =? 45 then (true, r0)
                                         else (false, sp ++ ds ++ r')
                                     end = (fst sg, ds ++ r'))).
      { unfold sg. destruct s0 as [|x r0].
        - exists []. repeat split; auto. intros [|d ds] r' Hne Hd; [congruence|].
          cbn [app]. inversion Hd as [|? ? Hd0 _]; subst.
          destruct (N.eqb_spec d 43) as [->|]; [discriminate|].
          destruct (N.eqb_spec d 45) as [->|]; [discriminate|]. reflexivity.
        - destruct (N.eqb_spec x 43) as [->|H43].
          + exists [43]. repeat split; auto.
          + destruct (N.eqb_spec x 45) as [->|H45].
            * exists [45]. repeat split; auto.
            * exists []. repeat split; auto. intros [|d ds] r' Hne Hd; [congruence|].
              cbn [app]. inversion Hd as [|? ? Hd0 _]; subst.
              destruct (N.eqb_spec d 43) as [->|]; [discriminate|].
              destruct (N.eqb_spec d 45) as [->|]; [discriminate|]. reflexivity. }
      destruct Hsg as (sp & Hs0 & Hsp & Hloc).
      destruct sg as [neg r1] eqn:Esg. simpl in Hs0, Hloc.
      pose proof (span_digits_spec r1) as (H1 & H2 & H3).
      destruct (span_digits r1) as [ds r2]. simpl in H1, H2, H3.
      destruct ds as [|d0 ds]; [discriminate|].
      intros H. injection H as <- <-.
      exists (c :: sp ++ d0 :: ds). split.
      { rewrite Hs0, H1. cbn [app]. now rewrite <- app_assoc. }
      split.
      { constructor.
        - unfold numchar. unfold is_e in Ec.
          apply orb_true_iff in Ec as [->| ->]; now rewrite ?orb_true_r.
        - apply Forall_app. split; [assumption | now apply digits_numchar]. }
      split; [right; exact Ec|]. split.
      { right. destruct (@exists_last _ (d0 :: ds) ltac:(discriminate)) as (b & z & Hbz).
        exists (c :: sp ++ b), z. split.
        - cbn [app]. rewrite <- app_assoc. now rewrite Hbz.
        - rewrite Hbz in H2. apply Forall_app in H2 as [_ H2].
          now inversion H2. }
      intros r' Hr' _. cbn [app]. fold (is_e c). rewrite Ec.
      rewrite <- app_assoc.
      rewrite (Hloc (d0 :: ds) r' ltac:(discriminate) H2). cbn [fst].
      now rewrite span_digits_app.
    + intros H. injection H as <- <-. exists []. repeat split; auto.
      intros [|c' r'] _ H; [reflexivity|]. specialize (H eq_refl).
      cbn [head_is] in H. cbn [app]. fold (is_e c'). now rewrite H.
Qed.

Lemma head_is_app (p : char -> bool) (a b : str) :
  head_is p (a ++ b) = match a with [] => head_is p b | _ :: _ => head_is p a end.
Proof. destruct a; reflexivity. Qed.

Lemma delim_digit (r : str) : delim r -> head_is is_digit r = false.
Proof.
  unfold delim. destruct r as [|c r]; [reflexivity|]. simpl. unfold num_cont.
  intros H. repeat (apply orb_false_iff in H as [H ?]). exact H.
Qed.

Lemma delim_dot (r : str) : delim r -> head_is (fun c => c =? 46) r = false.
Proof.
  unfold delim. destruct r as [|c r]; [reflexivity|]. simpl. unfold num_cont.
  intros H. repeat (apply orb_false_iff in H as [H ?]). assumption.
Qed.

Lemma delim_e (r : str) : delim r -> head_is is_e r = false.
Proof.
  unfold delim. destruct r as [|c r]; [reflexivity|]. simpl. unfold num_cont, is_e.
  intros H. repeat (apply orb_false_iff in H as [H ?]).
  apply orb_false_iff. auto.
Qed.

Lemma is_e_not_digit (c : char) : is_e c = true -> is_digit c = false.
Proof.
  unfold is_e. intros H. apply orb_true_iff in H as [H|H];
    apply N.eqb_eq in H; subst; reflexivity.
Qed.

Lemma head_e_not_digit (s : str) : head_is is_e s = true -> head_is is_digit s = false.
Proof. destruct s as [|c s]; [discriminate|]. apply is_e_not_digit. Qed.

Lemma head_dot_not_digit (s : str) :
  head_is (fun c => c =? 46) s = true -> head_is is_digit s = false.
Proof.
  destruct s as [|c s]; [discriminate|]. simpl. intros H.
  apply N.eqb_eq in H. now subst.
Qed.

Lemma head_e_not_dot (s : str) :
  head_is is_e s = true -> head_is (fun c => c =? 46) s = false.
Proof.
  destruct s as [|c s]; [discriminate|]. simpl. unfold is_e. intros H.
  apply orb_true_iff in H as [H|H]; apply N.eqb_eq in H; now subst.
Qed.

(** A number literal: its characters, and that the result does not depend
    on what follows as long as that cannot continue the number. *)
Lemma parse_number_spec (s : str) (d : double) (rest : str) :
  parse_number s = Some (d, rest) ->
  exists pre,
    s = pre ++ rest
    /\ Forall (fun c => numchar c = true) pre
    /\ (exists body z, pre = body ++ [z] /\ is_digit z = true)
    /\ (forall r', delim r' -> parse_number (pre ++ r') = Some (d, r')).
Proof.
  unfold parse_number.
  assert (Hsign : exists sp, s = sp ++ snd (parse_sign s)
                   /\ Forall (fun c => numchar c = true) sp
                   /\ (forall t, head_is is_digit t = true ->
                                 parse_sign (sp ++ t) = (fst (parse_sign s), t))).
  { unfold parse_sign. destruct s as [|c s0].
    - exists []. repeat split; auto. intros [|x t] Ht; [discriminate|].
      simpl in *. destruct (N.eqb_spec x 45) as [->|]; [discriminate | reflexivity].
    - destruct (N.eqb_spec c 45) as [->|Hc].
      + exists [45]. repeat split; auto.
      + exists []. repeat split; auto. intros [|x t] Ht; [discriminate|].
        simpl in *. destruct (N.eqb_spec x 45) as [->|]; [discriminate | reflexivity]. }
  destruct Hsign as (sp & Hs & Hsp & Hsl).
  destruct (parse_sign s) as [neg s1]. cbn [fst snd] in Hs, Hsl.
  destruct (parse_int s1) as [[ids s3]|] eqn:Ei; [|discriminate].
  destruct (parse_frac s3) as [[fds s4]|] eqn:Ef; [|discriminate].
  destruct (parse_exp s4) as [[ex s5]|] eqn:Ee; [|discriminate].
  intros H. injection H as <- <-.
  destruct (parse_int_spec _ _ _ Ei) as (Hi1 & Hi2 & Hi3 & Hi4).
  destruct (parse_frac_spec _ _ _ Ef) as (pf & Hf1 & Hf2 & Hf3 & Hf4 & Hf5).
  destruct (parse_exp_spec _ _ _ Ee) as (pe & He1 & He2 & He3 & He4 & He5).
  exists (sp ++ ids ++ pf ++ pe). split.
  { rewrite Hs, Hi1, Hf1, He1. now rewrite !app_assoc. }
  split.
  { repeat (apply Forall_app; split); auto. now apply digits_numchar. }
  split.
  { destruct He4 as [->|(b & z & -> & Hz)].
    - rewrite app_nil_r. destruct Hf4 as [->|(b & z & -> & Hz)].
      + rewrite app_nil_r.
        destruct (@exists_last _ ids Hi2) as (b & z & ->).
        exists (sp ++ b), z. split; [now rewrite app_assoc|].
        apply Forall_app in Hi3 as [_ Hi3]. now inversion Hi3.
      + exists (sp ++ ids ++ b), z. split; [now rewrite !app_assoc | exact Hz].
    - exists (sp ++ ids ++ pf ++ b), z. split; [now rewrite !app_assoc | exact Hz]. }
  intros r' Hr'.
  assert (Hd_e : head_is is_digit (pe ++ r') = false).
  { rewrite head_is_app. destruct pe as [|c pe]; [now apply delim_digit|].
    destruct He3 as [|He3]; [discriminate|]. now apply head_e_not_digit. }
  assert (Hd_f : head_is is_digit (pf ++ pe ++ r') = false).
  { rewrite head_is_app. destruct pf as [|c pf]; [exact Hd_e|].
    destruct Hf3 as [|Hf3]; [discriminate|]. now apply head_dot_not_digit. }
  rewrite <- !app_assoc.
  rewrite Hsl.
  2:{ rewrite head_is_app. destruct ids as [|c ids]; [congruence|].
      now inversion Hi3. }
  rewrite (Hi4 _ Hd_f).
  rewrite (Hf5 _ Hd_e).
  2:{ intros ->. rewrite head_is_app. destruct pe as [|c pe]; [now apply delim_dot|].
      destruct He3 as [|He3]; [discriminate|]. now apply head_e_not_dot. }
  rewrite (He5 _ (delim_digit _ Hr')).
  2:{ intros _. now apply delim_e. }
  reflexivity.
Qed.

(** ** Values *)

Lemma Quiet_string (body : str) :
  (forall d r, Nat.even r = true ->
               trun (inside d r) (body ++ [34]) = outside d
               /\ above d (inside d r) (body ++ [34])) ->
  Quiet (34 :: body ++ [34]).
Proof.
  intros H d. destruct (H d 0%nat eq_refl) as [H1 H2].
  cbn [trun above]. change (tstep (outside d) 34) with (inside d 0).
  split; [exact H1 | split; [simpl; lia | exact H2]].
Qed.

Lemma Quiet_one (c : char) : neutral c = true -> Quiet [c].
Proof. intros H. apply Quiet_neutral. now constructor. Qed.

Lemma startsWith_split (p s : str) :
  startsWith s p = true -> s = p ++ skipn (length p) s.
Proof.
  revert s. induction p as [|x p IH]; intros s; [reflexivity|].
  destruct s as [|y s]; [discriminate|]. simpl.
  intros H. apply andb_true_iff in H as [H1 H2]. apply N.eqb_eq in H1. subst.
  f_equal. now apply IH.
Qed.

Lemma numchar_neutral (c : char) : numchar c = true -> neutral c = true.
Proof.
  unfold numchar, is_digit, neutral.
  destruct (N.eqb_spec c 34) as [->|]; [discriminate|].
  destruct (N.eqb_spec c 92) as [->|]; [discriminate|].
  destruct (N.eqb_spec c 123) as [->|]; [discriminate|].
  destruct (N.eqb_spec c 125) as [->|]; [discriminate|]. reflexivity.
Qed.

Lemma numchar_not_space (c : char) : numchar c = true -> isWhiteSpace c = false.
Proof.
  unfold numchar, is_digit. intros H.
  repeat (apply orb_true_iff in H as [H|H]);
    try (apply N.eqb_eq in H; subst; reflexivity).
  apply andb_true_iff in H as [H1 H2]. apply N.leb_le in H1, H2.
  unfold isWhiteSpace.
  repeat match goal with
         | |- context [?a <=? ?b] => destruct (N.leb_spec a b)
         | |- context [?a =? ?b] => destruct (N.eqb_spec a b)
         end; try reflexivity; lia.
Qed.

Lemma numchar_dispatch (c : char) :
  numchar c = true ->
  (c =? 123) = false /\ (c =? 91) = false /\ (c =? 34) = false
  /\ (c =? 116) = false /\ (c =? 102) = false /\ (c =? 110) = false
  /\ (c =? 96) = false.
Proof.
  unfold numchar, is_digit. intros H.
  repeat split; apply N.eqb_neq; intros ->; discriminate.
Qed.

Lemma not_space_not_ws (c : char) : isWhiteSpace c = false -> is_ws c = false.
Proof.
  intros H. destruct (is_ws c) eqn:E; [|reflexivity].
  apply is_ws_isWhiteSpace in E. congruence.
Qed.

Lemma skip_ws_into (w s : str) (c : char) (s' : str) :
  Forall (fun c => is_ws c = true) w -> s = c :: s' -> is_ws c = false ->
  skip_ws (w ++ s) = s.
Proof.
  intros Hw -> Hc. rewrite skip_ws_app by assumption. now apply skip_ws_head.
Qed.

Lemma delim_ws_then (w : str) (c : char) (r : str) :
  Forall (fun c => is_ws c = true) w -> num_cont c = false -> delim (w ++ c :: r).
Proof.
  intros Hw Hc. unfold delim. rewrite head_is_app. destruct w as [|x w]; [exact Hc|].
  inversion Hw as [|? ? Hx _]; subst. simpl. unfold is_ws in Hx. unfold num_cont, is_digit.
  repeat (apply orb_true_iff in Hx as [Hx|Hx]); apply N.eqb_eq in Hx; subst; reflexivity.
Qed.

Lemma ValueText_literal (p : str) (v : value) :
  (forall props, v <> JObject props) ->
  Forall (fun c => neutral c = true) p ->
  firstOk p -> lastOk p -> opensObject p = false ->
  (forall m r', (length p <= m)%nat -> delim r' ->
                 parse_value m (p ++ r') = Some (v, r')) ->
  ValueText p v.
Proof.
  intros Hv Hn Hf Hl Ho Hloc.
  split; [exact Hf|]. split; [exact Hl|].
  split; [now apply Quiet_neutral|].
  split; [intros H; congruence|].
  split; [|exact Hloc].
  intros props ->. now elim (Hv props).
Qed.

Lemma app_cons_head (c : char) (r pm rest : str) :
  c :: r = pm ++ rest -> pm <> [] -> exists pm', pm = c :: pm'.
Proof.
  destruct pm as [|x pm']; [congruence|]. intros H _. injection H as -> _. eauto.
Qed.

Lemma step_value (n : nat) : SpecE n -> SpecM n -> SpecV (S n).
Proof.
  intros HE HM s v rest. cbn [parse_value].
  destruct s as [|c s']; [discriminate|].
  destruct (N.eqb_spec c 123) as [->|H123].
  { destruct (skip_ws_split s') as (w & Hs' & Hw).
    destruct (skip_ws s') as [|c1 r1] eqn:Esk; [discriminate|].
    pose proof (skip_ws_cons_inv _ _ _ Esk) as Hc1.
    destruct (N.eqb_spec c1 125) as [->|H125].
    - intros H. injection H as <- <-.
      exists (123 :: w ++ [125]). split.
      { cbn [app]. rewrite <- app_assoc. cbn [app]. now rewrite <- Hs'. }
      split. { exists 123, (w ++ [125]). repeat split. }
      split. { exists (123 :: w), 125. split; reflexivity. }
      split. { apply Quiet_braces, Quiet_ws, Hw. }
      split. { intros _. exists w, []. split; [reflexivity|].
               split; [apply Quiet_ws, Hw | reflexivity]. }
      split. { intros props _. reflexivity. }
      intros m r' Hm _. destruct m as [|m]; [simpl in Hm; lia|].
      cbn [app parse_value]. rewrite N.eqb_refl.
      rewrite <- app_assoc. cbn [app].
      rewrite skip_ws_app by exact Hw. rewrite skip_ws_head by reflexivity.
      now rewrite N.eqb_refl.
    - destruct (parse_members n (c1 :: r1)) as [[ms r]|] eqn:Em; [|discriminate].
      intros H. injection H as <- <-.
      destruct (HM _ _ _ Em) as (pm & Hpm & (body & Hbody & Hq) & Hloc).
      destruct (app_cons_head _ _ _ _ Hpm) as (pm' & Hpm').
      { rewrite Hbody. now destruct body. }
      exists (123 :: w ++ pm). split.
      { cbn [app]. rewrite <- app_assoc. now rewrite <- Hpm, <- Hs'. }
      assert (Hshape : 123 :: w ++ pm = 123 :: (w ++ body) ++ [125]).
      { rewrite Hbody. now rewrite app_assoc. }
      split. { exists 123, (w ++ pm). repeat split. }
      split. { exists (123 :: w ++ body), 125. split; [exact Hshape | reflexivity]. }
      split. { rewrite Hshape. apply Quiet_braces, Quiet_app; [now apply Quiet_ws | exact Hq]. }
      split. { intros _. exists (w ++ body), (mk_object ms). split; [exact Hshape|].
               split; [|reflexivity].
               apply Quiet_app; [now apply Quiet_ws | exact Hq]. }
      split. { intros props _. reflexivity. }
      intros m r' Hm _. destruct m as [|m]; [simpl in Hm; lia|].
      cbn [app parse_value]. rewrite N.eqb_refl.
      rewrite <- app_assoc.
      rewrite skip_ws_app by exact Hw.
      rewrite Hpm' at 1. cbn [app]. rewrite skip_ws_head by exact Hc1.
      apply N.eqb_neq in H125. rewrite H125.
      change (c1 :: pm' ++ r') with ((c1 :: pm') ++ r'). rewrite <- Hpm'.
      rewrite Hloc; [reflexivity|]. simpl in Hm. rewrite length_app in Hm. lia. }
  destruct (N.eqb_spec c 91) as [->|H91].
  { destruct (skip_ws_split s') as (w & Hs' & Hw).
    destruct (skip_ws s') as [|c1 r1] eqn:Esk; [discriminate|].
    pose proof (skip_ws_cons_inv _ _ _ Esk) as Hc1.
    destruct (N.eqb_spec c1 93) as [->|H93].
    - intros H. injection H as <- <-.
      exists (91 :: w ++ [93]). split.
      { cbn [app]. rewrite <- app_assoc. cbn [app]. now rewrite <- Hs'. }
      apply ValueText_literal.
      + discriminate.
      + constructor; [reflexivity|]. apply Forall_app. split.
        * eapply Forall_impl; [|exact Hw]. apply is_ws_neutral.
        * now constructor.
      + exists 91, (w ++ [93]). repeat split.
      + exists (91 :: w), 93. split; reflexivity.
      + reflexivity.
      + intros m r' Hm _. destruct m as [|m]; [simpl in Hm; lia|].
        cbn [app parse_value]. change (91 =? 123) with false. rewrite N.eqb_refl.
        cbv iota. rewrite <- app_assoc. cbn [app].
        rewrite skip_ws_app by exact Hw. rewrite skip_ws_head by reflexivity.
        now rewrite N.eqb_refl.
    - destruct (parse_elements n (c1 :: r1)) as [[vs r]|] eqn:Ee; [|discriminate].
      intros H. injection H as <- <-.
      destruct (HE _ _ _ Ee) as (pe & Hpe & Hq & (body & Hbody) & Hloc).
      destruct (app_cons_head _ _ _ _ Hpe) as (pe' & Hpe').
      { rewrite Hbody. now destruct body. }
      exists (91 :: w ++ pe). split.
      { cbn [app]. rewrite <- app_assoc. now rewrite <- Hpe, <- Hs'. }
      split. { exists 91, (w ++ pe). repeat split. }
      split. { exists (91 :: w ++ body), 93. split; [|reflexivity].
               rewrite Hbody. cbn [app]. now rewrite app_assoc. }
      split. { change (91 :: w ++ pe) with ([91] ++ w ++ pe).
               apply Quiet_app; [now apply Quiet_one|].
               apply Quiet_app; [now apply Quiet_ws | exact Hq]. }
      split. { discriminate. }
      split. { discriminate. }
      intros m r' Hm _. destruct m as [|m]; [simpl in Hm; lia|].
      cbn [app parse_value]. change (91 =? 123) with false. rewrite N.eqb_refl.
      cbv iota. rewrite <- app_assoc.
      rewrite skip_ws_app by exact Hw.
      rewrite Hpe' at 1. cbn [app]. rewrite skip_ws_head by exact Hc1.
      apply N.eqb_neq in H93. rewrite H93.
      change (c1 :: pe' ++ r') with ((c1 :: pe') ++ r'). rewrite <- Hpe'.
      rewrite Hloc; [reflexivity|]. simpl in Hm. rewrite length_app in Hm. lia. }
  destruct (N.eqb_spec c 34) as [->|H34].
  { destruct (parse_string_body s') as [[x r]|] eqn:Ep; [|discriminate].
    intros H. injection H as <- <-.
    destruct (parse_string_body_spec (length s') s' x r (le_n _) Ep)
      as (body & Hs' & Ht & Hl).
    exists (34 :: body ++ [34]). split.
    { cbn [app]. rewrite <- app_assoc. cbn [app]. now rewrite <- Hs'. }
    split. { exists 34, (body ++ [34]). repeat split. }
    split. { exists (34 :: body), 34. split; reflexivity. }
    split. { now apply Quiet_string. }
    split. { discriminate. }
    split. { discriminate. }
    intros m r' Hm _. destruct m as [|m]; [simpl in Hm; lia|].
    cbn [app parse_value]. change (34 =? 123) with false.
    change (34 =? 91) with false. rewrite N.eqb_refl. cbv iota.
    rewrite <- app_assoc. cbn [app]. now rewrite Hl. }
  apply N.eqb_neq in H123, H91, H34.
  destruct (startsWith (c :: s') (lit "true")) eqn:Et.
  { intros H. injection H as <- <-.
    exists (lit "true"). split; [now apply startsWith_split|].
    apply ValueText_literal; try discriminate.
    - repeat constructor.
    - exists 116, (lit "rue"). repeat split.
    - exists (lit "tru"), 101. split; reflexivity.
    - reflexivity.
    - intros m r' Hm _. destruct m as [|m]; [simpl in Hm; lia|]. reflexivity. }
  destruct (startsWith (c :: s') (lit "false")) eqn:Ef.
  { intros H. injection H as <- <-.
    exists (lit "false"). split; [now apply startsWith_split|].
    apply ValueText_literal; try discriminate.
    - repeat constructor.
    - exists 102, (lit "alse"). repeat split.
    - exists (lit "fals"), 101. split; reflexivity.
    - reflexivity.
    - intros m r' Hm _. destruct m as [|m]; [simpl in Hm; lia|]. reflexivity. }
  destruct (startsWith (c :: s') (lit "null")) eqn:En.
  { intros H. injection H as <- <-.
    exists (lit "null"). split; [now apply startsWith_split|].
    apply ValueText_literal; try discriminate.
    - repeat constructor.
    - exists 110, (lit "ull"). repeat split.
    - exists (lit "nul"), 108. split; reflexivity.
    - reflexivity.
    - intros m r' Hm _. destruct m as [|m]; [simpl in Hm; lia|]. reflexivity. }
  destruct (parse_number (c :: s')) as [[d r]|] eqn:Enum; [|discriminate].
  intros H. injection H as <- <-.
  destruct (parse_number_spec _ _ _ Enum) as (pre & Hpre & Hnc & (body & z & Hbz & Hz) & Hloc).
  destruct (app_cons_head _ _ _ _ Hpre) as (pre' & Hpre').
  { rewrite Hbz. now destruct body. }
  assert (Hc : numchar c = true).
  { rewrite Hpre' in Hnc. now inversion Hnc. }
  destruct (numchar_dispatch c Hc) as (D1 & D2 & D3 & D4 & D5 & D6 & D7).
  exists pre. split; [exact Hpre|].
  apply ValueText_literal; try discriminate.
  - eapply Forall_impl; [|exact Hnc]. apply numchar_neutral.
  - exists c, pre'. repeat split; auto. now apply numchar_not_space.
  - exists body, z. split; [exact Hbz|]. apply numchar_not_space. now apply digit_numchar.
  - rewrite Hpre'. exact D1.
  - intros m r' Hm Hr'. destruct m as [|m]; [rewrite Hpre' in Hm; simpl in Hm; lia|].
    rewrite Hpre' at 1. cbn [app parse_value]. rewrite D1, D2, D3.
    cbn [startsWith lit list_ascii_of_string map N_of_ascii].
    assert (S1 : startsWith (c :: pre' ++ r') (lit "true") = false).
    { cbv [lit list_ascii_of_string map]. cbn [startsWith].
      change (N_of_ascii "t") with 116. rewrite N.eqb_sym, D4. reflexivity. }
    assert (S2 : startsWith (c :: pre' ++ r') (lit "false") = false).
    { cbv [lit list_ascii_of_string map]. cbn [startsWith].
      change (N_of_ascii "f") with 102. rewrite N.eqb_sym, D5. reflexivity. }
    assert (S3 : startsWith (c :: pre' ++ r') (lit "null") = false).
    { cbv [lit list_ascii_of_string map]. cbn [startsWith].
      change (N_of_ascii "n") with 110. rewrite N.eqb_sym, D6. reflexivity. }
    rewrite S1, S2, S3.
    change (c :: pre' ++ r') with ((c :: pre') ++ r'). rewrite <- Hpre'.
    now rewrite (Hloc r' Hr').
Qed.

Lemma ws_not_cont (c : char) : is_ws c = true -> num_cont c = false.
Proof.
  unfold is_ws. intros H.
  repeat (apply orb_true_iff in H as [H|H]); apply N.eqb_eq in H; subst; reflexivity.
Qed.

Lemma delim_after_ws (w : str) (c : char) (r : str) :
  Forall (fun c => is_ws c = true) w -> num_cont c = false -> delim (w ++ c :: r).
Proof.
  intros Hw Hc. unfold delim. rewrite head_is_app. destruct w as [|x w]; [exact Hc|].
  inversion Hw; subst. now apply ws_not_cont.
Qed.

Lemma delim_ws (w : str) : Forall (fun c => is_ws c = true) w -> delim w.
Proof.
  intros Hw. unfold delim. destruct w as [|x w]; [reflexivity|].
  inversion Hw; subst. now apply ws_not_cont.
Qed.

Lemma ValueText_head (pre : str) (v : value) :
  ValueText pre v -> exists c pre', pre = c :: pre' /\ is_ws c = false.
Proof.
  intros ((c & pre' & -> & Hc & _) & _). exists c, pre'. split; [reflexivity|].
  now apply not_space_not_ws.
Qed.

Lemma step_elements (n : nat) : SpecV n -> SpecE n -> SpecE (S n).
Proof.
  intros HV HE s vs rest. cbn [parse_elements].
  destruct (parse_value n s) as [[v r]|] eqn:Ev; [|discriminate].
  destruct (HV _ _ _ Ev) as (pv & Hpv & Hvt).
  pose proof Hvt as (_ & _ & Hqv & _ & _ & Hlv).
  destruct (skip_ws_split r) as (w & Hr & Hw).
  destruct (skip_ws r) as [|c r'] eqn:Esk; [discriminate|].
  destruct (N.eqb_spec c 93) as [->|H93].
  - intros H. injection H as <- <-. exists (pv ++ w ++ [93]). split.
    { rewrite Hpv, Hr. now rewrite <- !app_assoc. }
    split.
    { apply Quiet_app; [exact Hqv|]. apply Quiet_app; [now apply Quiet_ws|].
      now apply Quiet_one. }
    split. { exists (pv ++ w). now rewrite app_assoc. }
    intros m r'' Hm. rewrite !length_app in Hm. simpl in Hm.
    destruct m as [|m]; [lia|]. cbn [parse_elements].
    rewrite <- !app_assoc. cbn [app].
    rewrite Hlv; [|lia|now apply delim_after_ws].
    rewrite skip_ws_app by exact Hw. rewrite skip_ws_head by reflexivity.
    now rewrite N.eqb_refl.
  - destruct (N.eqb_spec c 44) as [->|H44]; [|discriminate].
    destruct (skip_ws_split r') as (w2 & Hr' & Hw2).
    destruct (parse_elements n (skip_ws r')) as [[vs' r'']|] eqn:Ee; [|discriminate].
    intros H. injection H as <- <-.
    destruct (HE _ _ _ Ee) as (pe & Hpe & Hq & (body & Hbody) & Hloc).
    assert (Hhead : exists c2 pe', pe = c2 :: pe' /\ is_ws c2 = false).
    { destruct pe as [|c2 pe']; [now destruct body|].
      exists c2, pe'. split; [reflexivity|].
      eapply skip_ws_cons_inv. rewrite skip_ws_idem. exact Hpe. }
    destruct Hhead as (c2 & pe' & Hpe' & Hc2).
    exists (pv ++ w ++ [44] ++ w2 ++ pe). split.
    { rewrite Hpv, Hr, Hr', Hpe. now rewrite <- !app_assoc. }
    split.
    { apply Quiet_app; [exact Hqv|]. apply Quiet_app; [now apply Quiet_ws|].
      apply Quiet_app; [now apply Quiet_one|].
      apply Quiet_app; [now apply Quiet_ws | exact Hq]. }
    split. { exists (pv ++ w ++ [44] ++ w2 ++ body). rewrite Hbody.
             now rewrite <- !app_assoc. }
    intros m r3 Hm. rewrite !length_app in Hm. simpl in Hm.
    destruct m as [|m]; [lia|]. cbn [parse_elements].
    rewrite <- !app_assoc. cbn [app].
    rewrite Hlv; [|lia|now apply delim_after_ws].
    rewrite skip_ws_app by exact Hw. rewrite skip_ws_head by reflexivity.
    change (44 =? 93) with false. rewrite N.eqb_refl. cbv iota.
    rewrite skip_ws_app by exact Hw2.
    rewrite Hpe' at 1. cbn [app]. rewrite skip_ws_head by exact Hc2.
    change (c2 :: pe' ++ r3) with ((c2 :: pe') ++ r3). rewrite <- Hpe'.
    rewrite Hloc; [reflexivity | lia].
Qed.

Lemma skip_ws_before (w s t : str) :
  Forall (fun c => is_ws c = true) w -> starts_solid s = true ->
  skip_ws (w ++ s ++ t) = s ++ t.
Proof.
  intros Hw Hs. rewrite skip_ws_app by exact Hw.
  destruct s as [|c s']; [discriminate|]. cbn [app].
  apply skip_ws_head. now apply negb_true_iff in Hs.
Qed.

Lemma ValueText_solid (pre : str) (v : value) : ValueText pre v -> starts_solid pre = true.
Proof.
  intros H. destruct (ValueText_head _ _ H) as (c & pre' & -> & Hc).
  unfold starts_solid. simpl. now rewrite Hc.
Qed.

Lemma step_members (n : nat) : SpecV n -> SpecM n -> SpecM (S n).
Proof.
  intros HV HM s ms rest. cbn [parse_members].
  destruct s as [|q s']; [discriminate|].
  destruct (N.eqb_spec q 34) as [->|]; [|discriminate].
  destruct (parse_string_body s') as [[k r]|] eqn:Ek; [|discriminate].
  destruct (parse_string_body_spec (length s') s' k r (le_n _) Ek)
    as (kb & Hs' & Hkt & Hkl).
  destruct (skip_ws_split r) as (w1 & Hr & Hw1).
  destruct (skip_ws r) as [|colon r1] eqn:Esk1; [discriminate|].
  destruct (N.eqb_spec colon 58) as [->|]; [|discriminate].
  destruct (skip_ws_split r1) as (w2 & Hr1 & Hw2).
  remember (skip_ws r1) as r1' eqn:Er1'.
  destruct (parse_value n r1') as [[v r2]|] eqn:Ev; [|discriminate].
  destruct (HV _ _ _ Ev) as (pv & Hpv & Hvt).
  pose proof Hvt as (_ & _ & Hqv & _ & _ & Hlv).
  pose proof (ValueText_solid _ _ Hvt) as Hsv.
  destruct (skip_ws_split r2) as (w3 & Hr2 & Hw3).
  destruct (skip_ws r2) as [|c r3] eqn:Esk3; [discriminate|].
  assert (Hkey : Quiet (34 :: kb ++ [34])) by now apply Quiet_string.
  assert (Hfront : Quiet ((34 :: kb ++ [34]) ++ w1 ++ [58] ++ w2 ++ pv ++ w3)).
  { apply Quiet_app; [exact Hkey|]. apply Quiet_app; [now apply Quiet_ws|].
    apply Quiet_app; [now apply Quiet_one|]. apply Quiet_app; [now apply Quiet_ws|].
    apply Quiet_app; [exact Hqv | now apply Quiet_ws]. }
  assert (Hs : 34 :: s' = ((34 :: kb ++ [34]) ++ w1 ++ [58] ++ w2 ++ pv ++ w3) ++ c :: r3).
  { rewrite Hs', Hr, Hr1, Hpv, Hr2. app_norm. reflexivity. }
  destruct (N.eqb_spec c 125) as [->|H125].
  - intros H. injection H as <- <-.
    exists (((34 :: kb ++ [34]) ++ w1 ++ [58] ++ w2 ++ pv ++ w3) ++ [125]).
    split. { etransitivity; [exact Hs|]. app_norm. reflexivity. }
    split. { eexists. split; [reflexivity | exact Hfront]. }
    intros m tail Hm. rewrite !length_app in Hm. simpl in Hm.
    rewrite !length_app in Hm. simpl in Hm.
    destruct m as [|m]; [lia|]. cbn [parse_members].
    app_norm. rewrite N.eqb_refl. rewrite Hkl.
    rewrite skip_ws_app by exact Hw1. rewrite skip_ws_head by reflexivity.
    rewrite N.eqb_refl. rewrite skip_ws_before by assumption.
    rewrite Hlv; [|lia|now apply delim_after_ws].
    rewrite skip_ws_app by exact Hw3. rewrite skip_ws_head by reflexivity.
    now rewrite N.eqb_refl.
  - destruct (N.eqb_spec c 44) as [->|H44]; [|discriminate].
    destruct (skip_ws_split r3) as (w4 & Hr3 & Hw4).
    remember (skip_ws r3) as r3' eqn:Er3'.
    destruct (parse_members n r3') as [[ms' r4]|] eqn:Em; [|discriminate].
    intros H. injection H as <- <-.
    destruct (HM _ _ _ Em) as (pm & Hpm & (body & Hbody & Hqb) & Hloc).
    assert (Hsm : starts_solid pm = true).
    { destruct pm as [|c2 pm']; [now destruct body|].
      unfold starts_solid. simpl. apply negb_true_iff.
      apply (skip_ws_cons_inv r3' c2 (pm' ++ r4)).
      rewrite Er3', skip_ws_idem, <- Er3'. exact Hpm. }
    exists (((34 :: kb ++ [34]) ++ w1 ++ [58] ++ w2 ++ pv ++ w3) ++ [44] ++ w4 ++ pm).
    split. { etransitivity; [exact Hs|]. rewrite Hr3, Hpm. app_norm. reflexivity. }
    split.
    { exists (((34 :: kb ++ [34]) ++ w1 ++ [58] ++ w2 ++ pv ++ w3) ++ [44] ++ w4 ++ body).
      split; [rewrite Hbody; app_norm; reflexivity|].
      apply Quiet_app; [exact Hfront|]. apply Quiet_app; [now apply Quiet_one|].
      apply Quiet_app; [now apply Quiet_ws | exact Hqb]. }
    intros m tail Hm. rewrite !length_app in Hm. simpl in Hm.
    rewrite !length_app in Hm. simpl in Hm.
    destruct m as [|m]; [lia|]. cbn [parse_members].
    app_norm. rewrite N.eqb_refl. rewrite Hkl.
    rewrite skip_ws_app by exact Hw1. rewrite skip_ws_head by reflexivity.
    rewrite N.eqb_refl. rewrite skip_ws_before by assumption.
    rewrite Hlv; [|lia|now apply delim_after_ws].
    rewrite skip_ws_app by exact Hw3. rewrite skip_ws_head by reflexivity.
    change (44 =? 125) with false. rewrite N.eqb_refl. cbv iota.
    rewrite skip_ws_before by assumption.
    rewrite Hloc; [reflexivity | lia].
Qed.

(** The parser and the text it consumes, for every amount of fuel. *)
Lemma parse_spec (n : nat) : SpecV n /\ SpecE n /\ SpecM n.
Proof.
  induction n as [|n (HV & HE & HM)].
  - repeat split; intros s x rest H; discriminate.
  - split; [now apply step_value|].
    split; [apply step_elements | apply step_members]; assumption.
Qed.

(** ** [JSON.parse] as a whole *)

(** A text [JSON.parse] accepts is a value text between white space. *)
Lemma JSON_parse_inv (t : str) (v : value) :
  JSON_parse t = Some v ->
  exists w1 core w2,
    t = w1 ++ core ++ w2
    /\ Forall (fun c => is_ws c = true) w1
    /\ Forall (fun c => is_ws c = true) w2
    /\ ValueText core v.
Proof.
  unfold JSON_parse.
  destruct (parse_value (length t) (skip_ws t)) as [[v0 r]|] eqn:Ep; [|discriminate].
  destruct (skip_ws r) eqn:Er; [|discriminate].
  intros H. injection H as <-.
  destruct (parse_spec (length t)) as (HV & _ & _).
  destruct (HV _ _ _ Ep) as (core & Hcore & Hvt).
  destruct (skip_ws_split t) as (w1 & Ht & Hw1).
  exists w1, core, r. split; [now rewrite <- Hcore|].
  split; [exact Hw1|]. split; [now apply skip_ws_nil_all | exact Hvt].
Qed.

(** Conversely, and the length of the text is enough fuel. *)
Lemma JSON_parse_intro (w1 core w2 : str) (v : value) :
  ValueText core v ->
  Forall (fun c => is_ws c = true) w1 ->
  Forall (fun c => is_ws c = true) w2 ->
  JSON_parse (w1 ++ core ++ w2) = Some v.
Proof.
  intros Hvt Hw1 Hw2. unfold JSON_parse.
  rewrite skip_ws_before by (auto; eapply ValueText_solid; eauto).
  destruct Hvt as (_ & _ & _ & _ & _ & Hloc).
  rewrite Hloc.
  - rewrite <- (app_nil_r w2), skip_ws_app by exact Hw2. reflexivity.
  - rewrite !length_app. lia.
  - now apply delim_ws.
Qed.

(** Whatever fuel produced a complete parse, [JSON_parse] finds the same
    value: its own fuel never runs out on a well-formed text. *)
Lemma JSON_parse_fuel (m : nat) (s : str) (v : value) (r : str) :
  parse_value m (skip_ws s) = Some (v, r) -> skip_ws r = [] ->
  JSON_parse s = Some v.
Proof.
  intros Hp Hr.
  destruct (parse_spec m) as (HV & _ & _).
  destruct (HV _ _ _ Hp) as (core & Hcore & Hvt).
  destruct (skip_ws_split s) as (w1 & Hs & Hw1).
  rewrite Hs, Hcore. apply JSON_parse_intro; auto.
  now apply skip_ws_nil_all.
Qed.

Lemma JSON_parse_core (t : str) (v : value) :
  JSON_parse t = Some v ->
  exists w1 core w2,
    t = w1 ++ core ++ w2
    /\ Forall (fun c => is_ws c = true) w1
    /\ Forall (fun c => is_ws c = true) w2
    /\ ValueText core v /\ JSON_parse core = Some v.
Proof.
  intros H. destruct (JSON_parse_inv t v H) as (w1 & core & w2 & Ht & Hw1 & Hw2 & Hvt).
  exists w1, core, w2.
  split; [exact Ht|]. split; [exact Hw1|]. split; [exact Hw2|].
  split; [exact Hvt|].
  replace core with ([] ++ core ++ []) by (cbn [app]; apply app_nil_r).
  apply JSON_parse_intro; auto.
Qed.

(** ** Trimming *)

Lemma trimStart_ws (w s : str) :
  Forall (fun c => isWhiteSpace c = true) w -> trimStart (w ++ s) = trimStart s.
Proof. induction 1 as [|c w Hc _ IH]; simpl; [reflexivity|]. now rewrite Hc. Qed.

Lemma trimStart_solid (c : char) (s : str) :
  isWhiteSpace c = false -> trimStart (c :: s) = c :: s.
Proof. intros H. simpl. now rewrite H. Qed.

Lemma trimStart_app_solid (a : str) (c : char) (b : str) :
  isWhiteSpace c = false -> trimStart (a ++ c :: b) = trimStart (a ++ [c]) ++ b.
Proof.
  intros Hc. induction a as [|x a IH]; simpl.
  - now rewrite Hc.
  - destruct (isWhiteSpace x); [exact IH|].
    cbn [app]. now rewrite <- app_assoc.
Qed.

Lemma trimStart_ws_only (w : str) (c : char) :
  Forall (fun c => isWhiteSpace c = true) w -> isWhiteSpace c = false ->
  trimStart (w ++ [c]) = [c].
Proof. intros Hw Hc. rewrite trimStart_ws by exact Hw. now apply trimStart_solid. Qed.

Lemma ws_is_space (w : str) :
  Forall (fun c => is_ws c = true) w -> Forall (fun c => isWhiteSpace c = true) w.
Proof. intros H. eapply Forall_impl; [|exact H]. exact is_ws_isWhiteSpace. Qed.

Lemma firstOk_solid (s : str) : firstOk s -> firstSolid s.
Proof. intros (c0 & rest0 & H1 & H2 & _). now exists c0, rest0. Qed.

(** Trimming a text whose first and last characters are not white space
    surrounded by white space gives the text. *)
Lemma trim_core (w1 core w2 : str) :
  firstSolid core -> lastOk core ->
  Forall (fun c => isWhiteSpace c = true) w1 ->
  Forall (fun c => isWhiteSpace c = true) w2 ->
  trim (w1 ++ core ++ w2) = core.
Proof.
  intros (c0 & rest0 & Hc & Hc0) (body & z & Hz & Hz0) Hw1 Hw2.
  unfold trim. rewrite trimStart_ws by exact Hw1.
  rewrite Hc. cbn [app]. rewrite trimStart_solid by exact Hc0.
  change (c0 :: rest0 ++ w2) with ((c0 :: rest0) ++ w2). rewrite <- Hc, Hz.
  unfold trimEnd. rewrite !rev_app_distr. cbn [rev app].
  rewrite trimStart_ws by (now apply Forall_rev).
  rewrite trimStart_solid by exact Hz0.
  cbn [rev]. now rewrite rev_involutive.
Qed.

Lemma trim_solid (s : str) : firstSolid s -> lastOk s -> trim s = s.
Proof.
  intros Hf Hl. rewrite <- (trim_core [] s []) at 2; auto.
  now rewrite app_nil_r.
Qed.

(** ** Regular expressions: stars over a character class *)

Lemma ltb_tail (x : char) (s : str) : Nat.ltb (length s) (length (x :: s)) = true.
Proof. apply Nat.ltb_lt. simpl. lia. Qed.

(** Greedy: the longest run of class characters is tried first. *)
Lemma star_greedy_max (p : char -> bool) (total : nat) (k : cont)
      (res : str * captures) (caps : captures) (a b : str) :
  Forall (fun c => p c = true) a ->
  head_is p b = false ->
  k b caps = Some res ->
  forall fuel, (length a <= fuel)%nat ->
    class_loop p total true k fuel (a ++ b) caps = Some res.
Proof.
  intros Ha Hb Hk. unfold class_loop.
  induction Ha as [|c a Hc _ IH]; intros fuel Hf.
  - destruct fuel as [|f]; [exact Hk|]. cbn [app star_loop rmatch].
    destruct b as [|x b]; [exact Hk|]. cbn [head_is] in Hb. rewrite Hb. exact Hk.
  - destruct fuel as [|f]; [simpl in Hf; lia|]. cbn [app star_loop rmatch].
    rewrite Hc, ltb_tail. change (clear_groups (Class p) caps) with caps.
    rewrite IH; [reflexivity | simpl in Hf; lia].
Qed.

(** Lazy: the shortest run after which the rest matches is taken. *)
Lemma star_lazy_first (total : nat) (k : cont) (res : str * captures)
      (caps : captures) (b : str) :
  k b caps = Some res ->
  forall (a : str),
    (forall a1 a2, a = a1 ++ a2 -> a2 <> [] -> k (a2 ++ b) caps = None) ->
    forall fuel, (length a <= fuel)%nat ->
      class_loop anyChar total false k fuel (a ++ b) caps = Some res.
Proof.
  intros Hk. unfold class_loop. induction a as [|c a IH]; intros Hfail fuel Hf.
  - destruct fuel as [|f]; [exact Hk|]. cbn [app star_loop]. now rewrite Hk.
  - destruct fuel as [|f]; [simpl in Hf; lia|]. cbn [app star_loop].
    pose proof (Hfail [] (c :: a) eq_refl ltac:(discriminate)) as H0.
    cbn [app] in H0. rewrite H0.
    cbn [rmatch anyChar]. rewrite ltb_tail.
    change (clear_groups (Class anyChar) caps) with caps.
    apply IH; [|simpl in Hf; lia].
    intros a1 a2 -> Hne. now apply (Hfail (c :: a1) a2).
Qed.

(** Whatever a star over a class matches is a run of class characters. *)
Lemma star_class_sound (p : char -> bool) (total : nat) (greedy : bool)
      (k : cont) (res : str * captures) (caps : captures) :
  forall fuel s,
    class_loop p total greedy k fuel s caps = Some res ->
    exists a b, s = a ++ b /\ Forall (fun c => p c = true) a /\ k b caps = Some res.
Proof.
  unfold class_loop. induction fuel as [|f IH]; intros s.
  - cbn [star_loop]. intros H. exists [], s. auto.
  - cbn [star_loop rmatch]. change (clear_groups (Class p) caps) with caps.
    assert (Hstop : k s caps = Some res ->
                    exists a b, s = a ++ b /\ Forall (fun c => p c = true) a
                                /\ k b caps = Some res).
    { intros H. exists [], s. auto. }
    destruct s as [|x s'].
    { destruct greedy; [exact Hstop|]. destruct (k [] caps); [exact Hstop | discriminate]. }
    destruct (p x) eqn:Ep.
    + rewrite ltb_tail.
      assert (Hmore : star_loop (rmatch (Class p) total) (clear_groups (Class p))
                                greedy k f s' caps = Some res ->
                      exists a b, x :: s' = a ++ b /\ Forall (fun c => p c = true) a
                                  /\ k b caps = Some res).
      { intros H. destruct (IH s' H) as (a & b & -> & Ha & Hb).
        exists (x :: a), b. repeat split; auto. }
      destruct greedy.
      * destruct (star_loop _ _ true k f s' caps) eqn:E; [|exact Hstop].
        intros H. apply Hmore. now rewrite <- H.
      * destruct (k (x :: s') caps) eqn:Ek; [|exact Hmore].
        intros H. apply Hstop. exact H.
    + destruct greedy; [exact Hstop|].
      destruct (k (x :: s') caps); [exact Hstop | discriminate].
Qed.

Lemma rmatch_star (greedy : bool) (p : char -> bool) (total : nat) (s : str)
      (caps : captures) (k : cont) :
  rmatch (Star greedy (Class p)) total s caps k
  = class_loop p total greedy k (length s) s caps.
Proof. reflexivity. Qed.

(** ** The optional newline *)

Lemma opt_newline_skip (total : nat) (s : str) (caps : captures) (k : cont) :
  head_is (fun c => c =? 10) s = false ->
  rmatch (Opt (Chr 10)) total s caps k = k s caps.
Proof.
  intros H. cbn [rmatch]. destruct s as [|x s']; [reflexivity|].
  cbn [head_is] in H. now rewrite H.
Qed.

Lemma opt_newline_sound (total : nat) (s : str) (caps : captures) (k : cont)
      (res : str * captures) :
  rmatch (Opt (Chr 10)) total s caps k = Some res ->
  (exists s', s = 10 :: s' /\ k s' caps = Some res) \/ k s caps = Some res.
Proof.
  cbn [rmatch]. destruct s as [|x s']; [auto|].
  destruct (N.eqb_spec x 10) as [->|]; [|auto].
  rewrite ltb_tail. change (clear_groups (Chr 10) caps) with caps.
  destruct (k s' caps) eqn:E; [|auto].
  intros H. left. exists s'. split; [reflexivity|]. now rewrite <- H.
Qed.

(** ** The closing fence: optional newline, white space, three backticks,
    end of input *)

Lemma rmatch_seq (a b : regex) (total : nat) (s : str) (caps : captures) (k : cont) :
  rmatch (Seq a b) total s caps k
  = rmatch a total s caps (fun s' caps' => rmatch b total s' caps' k).
Proof. reflexivity. Qed.

Lemma ticksEnd_sound (total : nat) (s : str) (caps : captures)
      (res : str * captures) :
  rmatch ticksEnd total s caps done = Some res -> s = ticks /\ res = ([], caps).
Proof.
  unfold ticksEnd. cbn [cat fold_right rmatch].
  destruct s as [|a [|b [|c [|d s]]]]; try discriminate;
    destruct (N.eqb_spec a 96) as [->|]; try discriminate;
    try (destruct (N.eqb_spec b 96) as [->|]; try discriminate);
    try (destruct (N.eqb_spec c 96) as [->|]; try discriminate).
  unfold done. intros H. injection H as <-. split; reflexivity.
Qed.

Lemma spaceTicks_sound (total : nat) (s : str) (caps : captures)
      (res : str * captures) :
  rmatch spaceTicks total s caps done = Some res ->
  exists w, s = w ++ ticks /\ Forall (fun c => isWhiteSpace c = true) w
            /\ res = ([], caps).
Proof.
  unfold spaceTicks. rewrite rmatch_seq, rmatch_star. intros H.
  destruct (star_class_sound _ _ _ _ _ _ _ _ H) as (a & b & -> & Ha & Hb).
  destruct (ticksEnd_sound total _ _ _ Hb) as [-> ->]. now exists a.
Qed.

Lemma spaceTicks_match (total : nat) (w : str) (caps : captures) :
  Forall (fun c => isWhiteSpace c = true) w ->
  rmatch spaceTicks total (w ++ ticks) caps done = Some ([], caps).
Proof.
  intros Hw. unfold spaceTicks. rewrite rmatch_seq, rmatch_star.
  apply star_greedy_max; auto. rewrite length_app. lia.
Qed.

Lemma fenceTail_sound (total : nat) (s : str) (caps : captures)
      (res : str * captures) :
  rmatch fenceTail total s caps done = Some res ->
  exists w, s = w ++ ticks /\ Forall (fun c => isWhiteSpace c = true) w
            /\ res = ([], caps).
Proof.
  unfold fenceTail. rewrite rmatch_seq. intros H.
  apply (opt_newline_sound total) in H as [(s' & -> & H)|H].
  - destruct (spaceTicks_sound total _ _ _ H) as (w & -> & Hw & ->).
    exists (10 :: w). repeat split; auto.
  - now apply (spaceTicks_sound total).
Qed.

Lemma fenceTail_match (total : nat) (w : str) (caps : captures) :
  Forall (fun c => isWhiteSpace c = true) w ->
  rmatch fenceTail total (w ++ ticks) caps done = Some ([], caps).
Proof.
  intros Hw. unfold fenceTail. rewrite rmatch_seq.
  destruct w as [|x w'].
  - now apply spaceTicks_match.
  - cbn [app rmatch]. destruct (N.eqb_spec x 10) as [->|Hx].
    + rewrite ltb_tail. change (clear_groups (Chr 10) caps) with caps.
      inversion Hw; subst.
      change (rmatch (Star true (Class isWhiteSpace)) total (w' ++ ticks) caps
                (fun s' caps' => rmatch ticksEnd total s' caps' done))
        with (rmatch spaceTicks total (w' ++ ticks) caps done).
      now rewrite spaceTicks_match.
    + change (x :: w' ++ ticks) with ((x :: w') ++ ticks).
      change (rmatch (Star true (Class isWhiteSpace)) total ((x :: w') ++ ticks) caps
                (fun s' caps' => rmatch ticksEnd total s' caps' done))
        with (rmatch spaceTicks total ((x :: w') ++ ticks) caps done).
      now apply spaceTicks_match.
Qed.

(** ** The fence pattern as a whole *)

Lemma fenceRegex_shape :
  fenceRegex
  = Seq Bol (Seq (Chr 96) (Seq (Chr 96) (Seq (Chr 96) (Seq langTag fenceBody)))).
Proof. reflexivity. Qed.

Lemma firstn_app_exact (a b : str) : firstn (length (a ++ b) - length b) (a ++ b) = a.
Proof.
  rewrite length_app. replace (length a + length b - length b)%nat with (length a) by lia.
  rewrite firstn_app, Nat.sub_diag, firstn_all. simpl. apply app_nil_r.
Qed.

Lemma last_of_suffix (a1 a2 body : str) (z : char) :
  a1 ++ a2 = body ++ [z] -> a2 <> [] -> exists a2', a2 = a2' ++ [z].
Proof.
  intros H Hne. destruct (@exists_last _ a2 Hne) as (a2' & y & ->).
  rewrite app_assoc in H. apply app_inj_tail in H as [_ ->]. now exists a2'.
Qed.

Lemma fenceInner_match (total : nat) (caps : captures) (core w2 : str) :
  lastOk core ->
  Forall (fun c => isWhiteSpace c = true) w2 ->
  rmatch fenceInner total (core ++ w2 ++ ticks) caps done
  = Some ([], set_capture 2 (Some core) caps).
Proof.
  intros (body & z & Hcore & Hz) Hw2.
  unfold fenceInner. rewrite rmatch_seq. cbn [rmatch].
  change (star_loop (rmatch (Class anyChar) total) (clear_groups (Class anyChar)))
    with (class_loop anyChar total).
  apply (star_lazy_first total).
  - rewrite firstn_app_exact. now apply fenceTail_match.
  - intros a1 a2 Ha Hne.
    destruct (rmatch fenceTail total (a2 ++ w2 ++ ticks) _ done) as [res|] eqn:E;
      [|reflexivity].
    exfalso. apply fenceTail_sound in E as (w & Hw & Hall & _).
    rewrite app_assoc in Hw. apply app_inv_tail in Hw. subst w.
    rewrite Hcore in Ha. symmetry in Ha.
    destruct (last_of_suffix _ _ _ _ Ha Hne) as (a2' & ->).
    apply Forall_app in Hall as [Hall _]. apply Forall_app in Hall as [_ Hall].
    inversion Hall; subst. congruence.
  - rewrite length_app. lia.
Qed.

Lemma solid_not_newline (s : str) :
  head_is isWhiteSpace s = false -> head_is (fun c => c =? 10) s = false.
Proof.
  destruct s as [|c s]; [reflexivity|]. cbn [head_is].
  destruct (N.eqb_spec c 10) as [->|]; [discriminate | reflexivity].
Qed.

Lemma fenceBody_match (total : nat) (caps : captures) (w1 core w2 : str) :
  Forall (fun c => isWhiteSpace c = true) w1 ->
  firstOk core -> lastOk core ->
  Forall (fun c => isWhiteSpace c = true) w2 ->
  rmatch fenceBody total (w1 ++ core ++ w2 ++ ticks) caps done
  = Some ([], set_capture 2 (Some core) caps).
Proof.
  intros Hw1 (c0 & rest0 & Hc & Hc0 & _) Hl Hw2.
  unfold fenceBody. rewrite rmatch_seq, rmatch_star.
  apply star_greedy_max; auto.
  - rewrite Hc. exact Hc0.
  - rewrite rmatch_seq, opt_newline_skip.
    + now apply fenceInner_match.
    + apply solid_not_newline. rewrite Hc. exact Hc0.
  - rewrite length_app. lia.
Qed.

Lemma class_loop_stuck (p : char -> bool) (total : nat) (greedy : bool) (k : cont)
      (caps : captures) (s : str) :
  head_is p s = false -> k s caps = None ->
  forall fuel, class_loop p total greedy k fuel s caps = None.
Proof.
  intros Hs Hk [|f]; unfold class_loop; cbn [star_loop rmatch]; [exact Hk|].
  rewrite Hk. destruct s as [|x s']; [now destruct greedy|].
  cbn [head_is] in Hs. rewrite Hs. now destruct greedy.
Qed.

Lemma rmatch_opt (a : regex) (total : nat) (s : str) (caps : captures) (k : cont) :
  rmatch (Opt a) total s caps k
  = match rmatch a total s (clear_groups a caps)
            (fun s' caps' =>
               if Nat.ltb (length s') (length s) then k s' caps' else None)
    with
    | Some res => Some res
    | None => k s caps
    end.
Proof. reflexivity. Qed.

Lemma rmatch_group (i : nat) (a : regex) (total : nat) (s : str) (caps : captures)
      (k : cont) :
  rmatch (Group i a) total s caps k
  = rmatch a total s caps
      (fun s' caps' =>
         k s' (set_capture i (Some (firstn (length s - length s') s)) caps')).
Proof. reflexivity. Qed.

(** The optional language tag takes every word character, and the rest of
    the pattern goes on after it. *)
Lemma langTag_match (total : nat) (caps : captures) (lang rest : str) (k : cont)
      (P : str * captures -> Prop) :
  Forall (fun c => isWord c = true) lang ->
  head_is isWord rest = false ->
  (forall caps', exists res, k rest caps' = Some res /\ P res) ->
  exists res, rmatch langTag total (lang ++ rest) caps k = Some res /\ P res.
Proof.
  intros Hl Hr Hk. unfold langTag. rewrite rmatch_opt, rmatch_group, rmatch_star.
  destruct lang as [|c lang'].
  - cbn [app]. rewrite class_loop_stuck.
    + apply Hk.
    + exact Hr.
    + now rewrite Nat.ltb_irrefl.
  - match goal with
    | |- context [class_loop isWord total true ?k0 _ _ ?c0] =>
        destruct (Hk (set_capture 1 (Some (firstn (length ((c :: lang') ++ rest) - length rest)
                                                  ((c :: lang') ++ rest))) c0))
          as (res & Hres & HP);
        assert (E : class_loop isWord total true k0
                      (length ((c :: lang') ++ rest)) ((c :: lang') ++ rest) c0
                    = Some res)
    end.
    { apply star_greedy_max; auto.
      - rewrite (proj2 (Nat.ltb_lt _ _)); [exact Hres|].
        rewrite length_app. simpl. lia.
      - rewrite length_app. lia. }
    rewrite E. exists res. auto.
Qed.

Lemma exec_from_late (total : nat) :
  forall s, (length s < total)%nat -> exec_from fenceRegex total s = None.
Proof.
  induction s as [|c s IH]; intros Hlt.
  - cbn [exec_from]. rewrite fenceRegex_shape. cbn [rmatch].
    rewrite (proj2 (Nat.eqb_neq _ _)); [reflexivity | lia].
  - cbn [exec_from]. rewrite fenceRegex_shape. cbn [rmatch].
    rewrite (proj2 (Nat.eqb_neq _ _)) by lia.
    rewrite <- fenceRegex_shape. apply IH. simpl in Hlt. lia.
Qed.

(** A text that does not start with a backtick is not a fence. *)
Lemma exec_fence_none (s : str) :
  head_is (fun c => c =? 96) s = false -> exec fenceRegex s = None.
Proof.
  intros H. unfold exec. destruct s as [|c s'].
  - reflexivity.
  - cbn [exec_from]. rewrite fenceRegex_shape. cbn [rmatch].
    rewrite Nat.eqb_refl. cbn [head_is] in H. rewrite H.
    rewrite <- fenceRegex_shape. apply exec_from_late. simpl. lia.
Qed.

Lemma exec_from_cons (r : regex) (total : nat) (c : char) (s : str) :
  exec_from r total (c :: s)
  = match rmatch r total (c :: s) no_captures done with
    | Some (rest, caps) =>
        Some {| whole := firstn (length (c :: s) - length rest) (c :: s);
                group := caps |}
    | None => exec_from r total s
    end.
Proof. reflexivity. Qed.

Lemma rmatch_bol (total : nat) (s : str) (caps : captures) (k : cont) :
  rmatch Bol total s caps k = if Nat.eqb (length s) total then k s caps else None.
Proof. reflexivity. Qed.

Lemma rmatch_chr (c : char) (total : nat) (x : char) (s' : str) (caps : captures)
      (k : cont) :
  rmatch (Chr c) total (x :: s') caps k = if x =? c then k s' caps else None.
Proof. reflexivity. Qed.

(** A fenced text matches, and group 2 is the interior without the white
    space around it. *)
Lemma exec_fence_match (lang w1 core w2 : str) :
  Forall (fun c => isWord c = true) lang ->
  Forall (fun c => isWhiteSpace c = true) w1 ->
  head_is isWord (w1 ++ core) = false ->
  firstOk core -> lastOk core ->
  Forall (fun c => isWhiteSpace c = true) w2 ->
  exists m,
    exec fenceRegex (ticks ++ lang ++ w1 ++ core ++ w2 ++ ticks) = Some m
    /\ group m 2 = Some core.
Proof.
  intros Hlang Hw1 Hhead Hf Hl Hw2.
  unfold exec. cbn [app ticks]. rewrite exec_from_cons.
  rewrite fenceRegex_shape.
  rewrite rmatch_seq, rmatch_bol, Nat.eqb_refl.
  rewrite rmatch_seq, rmatch_chr, N.eqb_refl.
  rewrite rmatch_seq, rmatch_chr, N.eqb_refl.
  rewrite rmatch_seq, rmatch_chr, N.eqb_refl.
  rewrite rmatch_seq.
  match goal with
  | |- context [rmatch langTag ?t (lang ++ ?rest) ?c ?k] =>
      destruct (langTag_match t c lang rest k
                  (fun res => exists caps', res = ([], set_capture 2 (Some core) caps'))
                  Hlang)
        as (res & Hres & caps' & ->)
  end.
  - rewrite app_assoc, head_is_app.
    destruct (w1 ++ core) eqn:E; [|exact Hhead].
    destruct Hf as (c0 & rest0 & -> & _). now destruct w1.
  - intros caps'. eexists. split; [now apply fenceBody_match|]. now exists caps'.
  - cbn [app ticks] in Hres. rewrite Hres.
    eexists. split; reflexivity.
Qed.

(** ** Decoding valid JSON, bare or fenced *)

Lemma stripFence_bare (core : str) : firstOk core -> stripFence core = core.
Proof.
  intros (c0 & rest0 & -> & _ & H96). unfold stripFence.
  now rewrite exec_fence_none.
Qed.

Lemma stripFence_fence (lang w1 core w2 : str) :
  Forall (fun c => isWord c = true) lang ->
  Forall (fun c => isWhiteSpace c = true) w1 ->
  Forall (fun c => isWhiteSpace c = true) w2 ->
  firstOk core -> lastOk core ->
  stripFence (ticks ++ lang ++ (10 :: w1) ++ core ++ (w2 ++ [10]) ++ ticks) = core.
Proof.
  intros Hlang Hw1 Hw2 Hf Hl. unfold stripFence.
  destruct (exec_fence_match lang (10 :: w1) core (w2 ++ [10]))
    as (m & Hm & Hg); auto.
  - apply Forall_app. split; [exact Hw2 | now constructor].
  - match goal with
    | |- context [exec fenceRegex ?s] =>
        assert (E : exec fenceRegex s = Some m) by exact Hm; rewrite E
    end.
    rewrite Hg.
    destruct Hf as (c0 & rest0 & Hc & Hc0 & H96). rewrite Hc at 1. cbn [nonEmpty].
    apply trim_solid; [|exact Hl]. exists c0, rest0. auto.
Qed.

Lemma parseJsonFromText_valid (text : str) (b : bool) (core : str) (v : value) :
  stripFence (trim text) = core -> JSON_parse core = Some v ->
  parseJsonFromText text b = v.
Proof. intros H1 H2. unfold parseJsonFromText. now rewrite H1, H2. Qed.

Lemma fence_solid (lang t : str) : firstSolid (fence lang t) /\ lastOk (fence lang t).
Proof.
  split.
  - eexists _, _. split; reflexivity.
  - exists (ticks ++ lang ++ [10] ++ t ++ [10] ++ [96; 96]), 96.
    split; [|reflexivity]. unfold fence, ticks. now rewrite <- !app_assoc.
Qed.

Lemma stripFence_wrapped (lang w1 core w2 : str) :
  Forall (fun c => isWord c = true) lang ->
  Forall (fun c => isWhiteSpace c = true) w1 ->
  Forall (fun c => isWhiteSpace c = true) w2 ->
  head_is isWord (w1 ++ core) = false ->
  firstOk core -> lastOk core ->
  stripFence (ticks ++ lang ++ w1 ++ core ++ w2 ++ ticks) = core.
Proof.
  intros Hlang Hw1 Hw2 Hhead Hf Hl. unfold stripFence.
  destruct (exec_fence_match lang w1 core w2) as (m & Hm & Hg); auto.
  match goal with
  | |- context [exec fenceRegex ?s] =>
      assert (E : exec fenceRegex s = Some m) by exact Hm; rewrite E
  end.
  rewrite Hg.
  destruct Hf as (c0 & rest0 & Hc & Hc0 & H96). rewrite Hc at 1. cbn [nonEmpty].
  apply trim_solid; [|exact Hl]. exists c0, rest0. auto.
Qed.

Lemma wrapped_solid (body : str) :
  firstSolid (ticks ++ body ++ ticks) /\ lastOk (ticks ++ body ++ ticks).
Proof.
  split.
  - eexists _, _. split; reflexivity.
  - exists (ticks ++ body ++ [96; 96]), 96.
    split; [|reflexivity]. unfold ticks. now rewrite <- !app_assoc.
Qed.

(** C7, as the code has it. A text that [JSON.parse] accepts decodes to
    the value of that strict parse, and so does the same text between
    three backticks and three backticks, with a language tag of word
    characters (or none) after the opening ones and white space (or none)
    on either side of the text, provided the tag ends where the text
    begins: white space follows the tag, or the text starts with a
    character that is no word character. This holds whether an array is
    expected or not. *)
Theorem C7_valid_json_bare_or_fenced
        (t : str) (v : value) (lang w1 w2 : str) (b : bool) :
  JSON_parse t = Some v ->
  Forall (fun c => isWord c = true) lang ->
  Forall (fun c => isWhiteSpace c = true) w1 ->
  Forall (fun c => isWhiteSpace c = true) w2 ->
  head_is isWord (w1 ++ t) = false ->
  parseJsonFromText t b = v
  /\ parseJsonFromText (ticks ++ lang ++ w1 ++ t ++ w2 ++ ticks) b = v.
Proof.
  intros Hp Hlang Hw1 Hw2 Hhead.
  destruct (JSON_parse_core t v Hp) as (a & core & c & -> & Ha & Hc & Hvt & Hcore).
  pose proof Hvt as (Hf & Hl & _).
  split.
  - apply (parseJsonFromText_valid _ _ core); [|exact Hcore].
    rewrite trim_core; auto using firstOk_solid, ws_is_space.
    now apply stripFence_bare.
  - apply (parseJsonFromText_valid _ _ core); [|exact Hcore].
    replace (ticks ++ lang ++ w1 ++ (a ++ core ++ c) ++ w2 ++ ticks)
      with (ticks ++ (lang ++ (w1 ++ a) ++ core ++ (c ++ w2)) ++ ticks)
      by (now rewrite <- !app_assoc).
    destruct (wrapped_solid (lang ++ (w1 ++ a) ++ core ++ (c ++ w2))) as [Hfs Hls].
    rewrite trim_solid by assumption.
    replace (ticks ++ (lang ++ (w1 ++ a) ++ core ++ (c ++ w2)) ++ ticks)
      with (ticks ++ lang ++ (w1 ++ a) ++ core ++ (c ++ w2) ++ ticks)
      by (now rewrite <- !app_assoc).
    apply stripFence_wrapped; auto.
    + apply Forall_app. split; [exact Hw1 | now apply ws_is_space].
    + apply Forall_app. split; [now apply ws_is_space | exact Hw2].
    + rewrite <- Hhead. rewrite <- !app_assoc.
      destruct Hf as (c0 & rest0 & -> & _).
      destruct w1; [|reflexivity]. destruct a; reflexivity.
Qed.

(** The block form, with a tag, a carriage return and a line feed before
    the text and a line feed after it; and the form on one line before a
    text that starts with a bracket. *)
Lemma C7_witness :
  (parseJsonFromText (jq "[{'title':'A'}]") true = JArray [objA]
   /\ parseJsonFromText
        (ticks ++ lit "json" ++ [13; 10] ++ jq "[{'title':'A'}]" ++ [10] ++ ticks)
        true
      = JArray [objA])
  /\ (parseJsonFromText (jq "[{'title':'A'}]") false = JArray [objA]
      /\ parseJsonFromText (ticks ++ [] ++ [] ++ jq "[{'title':'A'}]" ++ [] ++ ticks)
           false
         = JArray [objA]).
Proof.
  split.
  - apply (C7_valid_json_bare_or_fenced (jq "[{'title':'A'}]") (JArray [objA])
             (lit "json") [13; 10] [10] true).
    + vm_compute; reflexivity.
    + repeat constructor.
    + repeat constructor.
    + repeat constructor.
    + reflexivity.
  - apply (C7_valid_json_bare_or_fenced (jq "[{'title':'A'}]") (JArray [objA])
             [] [] [] false).
    + vm_compute; reflexivity.
    + constructor.
    + constructor.
    + constructor.
    + reflexivity.
Defined.

(** Outside that form the fence is not always undone: on one line the
    language tag takes the text, and a tag with punctuation leaks into it. *)
Example fence_on_one_line :
  JSON_parse (lit "true") = Some (JBool true)
  /\ parseJsonFromText (ticks ++ lit "true" ++ ticks) false = JNull.
Proof. split; vm_compute; reflexivity. Qed.

Example fence_tag_with_punctuation :
  parseJsonFromText (fence (lit "c++") (lit "true")) false = JNull.
Proof. vm_compute; reflexivity. Qed.

(** C7 as stated fails on other fences that span the whole text. Written
    on one line around [true], the tag group takes the text and the
    decoder returns null; with the tag [c++] the punctuation of the tag
    becomes part of the interior, and the decoder returns null again. *)
Lemma C7_counterexample :
  (JSON_parse (lit "true") = Some (JBool true)
   /\ parseJsonFromText (ticks ++ lit "true" ++ ticks) false = JNull
   /\ JNull <> JBool true)
  /\ (fence (lit "c++") (lit "true")
      = ticks ++ lit "c++" ++ [10] ++ lit "true" ++ [10] ++ ticks
      /\ parseJsonFromText (fence (lit "c++") (lit "true")) false = JNull).
Proof.
  split; [split; [|split]|split]; try (vm_compute; reflexivity). discriminate.
Qed.

(** ** The scan as a fold over the characters *)

Lemma backslashCount_prefix (content extra : str) (i : nat) :
  (i <= length content)%nat ->
  backslashCount (content ++ extra) i = backslashCount content i.
Proof.
  induction i as [|j IH]; intros H; cbn [backslashCount]; [reflexivity|].
  rewrite app_nth1 by lia. rewrite IH by lia. reflexivity.
Qed.

Lemma backslashCount_snoc (pre : str) (c : char) :
  backslashCount (pre ++ [c]) (S (length pre))
  = nextRun (backslashCount pre (length pre)) c.
Proof.
  cbn [backslashCount]. rewrite nth_middle.
  rewrite backslashCount_prefix by lia. reflexivity.
Qed.

Lemma scanLoop_sfold (rest pre : str) (st : Scan) :
  scanLoop (pre ++ rest) (length rest) (length pre) st
  = sfold (backslashCount pre (length pre)) rest st.
Proof.
  revert pre st. induction rest as [|c rest IH]; intros pre st.
  - reflexivity.
  - cbn [length scanLoop sfold]. unfold scanStep.
    rewrite nth_middle. rewrite backslashCount_prefix by lia.
    replace (pre ++ c :: rest) with ((pre ++ [c]) ++ rest)
      by (rewrite <- app_assoc; reflexivity).
    replace (S (length pre)) with (length (pre ++ [c]))
      by (rewrite length_app; cbn [length]; lia).
    rewrite IH. rewrite length_app. cbn [length].
    replace (length pre + 1)%nat with (S (length pre)) by lia.
    now rewrite backslashCount_snoc.
Qed.

Lemma scanArray_sfold (content : str) :
  scanArray content
  = sfold 0 content
      {| buffer := []; depth := 0; inString := false; extractedObjects := [] |}.
Proof. unfold scanArray. exact (scanLoop_sfold content [] _). Qed.

Lemma sfold_app (a b : str) (run : nat) (st : Scan) :
  sfold run (a ++ b) st = sfold (runAfter run a) b (sfold run a st).
Proof.
  revert run st. induction a as [|c a IH]; intros run st; [reflexivity|].
  cbn [app sfold]. unfold runAfter. cbn [fold_left]. apply IH.
Qed.

Lemma runAfter_snoc (run : nat) (a : str) (c : char) :
  runAfter run (a ++ [c]) = nextRun (runAfter run a) c.
Proof. unfold runAfter. now rewrite fold_left_app. Qed.

(** ** Relating the scan to the tracker *)

Lemma scanChar_track (c : char) (run : nat) (st : Scan) :
  track (scanChar c run st) (nextRun run c) = tstep (track st run) c.
Proof.
  unfold scanChar, tstep, track, nextRun. cbn [t_in t_depth t_run].
  set (ins := if c =? 34 then _ else _).
  destruct (negb ins) eqn:Ei; cbn [andb].
  - destruct (c =? 123) eqn:E1.
    + apply N.eqb_eq in E1. subst c. rewrite Bool.andb_false_r. cbn -[Z.add].
      destruct (depth st + 1 =? 0)%Z; cbn -[Z.add]; rewrite ?Ei; reflexivity.
    + destruct (c =? 125) eqn:E2.
      * rewrite Bool.andb_true_r.
        destruct (depth st - 1 =? 0)%Z eqn:Ed.
        -- destruct (startsWith _ _); [destruct (JSON_parse _)|];
             cbn [inString depth]; rewrite ?Ei; reflexivity.
        -- destruct (c =? 44); cbn [andb inString depth]; rewrite ?Ei; reflexivity.
      * rewrite Bool.andb_false_r.
        destruct ((depth st =? 0)%Z && (c =? 44)); cbn [inString depth];
          rewrite ?Ei; reflexivity.
  - reflexivity.
Qed.

(** ** Single steps of the scan *)

Lemma scanChar_plain (c : char) (run : nat) (st : Scan) :
  inString st = false -> plain c = true ->
  scanChar c run st
  = {| buffer := buffer st ++ [c]; depth := depth st; inString := false;
       extractedObjects := extractedObjects st |}.
Proof.
  intros Hin Hp. unfold plain in Hp.
  apply Bool.andb_true_iff in Hp as (Hp & H44).
  apply Bool.andb_true_iff in Hp as (Hp & H125).
  apply Bool.andb_true_iff in Hp as (H34 & H123).
  apply Bool.negb_true_iff in H34, H123, H125, H44.
  unfold scanChar. rewrite H34, Hin. cbn [negb]. rewrite H123, H125, H44.
  rewrite !Bool.andb_false_r. reflexivity.
Qed.

Lemma scanChar_comma (run : nat) (st : Scan) :
  inString st = false -> depth st = 0%Z ->
  scanChar 44 run st
  = {| buffer := []; depth := 0; inString := false;
       extractedObjects := extractedObjects st |}.
Proof. intros Hin Hd. unfold scanChar. rewrite Hin, Hd. reflexivity. Qed.

Lemma scanChar_open (run : nat) (st : Scan) :
  inString st = false -> depth st = 0%Z ->
  scanChar 123 run st
  = {| buffer := [123]; depth := 1; inString := false;
       extractedObjects := extractedObjects st |}.
Proof. intros Hin Hd. unfold scanChar. rewrite Hin, Hd. reflexivity. Qed.

Lemma scanChar_close (run : nat) (st : Scan) (obj : value) :
  inString st = false -> depth st = 1%Z ->
  startsWith (trim (buffer st ++ [125])) (lit "{") = true ->
  JSON_parse (buffer st ++ [125]) = Some obj ->
  scanChar 125 run st
  = {| buffer := []; depth := 0; inString := false;
       extractedObjects := extractedObjects st ++ [obj] |}.
Proof.
  intros Hin Hd Hs Hp. unfold scanChar. rewrite Hin, Hd.
  change (125 =? 34) with false. change (125 =? 123) with false.
  change (125 =? 125) with true. cbn [negb].
  change (1 - 1 =? 0)%Z with true. cbn [andb].
  match goal with
  | |- context [startsWith ?a ?b] =>
      assert (E : startsWith a b = true) by exact Hs; rewrite E
  end.
  match goal with
  | |- context [JSON_parse ?a] =>
      assert (E' : JSON_parse a = Some obj) by exact Hp; rewrite E'
  end.
  reflexivity.
Qed.

(** Inside an object nothing is extracted and nothing is dropped. *)
Lemma scanChar_deep (c : char) (run : nat) (st : Scan) :
  (1 <= depth st)%Z -> (1 <= t_depth (tstep (track st run) c))%Z ->
  scanChar c run st
  = {| buffer := buffer st ++ [c];
       depth := t_depth (tstep (track st run) c);
       inString := t_in (tstep (track st run) c);
       extractedObjects := extractedObjects st |}.
Proof.
  intros Hd Hd'. rewrite <- scanChar_track in Hd'. rewrite <- scanChar_track.
  unfold track in *. cbn [t_in t_depth] in *. revert Hd'.
  unfold scanChar.
  set (ins := if c =? 34 then _ else _).
  assert (Hz : (depth st =? 0)%Z = false) by (apply Z.eqb_neq; lia).
  destruct (negb ins) eqn:Ei; cbn [andb].
  - destruct (c =? 123) eqn:E1.
    + rewrite Hz. apply N.eqb_eq in E1. subst c.
      cbn [N.eqb Pos.eqb andb]. rewrite !Bool.andb_false_r.
      cbn [depth inString]. intros _. reflexivity.
    + destruct (c =? 125) eqn:E2.
      * rewrite Bool.andb_true_r.
        destruct (depth st - 1 =? 0)%Z eqn:Ed.
        -- apply Z.eqb_eq in Ed.
           destruct (startsWith _ _); [destruct (JSON_parse _)|];
             cbn [depth]; intros; lia.
        -- apply N.eqb_eq in E2. subst c. cbn [N.eqb Pos.eqb andb].
           cbn [depth inString]. intros _. reflexivity.
      * rewrite Bool.andb_false_r. rewrite Hz. cbn [andb depth inString].
        intros _. reflexivity.
  - cbn [depth inString]. intros _. reflexivity.
Qed.

Lemma sfold_deep (mid : str) (run : nat) (st : Scan) :
  (1 <= depth st)%Z -> above 1 (track st run) mid ->
  sfold run mid st
  = {| buffer := buffer st ++ mid;
       depth := t_depth (trun (track st run) mid);
       inString := t_in (trun (track st run) mid);
       extractedObjects := extractedObjects st |}.
Proof.
  revert run st. induction mid as [|c mid IH]; intros run st Hd Ha.
  - cbn [sfold trun]. rewrite app_nil_r. now destruct st.
  - cbn [sfold trun above] in *. destruct Ha as (Hc & Ha).
    assert (Ht : track (scanChar c run st) (nextRun run c) = tstep (track st run) c)
      by apply scanChar_track.
    rewrite IH.
    + rewrite Ht. rewrite scanChar_deep by assumption.
      cbn [buffer extractedObjects]. now rewrite <- app_assoc.
    + rewrite scanChar_deep by assumption. exact Hc.
    + now rewrite Ht.
Qed.

Lemma is_ws_plain (c : char) : is_ws c = true -> plain c = true.
Proof.
  unfold is_ws, plain. intros H.
  repeat (apply Bool.orb_true_iff in H as [H|H]);
    apply N.eqb_eq in H; subst c; reflexivity.
Qed.

Lemma sfold_ws (w : str) (run : nat) (st : Scan) :
  Forall (fun c => is_ws c = true) w -> inString st = false ->
  sfold run w st
  = {| buffer := buffer st ++ w; depth := depth st; inString := false;
       extractedObjects := extractedObjects st |}.
Proof.
  intros Hw. revert run st. induction Hw as [|c w Hc _ IH]; intros run st Hin.
  - cbn [sfold]. rewrite app_nil_r. destruct st. cbn in *. now subst.
  - cbn [sfold]. rewrite scanChar_plain by (auto using is_ws_plain).
    rewrite IH by reflexivity. cbn [buffer depth extractedObjects].
    now rewrite <- app_assoc.
Qed.

Lemma runAfter_ws (w : str) (run : nat) :
  Forall (fun c => is_ws c = true) w -> w <> [] -> runAfter run w = O.
Proof.
  intros Hw Hne. destruct (exists_last Hne) as (a & c & ->).
  rewrite runAfter_snoc. apply Forall_app in Hw as (_ & Hc).
  inversion Hc as [|? ? Hc' _]; subst. unfold nextRun.
  destruct (c =? 92) eqn:E; [|reflexivity].
  apply N.eqb_eq in E. subst c. discriminate.
Qed.

(** The run of backslashes matters only in front of a quote. *)
Lemma scanChar_run (c : char) (r r' : nat) (st : Scan) :
  (c =? 34) = false -> scanChar c r st = scanChar c r' st.
Proof. intros H. unfold scanChar. now rewrite H. Qed.

Lemma sfold_run (s : str) (r r' : nat) (st : Scan) :
  head_is (fun c => c =? 34) s = false -> s <> [] ->
  head_is (fun c => c =? 92) s = false ->
  sfold r s st = sfold r' s st.
Proof.
  destruct s as [|c s]; [congruence|]. cbn [head_is sfold]. intros H _ H92.
  rewrite (scanChar_run c r r') by exact H. unfold nextRun. now rewrite H92.
Qed.

(** A complete object at depth zero is extracted when its closing brace
    is read. *)
Lemma sfold_object (mid : str) (v : value) (run : nat) (st : Scan) :
  Quiet mid -> JSON_parse (123 :: mid ++ [125]) = Some v ->
  inString st = false -> depth st = 0%Z ->
  sfold run (123 :: mid ++ [125]) st
  = {| buffer := []; depth := 0; inString := false;
       extractedObjects := extractedObjects st ++ [v] |}.
Proof.
  intros Hq Hp Hin Hd. cbn [sfold].
  rewrite scanChar_open by assumption.
  change (nextRun run 123) with O.
  rewrite sfold_app.
  destruct (Hq 1%Z) as (Hrun & Habove).
  rewrite (sfold_deep mid).
  2:{ cbn [depth]. lia. }
  2:{ exact Habove. }
  unfold track. cbn [inString depth buffer extractedObjects].
  rewrite Hrun. cbn [t_in t_depth sfold].
  erewrite scanChar_close; [reflexivity|reflexivity|reflexivity| |].
  - cbn [buffer]. rewrite trim_solid; [reflexivity| |].
    + exists 123, (mid ++ [125]). split; reflexivity.
    + exists (123 :: mid), 125. split; reflexivity.
  - exact Hp.
Qed.

(** ** Object texts *)

Lemma object_shape (o : str) (v : value) :
  ObjectText o v ->
  exists w mid w',
    o = w ++ (123 :: mid ++ [125]) ++ w'
    /\ Forall (fun c => is_ws c = true) w
    /\ Forall (fun c => is_ws c = true) w'
    /\ Quiet mid
    /\ ValueText (123 :: mid ++ [125]) v
    /\ JSON_parse (123 :: mid ++ [125]) = Some v.
Proof.
  intros (Hp & Ho).
  destruct (JSON_parse_core o v Hp) as (w & core & w' & Ht & Hw & Hw' & Hvt & Hc).
  destruct v as [| | | | |members]; try discriminate.
  pose proof Hvt as (_ & _ & _ & Hopen & Hobj & _).
  destruct (Hopen (Hobj _ eq_refl)) as (mid & props & Hcore & Hq & _).
  subst core. exists w, mid, w'. repeat (split; [assumption|]). assumption.
Qed.

Lemma runAfter_ws0 (w : str) :
  Forall (fun c => is_ws c = true) w -> runAfter 0 w = O.
Proof.
  intros Hw. destruct w as [|c w]; [reflexivity|].
  apply runAfter_ws; [exact Hw | discriminate].
Qed.

Lemma scan_piece (o : str) (v : value) :
  ObjectText o v ->
  exists w', Forall (fun c => is_ws c = true) w' /\
  forall (rest : str) (run : nat) (st : Scan),
    inString st = false -> depth st = 0%Z ->
    sfold run (o ++ rest) st
    = sfold 0 rest
        {| buffer := w'; depth := 0; inString := false;
           extractedObjects := extractedObjects st ++ [v] |}.
Proof.
  intros Ho.
  destruct (object_shape o v Ho) as (w & mid & w' & -> & Hw & Hw' & Hq & _ & Hp).
  exists w'. split; [exact Hw'|]. intros rest run st Hin Hd.
  rewrite <- !app_assoc. rewrite sfold_app.
  rewrite (sfold_ws w) by assumption.
  rewrite sfold_app.
  rewrite (sfold_object mid v) by (assumption || reflexivity || (cbn [depth]; exact Hd)).
  rewrite sfold_app.
  rewrite (sfold_ws w') by (assumption || reflexivity).
  cbn [buffer depth extractedObjects app].
  replace (runAfter _ w') with O; [reflexivity|].
  change (123 :: mid ++ [125]) with ((123 :: mid) ++ [125]).
  rewrite runAfter_snoc. change (nextRun _ 125) with O.
  symmetry. now apply runAfter_ws0.
Qed.

Lemma scan_seq (objs : list str) (vals : list value) :
  Forall2 ObjectText objs vals -> objs <> [] ->
  forall (rest : str) (run : nat) (st : Scan),
    inString st = false -> depth st = 0%Z ->
    exists b, Forall (fun c => is_ws c = true) b /\
    sfold run (concat_with [44] objs ++ rest) st
    = sfold 0 rest
        {| buffer := b; depth := 0; inString := false;
           extractedObjects := extractedObjects st ++ vals |}.
Proof.
  induction 1 as [|o v objs vals Ho Hrest IH]; [congruence|]. intros _.
  destruct (scan_piece o v Ho) as (w' & Hw' & Hscan).
  intros rest run st Hin Hd.
  destruct Hrest as [|o2 v2 objs vals Ho2 Hrest].
  - exists w'. split; [exact Hw'|]. cbn [concat_with]. now apply Hscan.
  - change (concat_with [44] (o :: o2 :: objs))
      with (o ++ [44] ++ concat_with [44] (o2 :: objs)).
    rewrite <- !app_assoc. rewrite Hscan by assumption.
    cbn [app sfold]. rewrite scanChar_comma by reflexivity.
    change (nextRun 0 44) with O.
    destruct (IH ltac:(discriminate) rest O
                {| buffer := []; depth := 0; inString := false;
                   extractedObjects := extractedObjects st ++ [v] |}
                eq_refl eq_refl) as (b & Hb & Heq).
    exists b. split; [exact Hb|].
    etransitivity; [exact Heq|]. cbn [extractedObjects].
    now rewrite <- app_assoc.
Qed.

(** ** The remainder after the objects *)

Lemma scanChar_cases (c : char) (run : nat) (st : Scan) :
  exists b1,
    (b1 = buffer st \/ b1 = [])
    /\ ((extractedObjects (scanChar c run st) = extractedObjects st
         /\ (buffer (scanChar c run st) = b1 ++ [c]
             \/ buffer (scanChar c run st) = []))
        \/ exists obj,
             startsWith (trim (b1 ++ [c])) (lit "{") = true
             /\ JSON_parse (b1 ++ [c]) = Some obj).
Proof.
  unfold scanChar.
  set (ins := if c =? 34 then _ else _).
  set (p := if negb ins then _ else _).
  assert (Hp : fst p = buffer st \/ fst p = []).
  { subst p. destruct (negb ins); [|now left].
    destruct (c =? 123); [|destruct (c =? 125); now left].
    destruct (depth st =? 0)%Z; cbn [fst]; auto. }
  destruct p as [buffer1 depth1]. cbn [fst] in Hp.
  exists buffer1. split; [exact Hp|].
  destruct (negb ins && (depth1 =? 0)%Z && (c =? 125)).
  - destruct (startsWith _ _) eqn:Es.
    + destruct (JSON_parse _) as [obj|] eqn:Ej.
      * right. exists obj. split; reflexivity.
      * left. cbn [extractedObjects buffer]. auto.
    + left. cbn [extractedObjects buffer]. auto.
  - destruct (negb ins && (depth1 =? 0)%Z && (c =? 44));
      left; cbn [extractedObjects buffer]; auto.
Qed.

Lemma parse_object (s : str) (v : value) :
  JSON_parse s = Some v -> startsWith (trim s) (lit "{") = true ->
  exists props, v = JObject props.
Proof.
  intros Hp Hs.
  destruct (JSON_parse_inv s v Hp) as (w1 & core & w2 & -> & Hw1 & Hw2 & Hvt).
  pose proof Hvt as (Hf & Hl & _ & Hopen & _).
  rewrite trim_core in Hs by auto using firstOk_solid, ws_is_space.
  destruct Hf as (c0 & rest0 & -> & _).
  assert (Ho : opensObject (c0 :: rest0) = true).
  { unfold opensObject. cbn [head_is].
    change (lit "{") with [123] in Hs. cbn [startsWith] in Hs.
    apply Bool.andb_true_iff in Hs as (Hs & _).
    apply N.eqb_eq in Hs. subst c0. reflexivity. }
  destruct (Hopen Ho) as (mid & props & _ & _ & ->). now exists props.
Qed.

Lemma drop_ws (w s : str) (v : value) :
  Forall (fun c => is_ws c = true) w ->
  JSON_parse (w ++ s) = Some v -> JSON_parse s = Some v.
Proof.
  intros Hw. unfold JSON_parse at 1. rewrite skip_ws_app by exact Hw.
  destruct (parse_value _ (skip_ws s)) as [[v0 r]|] eqn:Ep; [|discriminate].
  destruct (skip_ws r) eqn:Er; [|discriminate].
  intros H. injection H as <-. eapply JSON_parse_fuel; eauto.
Qed.

Lemma sfold_tail (todo : str) :
  forall (processed : str) (st : Scan) (run : nat) (b' seg : str),
    buffer st = b' ++ seg ->
    Forall (fun c => is_ws c = true) b' ->
    (exists p, processed = p ++ seg) ->
    NoObj (processed ++ todo) ->
    extractedObjects (sfold run todo st) = extractedObjects st.
Proof.
  induction todo as [|c todo IH]; intros processed st run b' seg Hb Hw (p & Hp) Hno;
    [reflexivity|].
  cbn [sfold].
  assert (Hno' : NoObj ((processed ++ [c]) ++ todo))
    by (rewrite <- app_assoc; exact Hno).
  destruct (scanChar_cases c run st) as (b1 & Hb1 & [(Hex & Hbuf)|(obj & Hs & Hj)]).
  - rewrite <- Hex.
    destruct Hbuf as [Hbuf|Hbuf].
    + destruct Hb1 as [->| ->].
      * apply (IH (processed ++ [c]) _ _ b' (seg ++ [c])).
        -- rewrite Hbuf, Hb. now rewrite <- app_assoc.
        -- exact Hw.
        -- exists p. rewrite Hp. now rewrite <- app_assoc.
        -- exact Hno'.
      * apply (IH (processed ++ [c]) _ _ [] [c]).
        -- exact Hbuf.
        -- constructor.
        -- now exists processed.
        -- exact Hno'.
    + apply (IH (processed ++ [c]) _ _ [] []).
      * exact Hbuf.
      * constructor.
      * exists (processed ++ [c]). now rewrite app_nil_r.
      * exact Hno'.
  - exfalso.
    destruct (parse_object _ _ Hj Hs) as (props & ->).
    destruct Hb1 as [->| ->].
    + rewrite Hb, <- app_assoc in Hj. apply drop_ws in Hj; [|exact Hw].
      apply (Hno p (seg ++ [c]) todo props); [|exact Hj].
      rewrite Hp. rewrite <- !app_assoc. reflexivity.
    + apply (Hno processed ([] ++ [c]) todo props); [|exact Hj]. reflexivity.
Qed.

(** ** Enumerating the pieces of a text *)

Lemma prefixes_In (p q : str) : In p (prefixes (p ++ q)).
Proof.
  induction p as [|c p IH]; cbn [app prefixes].
  - destruct q; now left.
  - right. apply in_map. exact IH.
Qed.

Lemma prefixes_infixes (x s : str) : In x (prefixes s) -> In x (infixes s).
Proof. intros H. destruct s; cbn [infixes]; apply in_or_app; now left. Qed.

Lemma infixes_In (a seg b : str) : In seg (infixes (a ++ seg ++ b)).
Proof.
  induction a as [|c a IH]; cbn [app].
  - apply prefixes_infixes, prefixes_In.
  - cbn [infixes]. apply in_or_app. right. exact IH.
Qed.

Lemma noObjectInside_NoObj (junk : str) : noObjectInside junk = true -> NoObj junk.
Proof.
  intros H a seg b props -> Hp. unfold noObjectInside in H.
  rewrite forallb_forall in H. specialize (H seg (infixes_In a seg b)).
  unfold parsesToObject in H. rewrite Hp in H. discriminate.
Qed.

Lemma all_ws_no_parse (w : str) :
  Forall (fun c => is_ws c = true) w -> JSON_parse w = None.
Proof.
  intros Hw. destruct (JSON_parse w) as [v|] eqn:E; [|reflexivity]. exfalso.
  destruct (JSON_parse_inv w v E) as (w1 & core & w2 & Ht & _ & _ & Hvt).
  destruct Hvt as ((c0 & rest0 & -> & Hc0 & _) & _).
  rewrite Ht in Hw. apply Forall_app in Hw as (_ & Hw).
  apply Forall_app in Hw as (Hw & _). inversion Hw as [|? ? Hc _]; subst.
  apply is_ws_isWhiteSpace in Hc. congruence.
Qed.

Lemma NoObj_prefix (t x : str) : NoObj (t ++ x) -> NoObj t.
Proof.
  intros H a seg b props -> . apply (H a seg (b ++ x)).
  now rewrite <- !app_assoc.
Qed.

Lemma NoObj_ws_prefix (w junk : str) :
  Forall (fun c => is_ws c = true) w -> NoObj junk -> NoObj (w ++ junk).
Proof.
  intros Hw Hno a seg b props Heq Hp.
  apply app_eq_app in Heq as (e & [(-> & Hj)|(-> & ->)]).
  - (* the piece starts inside the white space *)
    apply Forall_app in Hw as (_ & Hw).
    apply app_eq_app in Hj as (e' & [(-> & ->)|(-> & ->)]).
    + apply drop_ws in Hp; [|exact Hw].
      apply (Hno [] e' b props); [reflexivity|exact Hp].
    + (* and ends inside it *)
      apply Forall_app in Hw as (Hw & _).
      rewrite all_ws_no_parse in Hp by exact Hw. discriminate.
  - apply (Hno e seg b props); [reflexivity|exact Hp].
Qed.

(** ** Trimming around the objects *)

Lemma trimStart_suffix (s : str) : exists x, s = x ++ trimStart s.
Proof.
  induction s as [|c s (x & IH)]; [now exists []|]. cbn [trimStart].
  destruct (isWhiteSpace c).
  - exists (c :: x). cbn [app]. now rewrite <- IH.
  - now exists [].
Qed.

Lemma trimEnd_prefix (s : str) : exists x, s = trimEnd s ++ x.
Proof.
  unfold trimEnd. destruct (trimStart_suffix (rev s)) as (x & Hx).
  exists (rev x). rewrite <- rev_app_distr, <- Hx. now rewrite rev_involutive.
Qed.

Lemma trimStart_snoc_solid (s : str) (z : char) :
  isWhiteSpace z = false -> trimStart (s ++ [z]) = trimStart s ++ [z].
Proof.
  intros Hz. induction s as [|c s IH]; cbn [app trimStart].
  - now rewrite Hz.
  - destruct (isWhiteSpace c); [exact IH|reflexivity].
Qed.

Lemma trimEnd_app_solid (a b : str) :
  lastOk a -> trimEnd (a ++ b) = a ++ trimEnd b.
Proof.
  intros (body & z & -> & Hz). unfold trimEnd.
  rewrite !rev_app_distr. cbn [rev app].
  rewrite trimStart_app_solid by exact Hz.
  rewrite trimStart_snoc_solid by exact Hz.
  rewrite !rev_app_distr. cbn [rev app]. rewrite rev_involutive.
  now rewrite <- app_assoc.
Qed.

Lemma Forall2_nonempty {A B : Type} (P : A -> B -> Prop) (l : list A) (l' : list B) :
  Forall2 P l l' -> l <> [] -> l' <> [].
Proof. intros H. destruct H; [congruence|discriminate]. Qed.

Lemma concat_with_cons (sep x : str) (l : list str) :
  l <> [] -> concat_with sep (x :: l) = x ++ sep ++ concat_with sep l.
Proof. destruct l; [congruence|reflexivity]. Qed.

(** Trimming the start of the content only affects the white space in
    front of the first object. *)
Lemma trimStart_objs (objs : list str) (vals : list value) (junk : str) :
  Forall2 ObjectText objs vals -> objs <> [] ->
  exists objs',
    Forall2 ObjectText objs' vals /\ objs' <> []
    /\ trimStart (concat_with [44] objs ++ junk) = concat_with [44] objs' ++ junk.
Proof.
  intros H Hne. destruct H as [|o v objs vals Ho Hrest]; [congruence|].
  destruct (object_shape o v Ho) as (w & mid & w' & -> & Hw & Hw' & Hq & Hvt & Hp).
  exists (((123 :: mid ++ [125]) ++ w') :: objs).
  split; [|split; [discriminate|]].
  - constructor; [|exact Hrest]. split; [|apply Ho].
    destruct Ho as (Ho & _). exact (drop_ws w _ v Hw Ho).
  - destruct objs as [|o2 objs].
    + cbn [concat_with]. rewrite <- app_assoc.
      rewrite trimStart_ws by (now apply ws_is_space). reflexivity.
    + repeat match goal with
             | |- context [concat_with ?sep (?x :: o2 :: objs)] =>
                 change (concat_with sep (x :: o2 :: objs))
                   with (x ++ sep ++ concat_with sep (o2 :: objs))
             end.
      rewrite <- !app_assoc.
      rewrite trimStart_ws by (now apply ws_is_space). reflexivity.
Qed.

Lemma lastOk_app (a b : str) : lastOk b -> lastOk (a ++ b).
Proof.
  intros (body & z & -> & Hz). exists (a ++ body), z.
  split; [now rewrite app_assoc|exact Hz].
Qed.

Lemma trimEnd_last (w core w' junk : str) :
  lastOk core ->
  trimEnd ((w ++ core ++ w') ++ junk) = (w ++ core) ++ trimEnd (w' ++ junk).
Proof.
  intros H. rewrite <- !app_assoc. rewrite !(app_assoc w core).
  now apply trimEnd_app_solid, lastOk_app.
Qed.

Lemma trimEnd_sep (o sep rest : str) :
  lastOk sep -> trimEnd ((o ++ sep ++ rest)) = o ++ sep ++ trimEnd rest.
Proof.
  intros H. rewrite (app_assoc o sep). rewrite trimEnd_app_solid.
  - now rewrite <- app_assoc.
  - now apply lastOk_app.
Qed.

(** Trimming the end only affects what follows the closing brace of the
    last object. *)
Lemma trimEnd_objs (objs : list str) (vals : list value) :
  Forall2 ObjectText objs vals -> objs <> [] ->
  exists objs' w',
    Forall (fun c => is_ws c = true) w'
    /\ Forall2 ObjectText objs' vals /\ objs' <> []
    /\ forall junk,
         trimEnd (concat_with [44] objs ++ junk)
         = concat_with [44] objs' ++ trimEnd (w' ++ junk).
Proof.
  induction 1 as [|o v objs vals Ho Hrest IH]; [congruence|]. intros _.
  destruct Hrest as [|o2 v2 objs vals Ho2 Hrest].
  - destruct (object_shape o v Ho) as (w & mid & w' & -> & Hw & Hw' & Hq & Hvt & Hp).
    exists [w ++ (123 :: mid ++ [125])], w'.
    split; [exact Hw'|]. split; [|split; [discriminate|]].
    + constructor; [|constructor]. split; [|apply Ho].
      rewrite <- (app_nil_r (123 :: mid ++ [125])).
      apply JSON_parse_intro; auto.
    + intros junk.
      apply (trimEnd_last w (123 :: mid ++ [125]) w' junk).
      exists (123 :: mid), 125. split; reflexivity.
  - destruct (IH ltac:(discriminate)) as (objs' & w' & Hw' & Hobjs' & Hne' & Htrim).
    exists (o :: objs'), w'. split; [exact Hw'|].
    split; [|split; [discriminate|]].
    + constructor; assumption.
    + intros junk.
      rewrite (concat_with_cons [44] o (o2 :: objs)) by discriminate.
      rewrite (concat_with_cons [44] o objs') by assumption.
      rewrite <- !app_assoc.
      rewrite trimEnd_sep by (exists [], 44; split; reflexivity).
      now rewrite Htrim.
Qed.

(** ** The salvage of a closed array *)

Lemma substring_inner (c z : char) (body : str) :
  substring (c :: body ++ [z]) 1 (length (c :: body ++ [z]) - 1) = body.
Proof.
  unfold substring. cbn [length]. rewrite length_app. cbn [length].
  replace (S (length body + 1) - 1)%nat with (S (length body)) by lia.
  replace (Nat.min 1 (S (length body + 1))) with 1%nat by lia.
  replace (Nat.min (S (length body)) (S (length body + 1))) with (S (length body)) by lia.
  replace (Nat.min 1 (S (length body))) with 1%nat by lia.
  replace (Nat.max 1 (S (length body)) - 1)%nat with (length body) by lia.
  cbn [skipn]. rewrite firstn_app, Nat.sub_diag, firstn_all. cbn [firstn].
  apply app_nil_r.
Qed.

Lemma endsWith_snoc (s : str) (c : char) : endsWith (s ++ [c]) [c] = true.
Proof.
  unfold endsWith. rewrite rev_app_distr. cbn [rev app startsWith].
  now rewrite N.eqb_refl.
Qed.

Lemma scan_objects_then_rest (objs : list str) (vals : list value) (rest : str) :
  Forall2 ObjectText objs vals -> objs <> [] -> NoObj rest ->
  extractedObjects (scanArray (concat_with [44] objs ++ rest)) = vals.
Proof.
  intros Hobjs Hne Hno. rewrite scanArray_sfold.
  destruct (scan_seq objs vals Hobjs Hne rest O
              {| buffer := []; depth := 0; inString := false;
                 extractedObjects := [] |} eq_refl eq_refl) as (b & Hb & ->).
  rewrite (sfold_tail rest [] _ _ b []).
  - reflexivity.
  - cbn [buffer]. now rewrite app_nil_r.
  - exact Hb.
  - now exists [].
  - exact Hno.
Qed.

Lemma salvage_content (objs : list str) (vals : list value) (junk : str) :
  Forall2 ObjectText objs vals -> objs <> [] -> NoObj junk ->
  extractedObjects (scanArray (trim (concat_with [44] objs ++ junk))) = vals.
Proof.
  intros Hobjs Hne Hno. unfold trim.
  destruct (trimStart_objs objs vals junk Hobjs Hne) as (objs1 & Hobjs1 & Hne1 & ->).
  destruct (trimEnd_objs objs1 vals Hobjs1 Hne1)
    as (objs2 & w' & Hw' & Hobjs2 & Hne2 & Htrim).
  rewrite Htrim. apply scan_objects_then_rest; auto.
  destruct (trimEnd_prefix (w' ++ junk)) as (x & Hx).
  apply (NoObj_prefix _ x). rewrite <- Hx. now apply NoObj_ws_prefix.
Qed.

Lemma salvage_text (body : str) (vals : list value) :
  extractedObjects (scanArray (trim body)) = vals -> vals <> [] ->
  JSON_parse (91 :: body ++ [93]) = None ->
  iterativeArrayParse (91 :: body ++ [93]) = Some (JArray vals)
  /\ parseJsonFromText (91 :: body ++ [93]) true = JArray vals.
Proof.
  intros Hscan Hne Hbad.
  assert (Hiter : iterativeArrayParse (91 :: body ++ [93]) = Some (JArray vals)).
  { unfold iterativeArrayParse. rewrite substring_inner, Hscan.
    destruct vals; [congruence|reflexivity]. }
  split; [exact Hiter|].
  unfold parseJsonFromText.
  rewrite trim_solid.
  - unfold stripFence. rewrite exec_fence_none by reflexivity.
    rewrite Hbad. cbn [andb].
    replace (startsWith (91 :: body ++ [93]) (lit "[")) with true by reflexivity.
    replace (endsWith (91 :: body ++ [93]) (lit "]")) with true
      by (symmetry; exact (endsWith_snoc (91 :: body) 93)).
    cbn [andb]. now rewrite Hiter.
  - exists 91, (body ++ [93]). split; reflexivity.
  - exists (91 :: body), 93. split; reflexivity.
Qed.

(** ** What the scan finds after the objects *)

Lemma JSON_parse_ws_prefix (w s : str) :
  Forall (fun c => is_ws c = true) w -> JSON_parse (w ++ s) = JSON_parse s.
Proof.
  intros Hw. destruct (JSON_parse s) as [v|] eqn:Es.
  - destruct (JSON_parse_inv s v Es) as (w1 & core & w2 & -> & Hw1 & Hw2 & Hvt).
    rewrite app_assoc. apply JSON_parse_intro; auto.
    apply Forall_app. now split.
  - destruct (JSON_parse (w ++ s)) as [v|] eqn:E; [|reflexivity].
    rewrite (drop_ws w s v Hw E) in Es. discriminate.
Qed.

Lemma trim_ws_prefix (w s : str) :
  Forall (fun c => is_ws c = true) w -> trim (w ++ s) = trim s.
Proof.
  intros Hw. unfold trim. rewrite trimStart_ws; [reflexivity|].
  now apply ws_is_space.
Qed.

Lemma scanChar_alike (c : char) (run : nat) (before : list value) (st1 st2 : Scan) :
  alike before st1 st2 -> alike before (scanChar c run st1) (scanChar c run st2).
Proof.
  intros (Hd & Hi & (b & Hb & Hbuf) & He).
  destruct st1 as [b1 d1 i1 e1], st2 as [b2 d2 i2 e2].
  cbn [depth inString buffer extractedObjects] in *. subst d1 i1 b1 e1.
  unfold scanChar, alike. cbn [depth inString buffer extractedObjects].
  set (ins := if c =? 34 then if Nat.even run then negb i2 else i2 else i2).
  destruct (negb ins) eqn:Hins; cbn [andb].
  - destruct (c =? 123) eqn:H123.
    + destruct (d2 =? 0)%Z eqn:Hd0.
      * assert (H125 : (c =? 125) = false).
        { apply N.eqb_eq in H123. subst c. reflexivity. }
        assert (H44 : (c =? 44) = false).
        { apply N.eqb_eq in H123. subst c. reflexivity. }
        rewrite H125, H44, !andb_false_r.
        cbn [depth inString buffer extractedObjects].
        repeat split; auto. exists []. split; [constructor|reflexivity].
      * assert (H125 : (c =? 125) = false).
        { apply N.eqb_eq in H123. subst c. reflexivity. }
        assert (H44 : (c =? 44) = false).
        { apply N.eqb_eq in H123. subst c. reflexivity. }
        rewrite H125, H44, !andb_false_r.
        cbn [depth inString buffer extractedObjects].
        repeat split; auto. exists b. split; [exact Hb|now rewrite app_assoc].
    + destruct (c =? 125) eqn:H125.
      * destruct ((d2 - 1 =? 0)%Z); cbn [andb].
        -- rewrite <- app_assoc, trim_ws_prefix, JSON_parse_ws_prefix by exact Hb.
           destruct (startsWith (trim (b2 ++ [c])) (lit "{")).
           ++ destruct (JSON_parse (b2 ++ [c])) as [obj|];
                cbn [depth inString buffer extractedObjects].
              ** repeat split; auto.
                 --- exists []. split; [constructor|reflexivity].
                 --- now rewrite app_assoc.
              ** repeat split; auto. exists b. split; [exact Hb|reflexivity].
           ++ cbn [depth inString buffer extractedObjects].
              repeat split; auto. exists []. split; [constructor|reflexivity].
        -- cbn [depth inString buffer extractedObjects].
           repeat split; auto. exists b. split; [exact Hb|now rewrite app_assoc].
      * rewrite !andb_false_r.
        destruct ((d2 =? 0)%Z && (c =? 44)); cbn [depth inString buffer extractedObjects].
        -- repeat split; auto. exists []. split; [constructor|reflexivity].
        -- repeat split; auto. exists b. split; [exact Hb|now rewrite app_assoc].
  - cbn [depth inString buffer extractedObjects].
    repeat split; auto. exists b. split; [exact Hb|now rewrite app_assoc].
Qed.

Lemma sfold_alike (s : str) :
  forall (run : nat) (before : list value) (st1 st2 : Scan),
    alike before st1 st2 -> alike before (sfold run s st1) (sfold run s st2).
Proof.
  induction s as [|c s IH]; intros run before st1 st2 H; [exact H|].
  cbn [sfold]. apply IH. now apply scanChar_alike.
Qed.

(** White space is never the end of an object. *)
Lemma scanChar_ws_extracted (c : char) (run : nat) (st : Scan) :
  isWhiteSpace c = true ->
  extractedObjects (scanChar c run st) = extractedObjects st.
Proof.
  intros Hc.
  assert (H125 : (c =? 125) = false).
  { destruct (N.eqb_spec c 125) as [->|]; [discriminate|reflexivity]. }
  unfold scanChar. rewrite H125.
  match goal with
  | |- context [let '(_, _) := ?x in _] => destruct x
  end.
  rewrite !andb_false_r.
  match goal with
  | |- context [if ?x then _ else _] => destruct x
  end; reflexivity.
Qed.

Lemma sfold_ws_extracted (x : str) :
  forall (run : nat) (st : Scan),
    Forall (fun c => isWhiteSpace c = true) x ->
    extractedObjects (sfold run x st) = extractedObjects st.
Proof.
  induction x as [|c x IH]; intros run st H; [reflexivity|].
  inversion H; subst. cbn [sfold]. rewrite IH by assumption.
  now apply scanChar_ws_extracted.
Qed.

Lemma trimStart_split (s : str) :
  exists x, s = x ++ trimStart s /\ Forall (fun c => isWhiteSpace c = true) x.
Proof.
  induction s as [|c s (x & IH & Hx)]; [exists []; split; [reflexivity|constructor]|].
  cbn [trimStart]. destruct (isWhiteSpace c) eqn:Hc.
  - exists (c :: x). split; [cbn [app]; now rewrite <- IH|now constructor].
  - exists []. split; [reflexivity|constructor].
Qed.

Lemma trimEnd_split (s : str) :
  exists x, s = trimEnd s ++ x /\ Forall (fun c => isWhiteSpace c = true) x.
Proof.
  unfold trimEnd. destruct (trimStart_split (rev s)) as (x & Hx & Hw).
  exists (rev x). split.
  - rewrite <- rev_app_distr, <- Hx. now rewrite rev_involutive.
  - apply Forall_rev. exact Hw.
Qed.

(** The scan of the objects and what follows them: the objects, then
    what the scan finds in the rest read on its own. *)
Lemma scan_objects_and_rest (objs : list str) (vals : list value) (rest : str) :
  Forall2 ObjectText objs vals -> objs <> [] ->
  extractedObjects (scanArray (concat_with [44] objs ++ rest))
  = vals ++ extractedObjects (scanArray rest).
Proof.
  intros Hobjs Hne. rewrite !scanArray_sfold.
  destruct (scan_seq objs vals Hobjs Hne rest O
              {| buffer := []; depth := 0; inString := false;
                 extractedObjects := [] |} eq_refl eq_refl) as (b & Hb & ->).
  cbn [extractedObjects app].
  match goal with
  | |- extractedObjects (sfold 0 rest ?s1) = _ ++ extractedObjects (sfold 0 rest ?s2) =>
      destruct (sfold_alike rest 0 vals s1 s2) as (_ & _ & _ & H); [|exact H]
  end.
  repeat split; cbn [depth inString buffer extractedObjects].
  - exists b. split; [exact Hb|now rewrite app_nil_r].
  - now rewrite app_nil_r.
Qed.

Lemma salvage_content_all (objs : list str) (vals : list value) (junk : str) :
  Forall2 ObjectText objs vals -> objs <> [] ->
  extractedObjects (scanArray (trim (concat_with [44] objs ++ junk)))
  = vals ++ extractedObjects (scanArray junk).
Proof.
  intros Hobjs Hne. unfold trim.
  destruct (trimStart_objs objs vals junk Hobjs Hne) as (objs1 & Hobjs1 & Hne1 & ->).
  rewrite <- (scan_objects_and_rest objs1 vals junk Hobjs1 Hne1).
  destruct (trimEnd_split (concat_with [44] objs1 ++ junk)) as (x & Hx & Hw).
  rewrite Hx at 2. rewrite !scanArray_sfold, sfold_app.
  now rewrite (sfold_ws_extracted x) by exact Hw.
Qed.

(** Trailing content no piece of which is an object is one kind of
    content in which the scan completes nothing. *)
Lemma scan_without_objects (junk : str) :
  noObjectInside junk = true -> extractedObjects (scanArray junk) = [].
Proof.
  intros H. rewrite scanArray_sfold.
  rewrite (sfold_tail junk [] _ 0 [] []).
  - reflexivity.
  - reflexivity.
  - constructor.
  - now exists [].
  - now apply noObjectInside_NoObj.
Qed.

(** C6, as the code has it. Take one or more texts of well-formed objects,
    joined by commas, followed by any trailing content, all of it between
    an opening and a closing bracket, the whole not being valid JSON. With
    an array expected the iterative salvage returns the values of those
    objects, in order, followed by the objects that the same scan
    completes in the trailing content read on its own. So it returns
    exactly those objects, and no additional element, if and only if the
    scan completes no object in the trailing content. *)
Theorem C6_salvage_of_closed_array (objs : list str) (vals : list value) (junk : str) :
  objs <> [] ->
  Forall2 (fun o v => JSON_parse o = Some v /\ isObject v = true) objs vals ->
  JSON_parse (lit "[" ++ concat_with (lit ",") objs ++ junk ++ lit "]") = None ->
  iterativeArrayParse (lit "[" ++ concat_with (lit ",") objs ++ junk ++ lit "]")
  = Some (JArray (vals ++ extractedObjects (scanArray junk)))
  /\ parseJsonFromText (lit "[" ++ concat_with (lit ",") objs ++ junk ++ lit "]") true
     = JArray (vals ++ extractedObjects (scanArray junk))
  /\ (parseJsonFromText (lit "[" ++ concat_with (lit ",") objs ++ junk ++ lit "]") true
      = JArray vals
      <-> extractedObjects (scanArray junk) = []).
Proof.
  intros Hne Hobjs.
  assert (E : lit "[" ++ concat_with (lit ",") objs ++ junk ++ lit "]"
              = 91 :: (concat_with [44] objs ++ junk) ++ [93])
    by exact (f_equal (cons 91) (app_assoc _ _ _)).
  rewrite E. intros Hbad.
  destruct (salvage_text (concat_with [44] objs ++ junk)
              (vals ++ extractedObjects (scanArray junk))) as [H1 H2].
  - now apply salvage_content_all.
  - intros H. apply app_eq_nil in H as [H _].
    apply (Forall2_nonempty _ _ _ Hobjs Hne H).
  - exact Hbad.
  - split; [exact H1|]. split; [exact H2|]. rewrite H2. split.
    + intros H. injection H as H. rewrite <- (app_nil_r vals) in H at 2.
      now apply app_inv_head in H.
    + intros ->. now rewrite app_nil_r.
Qed.

(** Two objects and a third that is cut inside a string: the cut object
    holds a complete object of its own and a closing brace inside its
    open string, and the scan completes neither. *)
Lemma C6_witness :
  extractedObjects (scanArray (jq ",{'title':{'x':1},'y':'}")) = []
  /\ parseJsonFromText
       (lit "[" ++ concat_with (lit ",") [jq "{'title':'A'}"; jq " {'title':'B'} "]
          ++ jq ",{'title':{'x':1},'y':'}" ++ lit "]") true
     = JArray [objA; objB].
Proof.
  split; [vm_compute; reflexivity|].
  apply (C6_salvage_of_closed_array
           [jq "{'title':'A'}"; jq " {'title':'B'} "] [objA; objB]
           (jq ",{'title':{'x':1},'y':'}")).
  - discriminate.
  - constructor; [split; vm_compute; reflexivity|].
    constructor; [split; vm_compute; reflexivity|]. constructor.
  - vm_compute; reflexivity.
  - vm_compute; reflexivity.
Defined.

(** C6 as stated fails in two ways. On a truncated array, without the
    closing bracket, the scan is not attempted: the loose match runs from
    the first opening brace to the last closing one, does not parse, and
    the result is null. Between both brackets, a complete object inside
    malformed trailing content is salvaged like the objects before it. *)
Lemma C6_counterexample :
  (truncatedABC
   = lit "[" ++ concat_with (lit ",") [jq "{'title':'A'}"; jq "{'title':'B'}"]
       ++ jq ",{'title':'C'"
   /\ JSON_parse (jq "{'title':'A'}") = Some objA
   /\ JSON_parse (jq "{'title':'B'}") = Some objB
   /\ endsWith truncatedABC (lit "]") = false
   /\ parseJsonFromText truncatedABC true = JNull
   /\ JNull <> JArray [objA; objB])
  /\ (closedAxB
      = lit "[" ++ concat_with (lit ",") [jq "{'title':'A'}"]
          ++ jq ",x{'title':'B'}" ++ lit "]"
      /\ JSON_parse closedAxB = None
      /\ parseJsonFromText closedAxB true = JArray [objA; objB]
      /\ JArray [objA; objB] <> JArray [objA]).
Proof. repeat split; try (vm_compute; reflexivity); discriminate. Qed.

(* ================================================================== *)
(** * Part IV. More of the code: edges, invariants and compositions     *)
(* ================================================================== *)

Import Loose Deals.

(** ** The decoder at its edges *)

Lemma trimStart_all_ws (w : str) :
  Forall (fun c => isWhiteSpace c = true) w -> trimStart w = [].
Proof. induction 1 as [|c w Hc _ IH]; cbn [trimStart]; [reflexivity|]. now rewrite Hc. Qed.

Lemma trim_all_ws (w : str) :
  Forall (fun c => isWhiteSpace c = true) w -> trim w = [].
Proof. intros H. unfold trim. now rewrite trimStart_all_ws. Qed.

Lemma trimEnd_ws (s w : str) :
  Forall (fun c => isWhiteSpace c = true) w -> trimEnd (s ++ w) = trimEnd s.
Proof.
  intros H. unfold trimEnd. rewrite rev_app_distr.
  now rewrite trimStart_ws by (now apply Forall_rev).
Qed.

Lemma trimStart_cases (s : str) :
  trimStart s = [] \/ firstSolid (trimStart s).
Proof.
  induction s as [|c s IH]; cbn [trimStart]; [now left|].
  destruct (isWhiteSpace c) eqn:E; [exact IH|]. right. now exists c, s.
Qed.

(** White space around a text does not change what [trim] makes of it. *)
Lemma trim_pad (w1 t w2 : str) :
  Forall (fun c => isWhiteSpace c = true) w1 ->
  Forall (fun c => isWhiteSpace c = true) w2 ->
  trim (w1 ++ t ++ w2) = trim t.
Proof.
  intros H1 H2. unfold trim. rewrite trimStart_ws by exact H1.
  destruct (trimStart_suffix t) as (x & Hx).
  assert (Hxw : Forall (fun c => isWhiteSpace c = true) x).
  { clear - t Hx. revert x Hx. induction t as [|c t IH]; intros x Hx.
    - destruct x; [constructor|discriminate].
    - cbn [trimStart] in Hx. destruct (isWhiteSpace c) eqn:E.
      + destruct x as [|y x].
        * exfalso. cbn [app] in Hx.
          pose proof (f_equal (@length _) Hx) as Hl. cbn [length] in Hl.
          destruct (trimStart_suffix t) as (x' & Hx').
          rewrite Hx' in Hl at 1. rewrite length_app in Hl. lia.
        * cbn [app] in Hx. injection Hx as <- Hx. constructor; [exact E|].
          now apply IH.
      + destruct x as [|y x]; [constructor|].
        exfalso. cbn [app] in Hx. injection Hx as _ Hx.
        pose proof (f_equal (@length _) Hx) as Hl.
        rewrite length_app in Hl. cbn [length] in Hl. lia. }
  destruct (trimStart_cases t) as [E|(c0 & rest0 & E & Hc0)].
  - (* [t] is white space only *)
    rewrite E. rewrite E, app_nil_r in Hx. subst x.
    rewrite trimStart_all_ws by (apply Forall_app; split; assumption).
    reflexivity.
  - assert (E' : trimStart (t ++ w2) = trimStart t ++ w2).
    { rewrite Hx at 1. rewrite <- app_assoc. rewrite trimStart_ws by exact Hxw.
      rewrite E. cbn [app trimStart]. now rewrite Hc0. }
    rewrite E'. now apply trimEnd_ws.
Qed.

(** X1. A text that is empty or holds only white space decodes to null,
    whether an array is expected or not. *)
Theorem X1_blank_text_decodes_to_null (text : str) (isArrayExpected : bool) :
  Forall (fun c => isWhiteSpace c = true) text ->
  parseJsonFromText text isArrayExpected = JNull.
Proof.
  intros H. unfold parseJsonFromText. rewrite trim_all_ws by exact H.
  destruct isArrayExpected; vm_compute; reflexivity.
Qed.

Lemma X1_witness :
  parseJsonFromText [] true = JNull
  /\ parseJsonFromText (lit "   ") false = JNull.
Proof.
  split.
  - apply (X1_blank_text_decodes_to_null [] true). constructor.
  - apply (X1_blank_text_decodes_to_null (lit "   ") false).
    repeat constructor.
Defined.

(** X2. White space before and after a text makes no difference to what
    the decoder returns: the text is trimmed before anything else is
    tried. *)
Theorem X2_surrounding_white_space_is_ignored (w1 t w2 : str) (isArrayExpected : bool) :
  Forall (fun c => isWhiteSpace c = true) w1 ->
  Forall (fun c => isWhiteSpace c = true) w2 ->
  parseJsonFromText (w1 ++ t ++ w2) isArrayExpected
  = parseJsonFromText t isArrayExpected.
Proof.
  intros H1 H2. unfold parseJsonFromText. now rewrite trim_pad.
Qed.

Lemma X2_witness :
  parseJsonFromText (lit "  " ++ jq "{'a':1}" ++ [10%N]) false
  = parseJsonFromText (jq "{'a':1}") false.
Proof.
  apply (X2_surrounding_white_space_is_ignored (lit "  ") (jq "{'a':1}") [10%N] false);
    repeat constructor.
Defined.

(** ** What the array scan extracts *)

(** One step extracts nothing, or one object: the strict parse of the
    buffer as it stands with the character just read. *)
Lemma scanChar_extracts (c : char) (run : nat) (st : Scan) :
  exists b1,
    (b1 = buffer st \/ b1 = [])
    /\ (buffer (scanChar c run st) = b1 ++ [c] \/ buffer (scanChar c run st) = [])
    /\ (extractedObjects (scanChar c run st) = extractedObjects st
        \/ exists obj,
             extractedObjects (scanChar c run st) = extractedObjects st ++ [obj]
             /\ isObject obj = true /\ JSON_parse (b1 ++ [c]) = Some obj).
Proof.
  unfold scanChar.
  set (ins := if c =? 34 then _ else _).
  set (p := if negb ins then _ else _).
  assert (Hp : fst p = buffer st \/ fst p = []).
  { subst p. destruct (negb ins); [|now left].
    destruct (c =? 123); [|destruct (c =? 125); now left].
    destruct (depth st =? 0)%Z; cbn [fst]; auto. }
  destruct p as [buffer1 depth1]. cbn [fst] in Hp.
  exists buffer1. split; [exact Hp|].
  destruct (negb ins && (depth1 =? 0)%Z && (c =? 125)).
  - destruct (startsWith _ _) eqn:Es; [|cbn [buffer extractedObjects]; auto].
    destruct (JSON_parse _) as [obj|] eqn:Ej; [|cbn [buffer extractedObjects]; auto].
    cbn [buffer extractedObjects]. split; [now right|]. right. exists obj.
    split; [reflexivity|]. split; [|reflexivity].
    destruct (parse_object _ _ Ej Es) as (props & ->). reflexivity.
  - destruct (negb ins && (depth1 =? 0)%Z && (c =? 44));
      cbn [buffer extractedObjects]; auto.
Qed.

Lemma sfold_extracts (content todo : str) :
  forall (processed : str) (run : nat) (st : Scan),
    content = processed ++ todo ->
    (exists p, processed = p ++ buffer st) ->
    Forall (ObjectOf content) (extractedObjects st) ->
    Forall (ObjectOf content) (extractedObjects (sfold run todo st)).
Proof.
  induction todo as [|c todo IH]; intros processed run st Hc (p & Hp) H;
    [exact H|].
  cbn [sfold].
  destruct (scanChar_extracts c run st) as (b1 & Hb1 & Hbuf & Hex).
  assert (Hsuf : exists p', processed ++ [c] = p' ++ b1 ++ [c]).
  { destruct Hb1 as [->| ->].
    - exists p. rewrite Hp. now rewrite <- app_assoc.
    - now exists processed. }
  apply (IH (processed ++ [c])).
  - rewrite <- app_assoc. exact Hc.
  - destruct Hbuf as [->| ->]; [exact Hsuf|].
    exists (processed ++ [c]). now rewrite app_nil_r.
  - destruct Hex as [->|(obj & -> & Ho & Hj)]; [exact H|].
    apply Forall_app. split; [exact H|]. constructor; [|constructor].
    split; [exact Ho|].
    destruct Hsuf as (p' & Hp'). exists p', (b1 ++ [c]), todo.
    split; [|exact Hj].
    rewrite Hc. replace (c :: todo) with ([c] ++ todo) by reflexivity.
    rewrite app_assoc, Hp'. now rewrite <- !app_assoc.
Qed.

Lemma ObjectOf_wider (a t b : str) (v : value) :
  ObjectOf t v -> ObjectOf (a ++ t ++ b) v.
Proof.
  intros (Ho & a' & seg & b' & -> & Hj). split; [exact Ho|].
  exists (a ++ a'), seg, (b' ++ b). split; [|exact Hj].
  now rewrite <- !app_assoc.
Qed.

Lemma trim_infix (s : str) : exists a b, s = a ++ trim s ++ b.
Proof.
  unfold trim. destruct (trimStart_suffix s) as (a & Ha).
  destruct (trimEnd_prefix (trimStart s)) as (b & Hb).
  exists a, b. now rewrite <- Hb.
Qed.

Lemma firstn_skipn_infix (s : str) (lo n : nat) :
  s = firstn lo s ++ firstn n (skipn lo s) ++ skipn n (skipn lo s).
Proof. now rewrite !firstn_skipn. Qed.

Lemma substring_infix (s : str) (i j : nat) :
  exists a b, s = a ++ substring s i j ++ b.
Proof. unfold substring. eexists _, _. apply firstn_skipn_infix. Qed.

(** X3. When the salvage scan of an array text returns a value, that
    value is a non-empty array, every element of it is an object, and
    every element is the strict parse of a stretch of the text. *)
Theorem X3_salvage_returns_objects_of_the_text (jsonStr : str) (v : value) :
  iterativeArrayParse jsonStr = Some v ->
  exists items,
    v = JArray items /\ items <> []
    /\ Forall (fun item =>
                 isObject item = true
                 /\ exists a seg b,
                      jsonStr = a ++ seg ++ b /\ JSON_parse seg = Some item)
              items.
Proof.
  unfold iterativeArrayParse.
  set (inner := substring _ _ _). set (content := trim inner).
  destruct (extractedObjects (scanArray content)) as [|x items] eqn:E;
    [discriminate|].
  cbn [length Nat.ltb Nat.leb]. intros H. injection H as <-.
  exists (x :: items). split; [reflexivity|]. split; [discriminate|].
  rewrite <- E, scanArray_sfold.
  assert (Hc : Forall (ObjectOf content)
                 (extractedObjects
                    (sfold 0 content
                       {| buffer := []; depth := 0; inString := false;
                          extractedObjects := [] |}))).
  { apply (sfold_extracts content content []); [reflexivity|now exists []|constructor]. }
  eapply Forall_impl; [|exact Hc]. intros item Hitem.
  destruct (trim_infix inner) as (a1 & b1 & H1).
  destruct (substring_infix jsonStr 1 (length jsonStr - 1)) as (a2 & b2 & H2).
  fold inner in H2. fold content in H1.
  apply (ObjectOf_wider a1 content b1) in Hitem. rewrite <- H1 in Hitem.
  apply (ObjectOf_wider a2 inner b2) in Hitem. rewrite <- H2 in Hitem.
  exact Hitem.
Qed.

Lemma X3_witness :
  exists items,
    JArray [objA; objB] = JArray items /\ items <> []
    /\ Forall (fun item =>
                 isObject item = true
                 /\ exists a seg b,
                      closedAxB = a ++ seg ++ b /\ JSON_parse seg = Some item)
              items.
Proof.
  apply (X3_salvage_returns_objects_of_the_text closedAxB (JArray [objA; objB])).
  vm_compute. reflexivity.
Defined.

(** ** The loose match *)

Lemma looseRegex_shape :
  looseRegex = Group 1 (Alt (bracketed 91 93) (bracketed 123 125)).
Proof. reflexivity. Qed.

Lemma rmatch_bracketed (opening closing : char) (total : nat) (s : str)
      (caps : captures) (k : cont) :
  rmatch (bracketed opening closing) total s caps k
  = match s with
    | x :: s' =>
        if x =? opening
        then class_loop anyChar total true (closeThen closing k) (length s') s' caps
        else None
    | [] => None
    end.
Proof.
  unfold bracketed, cat. cbn [fold_right]. rewrite rmatch_seq.
  destruct s as [|x s']; [reflexivity|]. rewrite rmatch_chr.
  destruct (x =? opening); [|reflexivity].
  rewrite rmatch_seq, rmatch_star. unfold class_loop. f_equal.
Qed.

Lemma class_loop_step (p : char -> bool) (total : nat) (k : cont) (f : nat)
      (x : char) (s : str) (caps : captures) :
  class_loop p total true k (S f) (x :: s) caps
  = if p x then
      match class_loop p total true k f s caps with
      | Some r => Some r
      | None => k (x :: s) caps
      end
    else k (x :: s) caps.
Proof.
  unfold class_loop. cbn [star_loop rmatch]. rewrite ltb_tail.
  destruct (p x); reflexivity.
Qed.

Lemma class_loop_zero (p : char -> bool) (total : nat) (k : cont)
      (s : str) (caps : captures) :
  class_loop p total true k 0 s caps = k s caps.
Proof. reflexivity. Qed.

Lemma class_loop_nil (p : char -> bool) (total : nat) (k : cont) (f : nat)
      (caps : captures) :
  class_loop p total true k f [] caps = k [] caps.
Proof. destruct f; reflexivity. Qed.

(** Without the closing character the star finds no place to stop. *)
Lemma any_star_none (closing : char) (total : nat) (k : cont) (b : str) :
  Forall (fun c => c <> closing) b ->
  forall fuel caps,
    class_loop anyChar total true (closeThen closing k) fuel b caps = None.
Proof.
  intros Hb.
  induction Hb as [|x b Hx _ IH]; intros fuel caps.
  - now rewrite class_loop_nil.
  - assert (Hk : closeThen closing k (x :: b) caps = None).
    { cbn [closeThen]. now rewrite (proj2 (N.eqb_neq _ _) Hx). }
    destruct fuel as [|f]; [exact Hk|]. rewrite class_loop_step.
    cbn [anyChar]. rewrite IH. exact Hk.
Qed.

(** Greedy: the star runs to the last closing character. *)
Lemma any_star_last (closing : char) (total : nat) (k : cont)
      (res : str * captures) (caps : captures) (a b : str) :
  Forall (fun c => c <> closing) b ->
  k b caps = Some res ->
  forall fuel, (length a <= fuel)%nat ->
    class_loop anyChar total true (closeThen closing k) fuel (a ++ closing :: b) caps
    = Some res.
Proof.
  intros Hb Hk.
  induction a as [|x a IH]; intros fuel Hf.
  - cbn [app].
    assert (Hc : closeThen closing k (closing :: b) caps = Some res)
      by (cbn [closeThen]; now rewrite N.eqb_refl).
    destruct fuel as [|f]; [exact Hc|]. rewrite class_loop_step.
    cbn [anyChar]. rewrite any_star_none by exact Hb. exact Hc.
  - destruct fuel as [|f]; [simpl in Hf; lia|]. cbn [app].
    rewrite class_loop_step. cbn [anyChar].
    rewrite IH; [reflexivity | simpl in Hf; lia].
Qed.

(** Where the loose pattern cannot start. *)
Lemma loose_no_start (total : nat) (s : str) (caps : captures) (k : cont) :
  head_is (fun c => (c =? 91) || (c =? 123)) s = false ->
  rmatch looseRegex total s caps k = None.
Proof.
  intros H. rewrite looseRegex_shape, rmatch_group. cbn [rmatch].
  rewrite !rmatch_bracketed. destruct s as [|x s']; [reflexivity|].
  cbn [head_is] in H. apply Bool.orb_false_iff in H as (-> & ->). reflexivity.
Qed.

Lemma noOpening_head (c : char) :
  noOpening c -> (c =? 91) || (c =? 123) = false.
Proof.
  intros (H1 & H2). apply Bool.orb_false_iff.
  split; now apply N.eqb_neq.
Qed.

Lemma exec_from_skip (total : nat) (pre rest : str) :
  Forall noOpening pre ->
  exec_from looseRegex total (pre ++ rest) = exec_from looseRegex total rest.
Proof.
  induction 1 as [|c pre Hc _ IH]; [reflexivity|].
  cbn [app]. rewrite exec_from_cons.
  rewrite loose_no_start by (cbn [head_is]; now apply noOpening_head).
  exact IH.
Qed.

Lemma exec_loose_none (s : str) : Forall noOpening s -> exec looseRegex s = None.
Proof.
  intros H. unfold exec. rewrite <- (app_nil_r s).
  rewrite exec_from_skip by exact H. reflexivity.
Qed.

(** The loose match of a bracketed stretch followed by text without the
    closing character is that stretch. *)
Lemma exec_from_bracketed (total : nat) (opening closing : char) (mid post : str) :
  (opening = 91 /\ closing = 93) \/ (opening = 123 /\ closing = 125) ->
  Forall (fun c => c <> closing) post ->
  option_map whole
    (exec_from looseRegex total (opening :: mid ++ closing :: post))
  = Some (opening :: mid ++ [closing]).
Proof.
  intros Hoc Hpost. rewrite exec_from_cons.
  rewrite looseRegex_shape, rmatch_group. cbn [rmatch].
  rewrite !rmatch_bracketed.
  set (k := fun (s' : str) (caps' : captures) =>
              done s' (set_capture 1
                         (Some (firstn (length (opening :: mid ++ closing :: post)
                                        - length s')
                                  (opening :: mid ++ closing :: post))) caps')).
  assert (Hstar : class_loop anyChar total true (closeThen closing k)
                    (length (mid ++ closing :: post)) (mid ++ closing :: post)
                    no_captures
                  = k post no_captures).
  { apply any_star_last; [exact Hpost|reflexivity|].
    rewrite length_app. lia. }
  assert (Hres : (if opening =? 91
                  then class_loop anyChar total true (closeThen 93 k)
                         (length (mid ++ closing :: post)) (mid ++ closing :: post)
                         no_captures
                  else None) = Some (post, snd (match k post no_captures with
                                                | Some r => r | None => ([], no_captures) end))
                 \/ ((if opening =? 91
                      then class_loop anyChar total true (closeThen 93 k)
                             (length (mid ++ closing :: post)) (mid ++ closing :: post)
                             no_captures
                      else None) = None
                     /\ (if opening =? 123
                         then class_loop anyChar total true (closeThen 125 k)
                                (length (mid ++ closing :: post))
                                (mid ++ closing :: post) no_captures
                         else None)
                        = Some (post, snd (match k post no_captures with
                                           | Some r => r | None => ([], no_captures) end)))).
  { destruct Hoc as [(-> & ->)|(-> & ->)].
    - left. cbn [N.eqb Pos.eqb]. rewrite Hstar. reflexivity.
    - right. cbn [N.eqb Pos.eqb]. split; [reflexivity|]. rewrite Hstar. reflexivity. }
  fold k.
  assert (Hw : firstn (length (opening :: mid ++ closing :: post) - length post)
                 (opening :: mid ++ closing :: post)
               = opening :: mid ++ [closing]).
  { replace (opening :: mid ++ closing :: post)
      with ((opening :: mid ++ [closing]) ++ post)
      by (cbn [app]; now rewrite <- app_assoc).
    apply firstn_app_exact. }
  destruct Hres as [E|(E1 & E2)].
  - rewrite E. cbn [option_map whole]. now rewrite Hw.
  - rewrite E1, E2. cbn [option_map whole]. now rewrite Hw.
Qed.

(** ** Prose around a value, and prose alone *)

Lemma trim_around (pre core post : str) :
  firstSolid core -> lastOk core ->
  trim (pre ++ core ++ post) = trimStart pre ++ core ++ trimEnd post.
Proof.
  intros (c0 & rest0 & -> & Hc0) Hl. unfold trim.
  cbn [app]. rewrite trimStart_app_solid by exact Hc0.
  rewrite trimStart_snoc_solid by exact Hc0.
  rewrite <- !app_assoc. cbn [app].
  replace (trimStart pre ++ c0 :: rest0 ++ post)
    with ((trimStart pre ++ c0 :: rest0) ++ post)
    by (now rewrite <- app_assoc).
  rewrite trimEnd_app_solid by (now apply lastOk_app).
  now rewrite <- app_assoc.
Qed.

Lemma Forall_trimStart (P : char -> Prop) (s : str) :
  Forall P s -> Forall P (trimStart s).
Proof.
  intros H. destruct (trimStart_suffix s) as (x & Hx). rewrite Hx in H.
  now apply Forall_app in H.
Qed.

Lemma Forall_trimEnd (P : char -> Prop) (s : str) :
  Forall P s -> Forall P (trimEnd s).
Proof.
  intros H. destruct (trimEnd_prefix s) as (x & Hx). rewrite Hx in H.
  now apply Forall_app in H.
Qed.

Lemma Forall_trim (P : char -> Prop) (s : str) : Forall P s -> Forall P (trim s).
Proof. intros H. unfold trim. now apply Forall_trimEnd, Forall_trimStart. Qed.

Lemma endsWith_last (s : str) (z c : char) : endsWith (s ++ [z]) [c] = (c =? z).
Proof.
  unfold endsWith. rewrite rev_app_distr. cbn [rev app startsWith].
  apply Bool.andb_true_r.
Qed.

Lemma proseChar_noOpening (s : str) : Forall proseChar s -> Forall noOpening s.
Proof. apply Forall_impl. intros c (H1 & H2 & _). now split. Qed.

Lemma prose_no_fence (s rest : str) (c : char) :
  Forall proseChar s -> c <> 96 ->
  head_is (fun x => x =? 96) (s ++ c :: rest) = false.
Proof.
  intros Hs Hc. destruct Hs as [|x s (_ & _ & Hx) _]; cbn [app head_is];
    now apply N.eqb_neq.
Qed.

Lemma looseMatchParse_whole (j core : str) (v : value) :
  option_map whole (exec looseRegex j) = Some core ->
  core <> [] -> JSON_parse core = Some v ->
  looseMatchParse j = v.
Proof.
  intros Hm Hne Hp. unfold looseMatchParse.
  destruct (exec looseRegex j) as [m|]; [|discriminate].
  cbn [option_map] in Hm. injection Hm as ->.
  destruct core; [congruence|]. cbn [nonEmpty]. now rewrite Hp.
Qed.

Lemma parse_prose_wrapped (pre mid post : str) (opening closing : char) (v : value)
      (isArrayExpected : bool) :
  (opening = 91 /\ closing = 93) \/ (opening = 123 /\ closing = 125) ->
  JSON_parse (opening :: mid ++ [closing]) = Some v ->
  Forall proseChar pre ->
  Forall (fun c => c <> closing) post ->
  JSON_parse (trim (pre ++ (opening :: mid ++ [closing]) ++ post)) = None ->
  parseJsonFromText (pre ++ (opening :: mid ++ [closing]) ++ post) isArrayExpected = v.
Proof.
  intros Hoc Hv Hpre Hpost Hbad.
  set (core := opening :: mid ++ [closing]) in *.
  assert (Hopen : opening <> 96 /\ isWhiteSpace opening = false
                  /\ isWhiteSpace closing = false).
  { destruct Hoc as [(-> & ->)|(-> & ->)]; repeat split; discriminate. }
  destruct Hopen as (H96 & Hso & Hsc).
  assert (Hfs : firstSolid core) by (now exists opening, (mid ++ [closing])).
  assert (Hlo : lastOk core) by (now exists (opening :: mid), closing).
  unfold parseJsonFromText. rewrite trim_around in * by assumption.
  set (pre' := trimStart pre) in *. set (post' := trimEnd post) in *.
  assert (Hpre' : Forall proseChar pre') by (now apply Forall_trimStart).
  assert (Hpost' : Forall (fun c => c <> closing) post') by (now apply Forall_trimEnd).
  unfold stripFence.
  rewrite exec_fence_none by (unfold core; cbn [app]; now apply prose_no_fence).
  rewrite Hbad.
  assert (Hguard : isArrayExpected && startsWith (pre' ++ core ++ post') (lit "[")
                   && endsWith (pre' ++ core ++ post') (lit "]") = false).
  { destruct isArrayExpected; [|reflexivity]. cbn [andb].
    destruct Hpre' as [|p0 pre1 (Hp0 & _) _].
    - cbn [app]. destruct Hoc as [(-> & ->)|(-> & ->)]; [|reflexivity].
      destruct (exists_last (l := post')) as (body & z & Hz).
      + intros E. rewrite E, app_nil_r in Hbad. cbn [app] in Hbad. congruence.
      + rewrite Hz in *. apply Forall_app in Hpost' as (_ & Hz').
        inversion Hz' as [|? ? Hz93 _]; subst.
        rewrite (app_assoc core body [z]). change (lit "]") with [93].
        rewrite endsWith_last. rewrite (proj2 (N.eqb_neq _ _)); [|congruence].
        apply Bool.andb_false_r.
    - cbn [app]. change (lit "[") with [91]. cbn [startsWith].
      rewrite (proj2 (N.eqb_neq _ _)); [reflexivity|congruence]. }
  rewrite Hguard.
  apply (looseMatchParse_whole _ core).
  - unfold exec. rewrite exec_from_skip by (now apply proseChar_noOpening).
    unfold core. cbn [app]. rewrite <- app_assoc. cbn [app].
    apply exec_from_bracketed; assumption.
  - discriminate.
  - exact Hv.
Qed.

(** X4. A JSON array or object that stands in prose is found by the
    loose match: if the text before it holds no opening bracket, no
    opening brace and no backtick, the text after it does not hold the
    closing character, and the whole trimmed text is no JSON itself, the
    decoder returns the value of the bracketed stretch, whether an array
    is expected or not. *)
Theorem X4_value_wrapped_in_prose (pre mid post : str) (opening closing : char)
        (v : value) (isArrayExpected : bool) :
  (opening = 91 /\ closing = 93) \/ (opening = 123 /\ closing = 125) ->
  JSON_parse (opening :: mid ++ [closing]) = Some v ->
  Forall (fun c => c <> 91 /\ c <> 123 /\ c <> 96) pre ->
  Forall (fun c => c <> closing) post ->
  JSON_parse (trim (pre ++ (opening :: mid ++ [closing]) ++ post)) = None ->
  parseJsonFromText (pre ++ (opening :: mid ++ [closing]) ++ post) isArrayExpected = v.
Proof. exact (parse_prose_wrapped pre mid post opening closing v isArrayExpected). Qed.

Lemma X4_witness :
  parseJsonFromText
    (lit "Here is the deal: " ++ (123 :: jq "'title':'A'" ++ [125]) ++ lit " Enjoy!")
    true
  = objA.
Proof.
  apply (X4_value_wrapped_in_prose (lit "Here is the deal: ") (jq "'title':'A'")
           (lit " Enjoy!") 123 125 objA true).
  - right. split; reflexivity.
  - vm_compute. reflexivity.
  - repeat constructor; discriminate.
  - repeat constructor; discriminate.
  - vm_compute. reflexivity.
Defined.

Lemma parse_plain_prose (text : str) (isArrayExpected : bool) :
  Forall proseChar text ->
  JSON_parse (trim text) = None ->
  parseJsonFromText text isArrayExpected = JNull.
Proof.
  intros Ht Hbad. unfold parseJsonFromText.
  assert (Hj : Forall proseChar (trim text)) by (now apply Forall_trim).
  set (j := trim text) in *. unfold stripFence.
  assert (H96 : head_is (fun x => x =? 96) j = false).
  { destruct Hj as [|x s (_ & _ & Hx) _]; cbn [head_is];
      [reflexivity|now apply N.eqb_neq]. }
  rewrite exec_fence_none by exact H96. rewrite Hbad.
  assert (Hs : startsWith j (lit "[") = false).
  { change (lit "[") with [91]. destruct Hj as [|x s (Hx & _) _];
      cbn [startsWith]; [reflexivity|].
    rewrite (proj2 (N.eqb_neq _ _)); [reflexivity|congruence]. }
  rewrite Hs, Bool.andb_false_r. cbn [andb].
  unfold looseMatchParse.
  now rewrite exec_loose_none by (now apply proseChar_noOpening).
Qed.

(** X5. A text with no opening bracket, no opening brace and no backtick
    that is no JSON itself decodes to null, whether an array is expected
    or not. *)
Theorem X5_prose_without_brackets_decodes_to_null (text : str) (isArrayExpected : bool) :
  Forall (fun c => c <> 91 /\ c <> 123 /\ c <> 96) text ->
  JSON_parse (trim text) = None ->
  parseJsonFromText text isArrayExpected = JNull.
Proof. exact (parse_plain_prose text isArrayExpected). Qed.

Lemma X5_witness :
  parseJsonFromText (lit "Sorry, I cannot help with that.") true = JNull.
Proof.
  apply (X5_prose_without_brackets_decodes_to_null
           (lit "Sorry, I cannot help with that.") true).
  - repeat constructor; discriminate.
  - vm_compute. reflexivity.
Defined.

(** ** Printing a natural number *)

Lemma digits_fuel_spec (f : nat) :
  forall (n : N) (acc : str),
    n < 10 ^ N.of_nat (S f) ->
    exists ds,
      digits_fuel (S f) n acc = ds ++ acc
      /\ Forall (fun c => is_digit c = true) ds
      /\ forall a, digits_N ds a = a * 10 ^ N.of_nat (length ds) + n.
Proof.
  induction f as [|f IH]; intros n acc Hn.
  - change (10 ^ N.of_nat 1) with 10 in Hn.
    cbn [digits_fuel]. rewrite (proj2 (N.ltb_lt _ _) Hn).
    exists [48 + n mod 10]. split; [reflexivity|].
    rewrite N.mod_small by exact Hn. split.
    + constructor; [|constructor]. unfold is_digit.
      apply Bool.andb_true_iff. split; apply N.leb_le; lia.
    + intros a. cbn [digits_N length]. change (10 ^ N.of_nat 1) with 10. lia.
  - cbn [digits_fuel]. destruct (n <? 10) eqn:E.
    + apply N.ltb_lt in E. exists [48 + n mod 10]. split; [reflexivity|].
      rewrite N.mod_small by exact E. split.
      * constructor; [|constructor]. unfold is_digit.
        apply Bool.andb_true_iff. split; apply N.leb_le; lia.
      * intros a. cbn [digits_N length]. change (10 ^ N.of_nat 1) with 10. lia.
    + assert (Hq : n / 10 < 10 ^ N.of_nat (S f)).
      { apply N.Div0.div_lt_upper_bound.
        replace (10 * 10 ^ N.of_nat (S f)) with (10 ^ N.of_nat (S (S f))); [exact Hn|].
        rewrite (Nat2N.inj_succ (S f)), N.pow_succ_r'. reflexivity. }
      destruct (IH (n / 10) ((48 + n mod 10) :: acc) Hq) as (ds & Hds & Hd & Hv).
      exists (ds ++ [48 + n mod 10]). split.
      * change (digits_fuel (S f) (n / 10) ((48 + n mod 10) :: acc)
                = (ds ++ [48 + n mod 10]) ++ acc).
        rewrite Hds. now rewrite <- app_assoc.
      * split.
        -- apply Forall_app. split; [exact Hd|]. constructor; [|constructor].
           unfold is_digit. apply Bool.andb_true_iff.
           assert (Hr : n mod 10 < 10) by (apply N.mod_upper_bound; discriminate).
           set (r := n mod 10) in *.
           split; apply N.leb_le; lia.
        -- intros a.
           assert (Hsplit : forall x y b, digits_N (x ++ y) b = digits_N y (digits_N x b)).
           { clear. induction x as [|c x IHx]; intros y b; [reflexivity|].
             cbn [app digits_N]. apply IHx. }
           rewrite Hsplit, Hv. cbn [digits_N].
           rewrite length_app. cbn [length].
           replace (length ds + 1)%nat with (S (length ds)) by lia.
           rewrite Nat2N.inj_succ, N.pow_succ_r'.
           assert (Hdm : n = 10 * (n / 10) + n mod 10)
             by (apply N.div_mod; discriminate).
           set (r := n mod 10) in *. set (q := n / 10) in *.
           replace (48 + r - 48) with r by lia.
           set (p := 10 ^ N.of_nat (length ds)) in *.
           rewrite Hdm. lia.
Qed.

Lemma ofN_fuel (n : N) : n < 10 ^ N.of_nat (S (N.to_nat (N.log2 n))).
Proof.
  rewrite Nat2N.inj_succ, N2Nat.id.
  destruct (N.eq_dec n 0) as [->|Hn]; [reflexivity|].
  destruct (N.log2_spec n ltac:(lia)) as (_ & Hlt).
  eapply N.lt_le_trans; [exact Hlt|].
  apply N.pow_le_mono_l. lia.
Qed.

(** The digits of [ofN n] read back as [n]. *)
Lemma ofN_digits (n : N) :
  Forall (fun c => is_digit c = true) (ofN n) /\ digits_N (ofN n) 0 = n.
Proof.
  unfold ofN.
  destruct (digits_fuel_spec (N.to_nat (N.log2 n)) n [] (ofN_fuel n))
    as (ds & -> & Hd & Hv).
  rewrite app_nil_r. split; [exact Hd|]. rewrite Hv. lia.
Qed.

Lemma ofN_inj (a b : N) : ofN a = ofN b -> a = b.
Proof.
  intros H. rewrite <- (proj2 (ofN_digits a)), <- (proj2 (ofN_digits b)).
  now rewrite H.
Qed.

Lemma ofNat_inj (a b : nat) : ofNat a = ofNat b -> a = b.
Proof. unfold ofNat. intros H. apply ofN_inj in H. lia. Qed.

(** Two texts made of digits, a hyphen and digits are equal only if
    both parts are. *)
Lemma digits_hyphen_split (x y x' y' : str) :
  Forall (fun c => is_digit c = true) x ->
  Forall (fun c => is_digit c = true) x' ->
  x ++ 45 :: y = x' ++ 45 :: y' -> x = x' /\ y = y'.
Proof.
  intros Hx. revert x'. induction Hx as [|c x Hc _ IH]; intros x' Hx' E.
  - destruct Hx' as [|c' x' Hc' _]; cbn [app] in E.
    + injection E as ->. now split.
    + injection E as <- _. discriminate.
  - destruct Hx' as [|c' x' Hc' Hx']; cbn [app] in E.
    + injection E as -> _. discriminate.
    + injection E as <- E. destruct (IH x' Hx' E) as (-> & ->). now split.
Qed.

(** ** Writing one property leaves the others alone *)

Lemma str_eqb_neq (a b : str) : a <> b -> JsString.eqb a b = false.
Proof.
  intros H. destruct (JsString.eqb a b) eqn:E; [|reflexivity].
  apply str_eqb_eq in E. contradiction.
Qed.

Lemma obj_get_replace_other (k k' : str) (v : value) (o : list (str * value)) :
  k' <> k -> obj_get k (obj_replace k' v o) = obj_get k o.
Proof.
  intros Hne. induction o as [|[k1 v1] o IH]; cbn [obj_replace obj_get]; [reflexivity|].
  destruct (JsString.eqb k1 k') eqn:E; cbn [obj_get].
  - apply str_eqb_eq in E. subst k1. now rewrite (str_eqb_neq _ _ Hne).
  - now rewrite IH.
Qed.

Lemma obj_get_insert_other (i : N) (k k' : str) (v : value) (o : list (str * value)) :
  k' <> k -> obj_get k (obj_insert_index i k' v o) = obj_get k o.
Proof.
  intros Hne. induction o as [|[k1 v1] o IH]; cbn [obj_insert_index obj_get].
  - now rewrite (str_eqb_neq _ _ Hne).
  - destruct (array_index k1) as [j|].
    + destruct (j <? i); cbn [obj_get].
      * now rewrite IH.
      * now rewrite (str_eqb_neq _ _ Hne).
    + cbn [obj_get]. now rewrite (str_eqb_neq _ _ Hne).
Qed.

Lemma obj_get_app (k : str) (o o' : list (str * value)) :
  obj_get k (o ++ o')
  = match obj_get k o with Some v => Some v | None => obj_get k o' end.
Proof.
  induction o as [|[k1 v1] o IH]; cbn [app obj_get]; [reflexivity|].
  destruct (JsString.eqb k1 k); [reflexivity|exact IH].
Qed.

Lemma obj_get_set_other (k k' : str) (v : value) (o : list (str * value)) :
  k' <> k -> obj_get k (obj_set k' v o) = obj_get k o.
Proof.
  intros Hne. unfold obj_set. destruct (obj_get k' o).
  - now apply obj_get_replace_other.
  - destruct (array_index k').
    + now apply obj_get_insert_other.
    + rewrite obj_get_app. cbn [obj_get]. rewrite (str_eqb_neq _ _ Hne).
      now destruct (obj_get k o).
Qed.

(** Building an object from a list of members: the last member of a
    name wins. *)
Lemma obj_get_fold (k : str) (members : list (str * value)) :
  forall o,
    obj_get k (fold_left (fun o kv => obj_set (fst kv) (snd kv) o) members o)
    = match obj_get k (rev members) with
      | Some v => Some v
      | None => obj_get k o
      end.
Proof.
  induction members as [|[k1 v1] members IH]; intros o; [reflexivity|].
  cbn [fold_left rev fst snd]. rewrite IH, obj_get_app. cbn [obj_get].
  destruct (obj_get k (rev members)); [reflexivity|].
  destruct (JsString.eqb k1 k) eqn:E.
  - apply str_eqb_eq in E. subst k1. apply obj_get_set.
  - apply obj_get_set_other. intros ->. now rewrite str_eqb_refl in E.
Qed.

Lemma obj_get_None_notin (k : str) (o : list (str * value)) :
  ~ In k (map fst o) -> obj_get k o = None.
Proof.
  induction o as [|[k1 v1] o IH]; cbn [map fst obj_get In]; [reflexivity|].
  intros H. rewrite str_eqb_neq by tauto. apply IH. tauto.
Qed.

Lemma obj_get_rev (k : str) (o : list (str * value)) :
  NoDup (map fst o) -> obj_get k (rev o) = obj_get k o.
Proof.
  induction o as [|[k1 v1] o IH]; [reflexivity|].
  cbn [map fst rev obj_get]. intros H. inversion H as [|? ? Hnotin Hnd]; subst.
  rewrite obj_get_app, IH by exact Hnd. cbn [obj_get].
  destruct (JsString.eqb k1 k) eqn:E.
  - apply str_eqb_eq in E. subst k1. now rewrite obj_get_None_notin.
  - now destruct (obj_get k o).
Qed.

Lemma obj_get_mk_object (k : str) (props : list (str * value)) :
  NoDup (map fst props) -> obj_get k (mk_object props) = obj_get k props.
Proof.
  intros H. unfold mk_object. rewrite obj_get_fold, obj_get_rev by exact H.
  now destruct (obj_get k props).
Qed.

(** ** One deal, then all of them *)

Lemma dealWithId_cases (env : Env) (deal : value) (index : nat) (w : World) :
  (exists seed,
     dealWithId env deal index w
     = (Return (builtDeal env deal (clockReads w) index seed), tick w))
  \/ (exists e, dealWithId env deal index w = (Throw e, tick w) /\ notKeyError e).
Proof.
  unfold dealWithId, bind, dateNow, lift, orTypeError, ret, throw, builtDeal,
    dealId, tick, notKeyError.
  destruct (getField deal (lit "title")) as [titleField|]; cbv beta iota.
  - match goal with
    | |- context [ToString ?sv] => destruct (ToString sv) as [seedText|]
    end; cbv beta iota.
    + destruct (encodeURIComponent seedText) as [seed|].
      * left. now exists seed.
      * right. eexists. split; reflexivity.
    + right. eexists. split; reflexivity.
  - right. eexists. split; reflexivity.
Qed.

Lemma mapDeals_returns (env : Env) (items : list value) :
  forall (index : nat) (w : World) (ds : list value) (w' : World),
    mapDeals env items index w = (Return ds, w') ->
    ai w' = ai w /\ sent w' = sent w /\ randomDraws w' = randomDraws w
    /\ clockReads w' = (clockReads w + length items)%nat
    /\ length ds = length items
    /\ forall i item,
         nth_error items i = Some item ->
         exists seed,
           nth_error ds i
           = Some (builtDeal env item (clockReads w + i) (index + i) seed).
Proof.
  induction items as [|item items IH]; intros index w ds w' H.
  - cbn [mapDeals ret] in H. injection H as <- <-.
    repeat split; try reflexivity; [cbn [length]; lia|].
    intros [|i] it Hi; discriminate.
  - cbn [mapDeals] in H. unfold bind in H.
    destruct (dealWithId_cases env item index w) as [(seed & E)|(e & E & _)];
      rewrite E in H; [|discriminate].
    destruct (mapDeals env items (S index) (tick w)) as [[ds'|e] w1] eqn:Em;
      [|discriminate].
    cbn [ret] in H. injection H as <- <-.
    destruct (IH _ _ _ _ Em) as (Ha & Hs & Hr & Hc & Hl & Hf).
    cbn [tick ai sent randomDraws clockReads] in *.
    repeat split; try assumption; [cbn [length]; lia|cbn [length]; lia|].
    intros [|i] it Hi; cbn [nth_error] in *.
    + injection Hi as <-. exists seed. now rewrite !Nat.add_0_r.
    + destruct (Hf i it Hi) as (seed' & Hd). exists seed'. rewrite Hd.
      replace (S (clockReads w) + i)%nat with (clockReads w + S i)%nat by lia.
      replace (S index + i)%nat with (index + S i)%nat by lia.
      reflexivity.
Qed.

(** An error raised while the deals are built is never the missing-key
    error. *)
Lemma mapDeals_throws (env : Env) (items : list value) :
  forall (index : nat) (w : World) (e : JsError) (w' : World),
    mapDeals env items index w = (Throw e, w') -> notKeyError e.
Proof.
  induction items as [|item items IH]; intros index w e w' H.
  - discriminate.
  - cbn [mapDeals] in H. unfold bind in H.
    destruct (dealWithId_cases env item index w) as [(seed & E)|(e0 & E & He)];
      rewrite E in H.
    + destruct (mapDeals env items (S index) (tick w)) as [[ds'|e1] w1] eqn:Em.
      * discriminate.
      * injection H as <- _. exact (IH _ _ _ _ Em).
    + injection H as <- _. exact He.
Qed.

(** ** generateDeals, once the model has answered *)

(** The world in which the deals are built: the client is in place and
    the request has gone out. *)
Lemma generateDeals_answered (env : Env) (prefs : UserPreferences) (g : bool)
      (w : World) (response : GenerateContentResponse) :
  credentialAvailable env w = true ->
  remoteGenerateContent env (length (sent w)) (dealsRequest prefs g) = inr response ->
  exists w2,
    sent w2 = sent w ++ [dealsRequest prefs g]
    /\ clockReads w2 = clockReads w /\ randomDraws w2 = randomDraws w
    /\ generateDeals env prefs g w
       = match dealsWithIds env (parseJsonFromText (responseText response) true) w2 with
         | (Return ds, w3) =>
             (Return {| deals := ds; groundingMetadata := firstGrounding response |},
              w3)
         | (Throw e, w3) =>
             (if JsString.eqb (message e) API_KEY_MISSING
              then Throw e else Throw (Error GENERATE_FAILED), w3)
         end.
Proof.
  intros Hav Hr.
  destruct (initializeAi_available env w Hav) as (c & w1 & Hi & Hs & Hc & Hd).
  exists {| ai := ai w1; sent := sent w1 ++ [dealsRequest prefs g];
            clockReads := clockReads w1; randomDraws := randomDraws w1 |}.
  cbn [sent clockReads randomDraws]. rewrite Hs, Hc, Hd.
  repeat (split; [reflexivity|]).
  unfold generateDeals, tryCatch, bind, generateContent.
  rewrite Hi; cbv beta iota; rewrite Hs, Hr. cbv beta iota zeta.
  rewrite Hc, Hd.
  match goal with
  | |- context [dealsWithIds env ?p ?w0] =>
      destruct (dealsWithIds env p w0) as [[ds|e] w3]
  end; [reflexivity|].
  destruct (JsString.eqb (message e) API_KEY_MISSING); reflexivity.
Qed.

Lemma generateDeals_inv (env : Env) (prefs : UserPreferences) (g : bool)
      (w : World) (result : GenerateDealsResult) (w' : World) :
  generateDeals env prefs g w = (Return result, w') ->
  exists response w2,
    remoteGenerateContent env (length (sent w)) (dealsRequest prefs g) = inr response
    /\ sent w2 = sent w ++ [dealsRequest prefs g]
    /\ clockReads w2 = clockReads w /\ randomDraws w2 = randomDraws w
    /\ groundingMetadata result = firstGrounding response
    /\ dealsWithIds env (parseJsonFromText (responseText response) true) w2
       = (Return (deals result), w').
Proof.
  intros H.
  destruct (credentialAvailable env w) eqn:Hav.
  - destruct (remoteGenerateContent env (length (sent w)) (dealsRequest prefs g))
      as [e|response] eqn:Hr.
    + pose proof (generateDeals_rejected env prefs g w e Hav Hr) as Hrej.
      rewrite H in Hrej. cbn [fst] in Hrej.
      destruct (JsString.eqb (message e) API_KEY_MISSING); discriminate.
    + destruct (generateDeals_answered env prefs g w response Hav Hr)
        as (w2 & Hs & Hc & Hd & Hg).
      exists response, w2. rewrite Hg in H.
      destruct (dealsWithIds env _ w2) as [[ds|e] w3].
      * injection H as <- <-. cbn [deals groundingMetadata]. auto 10.
      * destruct (JsString.eqb (message e) API_KEY_MISSING); discriminate.
  - rewrite (generateDeals_absent env prefs g w Hav) in H. discriminate.
Qed.

Lemma dealsWithIds_inv (env : Env) (parsed : value) (w : World)
      (ds : list value) (w' : World) :
  dealsWithIds env parsed w = (Return ds, w') ->
  (truthy parsed = false /\ ds = [] /\ w' = w)
  \/ exists items, parsed = JArray items /\ mapDeals env items 0 w = (Return ds, w').
Proof.
  unfold dealsWithIds. destruct (truthy parsed) eqn:Ht.
  - destruct parsed; try discriminate. intros H. right. now eexists.
  - cbn [ret]. intros H. injection H as <- <-. now left.
Qed.

(** ** The missing credential among the failures of generateDeals *)

Lemma dealsWithIds_throws (env : Env) (parsed : value) (w : World)
      (e : JsError) (w' : World) :
  dealsWithIds env parsed w = (Throw e, w') -> notKeyError e.
Proof.
  unfold dealsWithIds. destruct (truthy parsed); [|discriminate].
  destruct parsed as [|b|d|s|items|props];
    try (intros H; injection H as <- _; reflexivity).
  apply mapDeals_throws.
Qed.

(** With the gate open, a failure of [generateDeals] is the generic one,
    unless the oracle itself rejected the request with an error named
    [API_KEY_MISSING], which is passed on as it is. *)
Lemma generateDeals_available_throws (env : Env) (prefs : UserPreferences)
      (g : bool) (w : World) (e : JsError) :
  credentialAvailable env w = true ->
  fst (generateDeals env prefs g w) = Throw e ->
  (e = Error GENERATE_FAILED
   /\ JsString.eqb (message e) API_KEY_MISSING = false)
  \/ (remoteGenerateContent env (length (sent w)) (dealsRequest prefs g) = inl e
      /\ JsString.eqb (message e) API_KEY_MISSING = true).
Proof.
  intros Hav.
  destruct (remoteGenerateContent env (length (sent w)) (dealsRequest prefs g))
    as [e0|response] eqn:Hr.
  - rewrite (generateDeals_rejected env prefs g w e0 Hav Hr).
    destruct (JsString.eqb (message e0) API_KEY_MISSING) eqn:Hm;
      intros H; injection H as <-.
    + right. now split.
    + left. split; reflexivity.
  - destruct (generateDeals_answered env prefs g w response Hav Hr)
      as (w2 & _ & _ & _ & ->).
    destruct (dealsWithIds env _ w2) as [[ds|e1] w3] eqn:Ed; [discriminate|].
    rewrite (dealsWithIds_throws _ _ _ _ _ Ed). cbn [fst].
    intros H; injection H as <-. left. split; reflexivity.
Qed.

(** C5, as the code has it. For every preferences value and either
    grounding mode, with the credential absent [generateDeals] fails with
    the error [API_KEY_MISSING] and leaves the world as it was: no request
    has been sent. The caller tells this failure by its message from
    every failure of a call that had the credential, with one exception.
    Such a failure is the generic error, whose message is another one, or
    it is an error named [API_KEY_MISSING] with which the oracle itself
    rejected the request, passed on unchanged. *)
Theorem C5_generateDeals_credentials_missing
        (env : Env) (prefs : UserPreferences) (g : bool) (w : World) :
  credentialAvailable env w = false ->
  generateDeals env prefs g w = (Throw (Error API_KEY_MISSING), w)
  /\ sent (snd (generateDeals env prefs g w)) = sent w
  /\ forall env' prefs' g' w' e,
       credentialAvailable env' w' = true ->
       fst (generateDeals env' prefs' g' w') = Throw e ->
       (e = Error GENERATE_FAILED
        /\ JsString.eqb (message e) API_KEY_MISSING = false)
       \/ (remoteGenerateContent env' (length (sent w')) (dealsRequest prefs' g')
           = inl e
           /\ JsString.eqb (message e) API_KEY_MISSING = true).
Proof.
  intros Habs. rewrite (generateDeals_absent env prefs g w Habs).
  split; [reflexivity|]. split; [reflexivity|].
  intros env' prefs' g' w' e Hav He.
  exact (generateDeals_available_throws env' prefs' g' w' e Hav He).
Qed.

Lemma C5_witness :
  generateDeals noKeyEnv noPreferences true emptyWorld
  = (Throw (Error API_KEY_MISSING), emptyWorld)
  /\ sent (snd (generateDeals noKeyEnv noPreferences true emptyWorld))
     = sent emptyWorld
  /\ forall env' prefs' g' w' e,
       credentialAvailable env' w' = true ->
       fst (generateDeals env' prefs' g' w') = Throw e ->
       (e = Error GENERATE_FAILED
        /\ JsString.eqb (message e) API_KEY_MISSING = false)
       \/ (remoteGenerateContent env' (length (sent w')) (dealsRequest prefs' g')
           = inl e
           /\ JsString.eqb (message e) API_KEY_MISSING = true).
Proof.
  apply (C5_generateDeals_credentials_missing noKeyEnv noPreferences true
           emptyWorld).
  reflexivity.
Defined.

(** C5 as stated fails: the failure is not told from every other one.
    With a key in the environment and an oracle that rejects the request
    with an error named [API_KEY_MISSING], [generateDeals] sends the
    request and then fails with the very error it fails with when the
    credential is absent. *)
Lemma C5_counterexample :
  credentialAvailable noKeyEnv emptyWorld = false
  /\ credentialAvailable (rejectingEnv API_KEY_MISSING) emptyWorld = true
  /\ fst (generateDeals (rejectingEnv API_KEY_MISSING) noPreferences false emptyWorld)
     = fst (generateDeals noKeyEnv noPreferences false emptyWorld)
  /\ fst (generateDeals noKeyEnv noPreferences false emptyWorld)
     = Throw (Error API_KEY_MISSING)
  /\ sent (snd (generateDeals noKeyEnv noPreferences false emptyWorld)) = []
  /\ sent (snd (generateDeals (rejectingEnv API_KEY_MISSING) noPreferences false
                  emptyWorld))
     = [dealsRequest noPreferences false].
Proof. repeat split; vm_compute; reflexivity. Qed.

(** ** The client, and what generateDeals returns *)

(** X6. Once initializeAi has returned a client, every later call
    returns that same client and changes nothing, whatever the
    environment then says about the key. *)
Theorem X6_client_is_built_once (env env' : Env) (w w1 : World) (client : GoogleGenAI) :
  initializeAi env w = (Return client, w1) ->
  initializeAi env' w1 = (Return client, w1).
Proof.
  unfold initializeAi. destruct (ai w) as [c|] eqn:Ha.
  - intros H. injection H as <- <-. now rewrite Ha.
  - destruct (VITE_GEMINI_API_KEY env) as [key|]; [|discriminate].
    destruct (nonEmpty key); [|discriminate].
    intros H. injection H as <- <-. reflexivity.
Qed.

Lemma X6_witness :
  initializeAi noKeyEnv
    {| ai := Some {| apiKey := lit "secret" |}; sent := []; clockReads := 0;
       randomDraws := 0 |}
  = (Return {| apiKey := lit "secret" |},
     {| ai := Some {| apiKey := lit "secret" |}; sent := []; clockReads := 0;
        randomDraws := 0 |}).
Proof.
  apply (X6_client_is_built_once (answeringEnv []) noKeyEnv emptyWorld).
  reflexivity.
Defined.

(** X7. When generateDeals returns, exactly one request was sent (the
    one built from the preferences), no random number was drawn, the
    clock was read once per deal returned, the grounding metadata is
    that of the first candidate of the response, and there are as many
    deals as the decoded array has items, or none when the decoded value
    is falsy. *)
Theorem X7_generateDeals_on_return
        (env : Env) (prefs : UserPreferences) (g : bool) (w : World)
        (result : GenerateDealsResult) (w' : World) :
  generateDeals env prefs g w = (Return result, w') ->
  sent w' = sent w ++ [dealsRequest prefs g]
  /\ randomDraws w' = randomDraws w
  /\ clockReads w' = (clockReads w + length (deals result))%nat
  /\ exists response,
       remoteGenerateContent env (length (sent w)) (dealsRequest prefs g)
       = inr response
       /\ groundingMetadata result = firstGrounding response
       /\ match parseJsonFromText (responseText response) true with
          | JArray items => length (deals result) = length items
          | other => truthy other = false /\ deals result = []
          end.
Proof.
  intros H.
  destruct (generateDeals_inv env prefs g w result w' H)
    as (response & w2 & Hr & Hs & Hc & Hd & Hg & Hds).
  destruct (dealsWithIds_inv _ _ _ _ _ Hds) as [(Ht & He & ->)|(items & Hp & Hm)].
  - rewrite He. cbn [length]. rewrite Nat.add_0_r.
    repeat (split; [assumption|]). exists response.
    repeat (split; [assumption|]).
    destruct (parseJsonFromText (responseText response) true);
      try (split; [exact Ht|reflexivity]). discriminate.
  - destruct (mapDeals_returns env items 0 w2 _ _ Hm)
      as (_ & Hs' & Hr' & Hc' & Hl & _).
    rewrite Hs', Hr', Hc', Hl, Hs, Hc, Hd.
    repeat (split; [reflexivity|]). exists response.
    repeat (split; [assumption|]). now rewrite Hp.
Qed.

Lemma X7_witness :
  sent (sentWorld 1) = sent emptyWorld ++ [dealsRequest noPreferences false]
  /\ randomDraws (sentWorld 1) = randomDraws emptyWorld
  /\ clockReads (sentWorld 1) = (clockReads emptyWorld + length (deals oneDeal))%nat
  /\ exists response,
       remoteGenerateContent (answeringEnv itemWithImage) (length (sent emptyWorld))
         (dealsRequest noPreferences false)
       = inr response
       /\ groundingMetadata oneDeal = firstGrounding response
       /\ match parseJsonFromText (responseText response) true with
          | JArray items => length (deals oneDeal) = length items
          | other => truthy other = false /\ deals oneDeal = []
          end.
Proof.
  apply (X7_generateDeals_on_return (answeringEnv itemWithImage) noPreferences false
           emptyWorld oneDeal (sentWorld 1)).
  vm_compute. reflexivity.
Defined.

Lemma builtDeal_id (env : Env) (item : value) (reads index : nat) (seed : str) :
  field (builtDeal env item reads index seed) (lit "id")
  = Some (JString (dealId env reads index)).
Proof.
  unfold builtDeal, field.
  rewrite obj_get_set_other by discriminate. apply obj_get_set.
Qed.

Lemma builtDeal_other (env : Env) (item : value) (reads index : nat) (seed k : str) :
  k <> lit "id" -> k <> lit "imageUrl" ->
  field (builtDeal env item reads index seed) k
  = obj_get k (mk_object (spreadProps item)).
Proof.
  intros H1 H2. unfold builtDeal, field.
  rewrite !obj_get_set_other by congruence. reflexivity.
Qed.

Lemma dealId_inj (env : Env) (r r' i j : nat) :
  dealId env r i = dealId env r' j -> i = j.
Proof.
  unfold dealId. change (lit "-") with [45]. cbn [app]. intros H.
  apply digits_hyphen_split in H; try apply ofN_digits.
  destruct H as (_ & H). now apply ofNat_inj.
Qed.

(** The deals of a returned result, one by one. *)
Lemma generateDeals_each (env : Env) (prefs : UserPreferences) (g : bool)
      (w : World) (result : GenerateDealsResult) (w' : World) :
  generateDeals env prefs g w = (Return result, w') ->
  exists response items,
    remoteGenerateContent env (length (sent w)) (dealsRequest prefs g) = inr response
    /\ (deals result = []
        \/ parseJsonFromText (responseText response) true = JArray items)
    /\ forall i d,
         nth_error (deals result) i = Some d ->
         exists item seed,
           nth_error items i = Some item
           /\ d = builtDeal env item (clockReads w + i) i seed.
Proof.
  intros H.
  destruct (generateDeals_inv env prefs g w result w' H)
    as (response & w2 & Hr & Hs & Hc & Hd & Hg & Hds).
  destruct (dealsWithIds_inv _ _ _ _ _ Hds) as [(Ht & He & ->)|(items & Hp & Hm)].
  - exists response, []. split; [exact Hr|]. split; [now left|].
    rewrite He. intros [|i] d Hi; discriminate.
  - exists response, items. split; [exact Hr|]. split; [now right|].
    destruct (mapDeals_returns env items 0 w2 _ _ Hm) as (_ & _ & _ & _ & Hl & Hf).
    intros i d Hi.
    assert (Hlt : (i < length items)%nat).
    { rewrite <- Hl. apply nth_error_Some. congruence. }
    destruct (nth_error items i) as [item|] eqn:Ei;
      [|apply nth_error_None in Ei; lia].
    destruct (Hf i item Ei) as (seed & Hd').
    exists item, seed. split; [reflexivity|].
    rewrite Hi in Hd'. injection Hd' as ->. now rewrite Hc.
Qed.

(** X8. The id of the i-th deal that generateDeals returns is the clock
    reading taken for it, a hyphen, and i in decimal; two deals of one
    result that have the same id stand at the same position. *)
Theorem X8_deal_ids_are_distinct
        (env : Env) (prefs : UserPreferences) (g : bool) (w : World)
        (result : GenerateDealsResult) (w' : World) :
  generateDeals env prefs g w = (Return result, w') ->
  forall i j d d',
    nth_error (deals result) i = Some d ->
    nth_error (deals result) j = Some d' ->
    field d (lit "id")
    = Some (JString (ofN (Date_now env (clockReads w + i)) ++ lit "-" ++ ofNat i))
    /\ (field d (lit "id") = field d' (lit "id") -> i = j).
Proof.
  intros H i j d d' Hi Hj.
  destruct (generateDeals_each env prefs g w result w' H)
    as (response & items & _ & _ & Heach).
  destruct (Heach i d Hi) as (item & seed & _ & ->).
  destruct (Heach j d' Hj) as (item' & seed' & _ & ->).
  rewrite !builtDeal_id. split; [reflexivity|].
  intros E. injection E as E. exact (dealId_inj env _ _ i j E).
Qed.

Lemma X8_witness :
  field dealOfItemWithImage (lit "id")
  = Some (JString (ofN (Date_now (answeringEnv itemWithImage)
                          (clockReads emptyWorld + 0))
                   ++ lit "-" ++ ofNat 0))
  /\ (field dealOfItemWithImage (lit "id") = field dealOfItemWithImage (lit "id")
      -> 0%nat = 0%nat).
Proof.
  apply (X8_deal_ids_are_distinct (answeringEnv itemWithImage) noPreferences false
           emptyWorld oneDeal (sentWorld 1) ltac:(vm_compute; reflexivity)
           0%nat 0%nat dealOfItemWithImage dealOfItemWithImage);
    reflexivity.
Defined.

(** X9. For a decoded item that is an object with distinct keys, every
    field other than id and imageUrl reaches the deal at the same
    position unchanged. *)
Theorem X9_item_fields_pass_through
        (env : Env) (prefs : UserPreferences) (g : bool) (w : World)
        (result : GenerateDealsResult) (w' : World)
        (response : GenerateContentResponse) (items : list value)
        (i : nat) (props : list (str * value)) (k : str) :
  generateDeals env prefs g w = (Return result, w') ->
  remoteGenerateContent env (length (sent w)) (dealsRequest prefs g) = inr response ->
  parseJsonFromText (responseText response) true = JArray items ->
  nth_error items i = Some (JObject props) ->
  NoDup (map fst props) ->
  k <> lit "id" -> k <> lit "imageUrl" ->
  exists d, nth_error (deals result) i = Some d /\ field d k = obj_get k props.
Proof.
  intros H Hr Hp Hi Hnd Hk1 Hk2.
  destruct (generateDeals_inv env prefs g w result w' H)
    as (response' & w2 & Hr' & Hs & Hc & Hd & Hg & Hds).
  rewrite Hr in Hr'. injection Hr' as <-. rewrite Hp in Hds.
  cbn [dealsWithIds truthy] in Hds.
  destruct (mapDeals_returns env items 0 w2 _ _ Hds) as (_ & _ & _ & _ & _ & Hf).
  destruct (Hf i _ Hi) as (seed & Hd'). eexists. split; [exact Hd'|].
  rewrite builtDeal_other by assumption. cbn [spreadProps].
  now apply obj_get_mk_object.
Qed.

Lemma X9_witness :
  exists d,
    nth_error (deals oneDeal) 0 = Some d
    /\ field d (lit "title")
       = obj_get (lit "title")
           [ (lit "title", JString (lit "A"));
             (lit "imageUrl", JString (lit "https://cdn.example.com/a.png")) ].
Proof.
  apply (X9_item_fields_pass_through (answeringEnv itemWithImage) noPreferences false
           emptyWorld oneDeal (sentWorld 1)
           {| responseText := itemWithImage; candidates := None |}
           [JObject [ (lit "title", JString (lit "A"));
                      (lit "imageUrl", JString (lit "https://cdn.example.com/a.png")) ]]
           0%nat).
  - vm_compute. reflexivity.
  - reflexivity.
  - vm_compute. reflexivity.
  - reflexivity.
  - constructor; [cbn; intros [H|[]]; discriminate|].
    constructor; [intros []|constructor].
  - discriminate.
  - discriminate.
Defined.

(** X10. With a client available and the request answered, a decoded
    value that is falsy (null, as for an undecodable text) gives an
    empty deal list with the grounding metadata of the response; no
    error is raised. *)
Theorem X10_undecodable_answer_gives_no_deals
        (env : Env) (prefs : UserPreferences) (g : bool) (w : World)
        (response : GenerateContentResponse) :
  credentialAvailable env w = true ->
  remoteGenerateContent env (length (sent w)) (dealsRequest prefs g) = inr response ->
  truthy (parseJsonFromText (responseText response) true) = false ->
  fst (generateDeals env prefs g w)
  = Return {| deals := []; groundingMetadata := firstGrounding response |}.
Proof.
  intros Hav Hr Ht.
  destruct (generateDeals_answered env prefs g w response Hav Hr)
    as (w2 & _ & _ & _ & ->).
  unfold dealsWithIds. rewrite Ht. reflexivity.
Qed.

Lemma X10_witness :
  fst (generateDeals (answeringEnv (lit "I am sorry, no deals today."))
         noPreferences false emptyWorld)
  = Return {| deals := [];
              groundingMetadata :=
                firstGrounding {| responseText := lit "I am sorry, no deals today.";
                                  candidates := None |} |}.
Proof.
  apply (X10_undecodable_answer_gives_no_deals
           (answeringEnv (lit "I am sorry, no deals today.")) noPreferences false
           emptyWorld
           {| responseText := lit "I am sorry, no deals today."; candidates := None |});
    vm_compute; reflexivity.
Defined.

(** X11. An answer that decodes to a truthy value that is no array (an
    object, say) makes generateDeals fail with the generic failure
    message. *)
Theorem X11_answer_that_is_no_array_fails
        (env : Env) (prefs : UserPreferences) (g : bool) (w : World)
        (response : GenerateContentResponse) :
  credentialAvailable env w = true ->
  remoteGenerateContent env (length (sent w)) (dealsRequest prefs g) = inr response ->
  truthy (parseJsonFromText (responseText response) true) = true ->
  (forall items, parseJsonFromText (responseText response) true <> JArray items) ->
  fst (generateDeals env prefs g w) = Throw (Error GENERATE_FAILED).
Proof.
  intros Hav Hr Ht Hna.
  destruct (generateDeals_answered env prefs g w response Hav Hr)
    as (w2 & _ & _ & _ & ->).
  unfold dealsWithIds. rewrite Ht.
  destruct (parseJsonFromText (responseText response) true)
    as [|b|d|s|items|props] eqn:E; try reflexivity.
  exfalso. now apply (Hna items).
Qed.

Lemma X11_witness :
  fst (generateDeals (answeringEnv (jq "{'deals':[]}")) noPreferences false emptyWorld)
  = Throw (Error GENERATE_FAILED).
Proof.
  apply (X11_answer_that_is_no_array_fails (answeringEnv (jq "{'deals':[]}"))
           noPreferences false emptyWorld
           {| responseText := jq "{'deals':[]}"; candidates := None |}).
  - reflexivity.
  - reflexivity.
  - vm_compute. reflexivity.
  - intros items. vm_compute. discriminate.
Defined.

Lemma dealWithId_unusable (env : Env) (item : value) (index : nat) (w : World) :
  unusable item -> exists e w', dealWithId env item index w = (Throw e, w').
Proof.
  intros [->|(props & t & -> & Ht & Hne & Hu)].
  - eexists _, _. reflexivity.
  - unfold dealWithId, bind, dateNow, lift, orTypeError, ret, throw.
    cbn [getField]. rewrite Ht. cbv beta iota.
    destruct t as [|c t]; [congruence|]. cbn [truthy ToString]. cbv beta iota.
    rewrite Hu. eexists _, _. reflexivity.
Qed.

Lemma mapDeals_unusable (env : Env) (items : list value) :
  Exists unusable items ->
  forall (index : nat) (w : World),
    exists e w', mapDeals env items index w = (Throw e, w').
Proof.
  induction 1 as [item items Hbad|item items _ IH]; intros index w;
    cbn [mapDeals]; unfold bind.
  - destruct (dealWithId_unusable env item index w Hbad) as (e & w' & ->).
    now exists e, w'.
  - destruct (dealWithId env item index w) as [[d|e] w1]; [|now exists e, w1].
    destruct (IH (S index) w1) as (e & w' & ->). now exists e, w'.
Qed.

Lemma generateDeals_unusable (env : Env) (prefs : UserPreferences) (g : bool)
      (w : World) (response : GenerateContentResponse) (items : list value) :
  credentialAvailable env w = true ->
  remoteGenerateContent env (length (sent w)) (dealsRequest prefs g) = inr response ->
  parseJsonFromText (responseText response) true = JArray items ->
  Exists unusable items ->
  fst (generateDeals env prefs g w) = Throw (Error GENERATE_FAILED).
Proof.
  intros Hav Hr Hp Hbad.
  destruct (generateDeals_answered env prefs g w response Hav Hr)
    as (w2 & _ & _ & _ & ->).
  rewrite Hp. cbn [dealsWithIds truthy].
  destruct (mapDeals_unusable env items Hbad 0%nat w2) as (e & w3 & Hm).
  rewrite Hm. pose proof (mapDeals_throws env items _ _ _ _ Hm) as He.
  unfold notKeyError in He. now rewrite He.
Qed.

(** X12. One null among the decoded items makes generateDeals fail with
    the generic failure message: no deal of that answer is returned. *)
Theorem X12_one_null_item_loses_all
        (env : Env) (prefs : UserPreferences) (g : bool) (w : World)
        (response : GenerateContentResponse) (items : list value) :
  credentialAvailable env w = true ->
  remoteGenerateContent env (length (sent w)) (dealsRequest prefs g) = inr response ->
  parseJsonFromText (responseText response) true = JArray items ->
  In JNull items ->
  fst (generateDeals env prefs g w) = Throw (Error GENERATE_FAILED).
Proof.
  intros Hav Hr Hp Hin.
  apply (generateDeals_unusable env prefs g w response items Hav Hr Hp).
  apply Exists_exists. exists JNull. split; [exact Hin|now left].
Qed.

Lemma X12_witness :
  fst (generateDeals (answeringEnv (jq "[{'title':'A'},null]")) noPreferences false
         emptyWorld)
  = Throw (Error GENERATE_FAILED).
Proof.
  apply (X12_one_null_item_loses_all (answeringEnv (jq "[{'title':'A'},null]"))
           noPreferences false emptyWorld
           {| responseText := jq "[{'title':'A'},null]"; candidates := None |}
           [objA; JNull]).
  - reflexivity.
  - reflexivity.
  - vm_compute. reflexivity.
  - right. now left.
Defined.

(** X13. A non-empty title with an unpaired surrogate, in any one item,
    makes generateDeals fail with the generic failure message:
    encodeURIComponent raises and the whole answer is lost. *)
Theorem X13_unpaired_surrogate_in_a_title_loses_all
        (env : Env) (prefs : UserPreferences) (g : bool) (w : World)
        (response : GenerateContentResponse) (items : list value)
        (props : list (str * value)) (t : str) :
  credentialAvailable env w = true ->
  remoteGenerateContent env (length (sent w)) (dealsRequest prefs g) = inr response ->
  parseJsonFromText (responseText response) true = JArray items ->
  In (JObject props) items ->
  obj_get (lit "title") props = Some (JString t) ->
  t <> [] -> encodeURIComponent t = None ->
  fst (generateDeals env prefs g w) = Throw (Error GENERATE_FAILED).
Proof.
  intros Hav Hr Hp Hin Ht Hne Hu.
  apply (generateDeals_unusable env prefs g w response items Hav Hr Hp).
  apply Exists_exists. exists (JObject props). split; [exact Hin|].
  right. now exists props, t.
Qed.

Lemma X13_witness :
  fst (generateDeals (answeringEnv (jq "[{'title':'\ud83d'}]")) noPreferences false
         emptyWorld)
  = Throw (Error GENERATE_FAILED).
Proof.
  apply (X13_unpaired_surrogate_in_a_title_loses_all
           (answeringEnv (jq "[{'title':'\ud83d'}]")) noPreferences false emptyWorld
           {| responseText := jq "[{'title':'\ud83d'}]"; candidates := None |}
           [JObject [ (lit "title", JString [55357%N]) ]]
           [ (lit "title", JString [55357%N]) ] [55357%N]).
  - reflexivity.
  - reflexivity.
  - vm_compute. reflexivity.
  - now left.
  - reflexivity.
  - discriminate.
  - reflexivity.
Defined.

(** ** verifyDeal, whatever happens *)

Lemma readField_throws (deal : value) (name : str) (e : JsError) :
  readField deal name = Throw e -> notKeyError e.
Proof.
  unfold readField, obind, orTypeError.
  destruct (getField deal name) as [f|].
  - destruct (interpolate f); [discriminate|]. intros H. now injection H as <-.
  - intros H. now injection H as <-.
Qed.

Lemma verifyPrompt_throws (deal : value) (e : JsError) :
  verifyPrompt deal = Throw e -> notKeyError e.
Proof.
  unfold verifyPrompt, obind.
  repeat match goal with
         | |- context [readField deal ?n] =>
             let E := fresh "E" in
             destruct (readField deal n) eqn:E;
             [|intros H; injection H as <-; now apply (readField_throws deal n)]
         end.
  discriminate.
Qed.

(** The outcomes of [verifyDeal] with the gate open, by what the world
    does. *)
Lemma verifyDeal_prompt_fails (env : Env) (deal : value) (w : World) (e : JsError) :
  credentialAvailable env w = true ->
  verifyPrompt deal = Throw e ->
  exists w1,
    verifyDeal env deal w = (Return (verification CONNECT_FAILED), w1)
    /\ sent w1 = sent w.
Proof.
  intros Hav Hp.
  destruct (initializeAi_available env w Hav) as (c & w1 & Hi & Hs & _).
  exists w1. split; [|exact Hs].
  unfold verifyDeal, tryCatch, bind, lift. rewrite Hi, Hp. cbv beta iota.
  pose proof (verifyPrompt_throws deal e Hp) as He. unfold notKeyError in He.
  now rewrite He.
Qed.

Lemma verifyDeal_outcomes (env : Env) (deal : value) (w : World) :
  (fst (verifyDeal env deal w) = Throw (Error API_KEY_MISSING)
   /\ snd (verifyDeal env deal w) = w)
  \/ (exists e, fst (verifyDeal env deal w) = Throw e
                /\ JsString.eqb (message e) API_KEY_MISSING = true
                /\ length (sent (snd (verifyDeal env deal w))) = S (length (sent w)))
  \/ (exists v, fst (verifyDeal env deal w) = Return v /\ truthy v = true
                /\ (length (sent (snd (verifyDeal env deal w))) <= S (length (sent w)))%nat).
Proof.
  destruct (credentialAvailable env w) eqn:Hav.
  - destruct (verifyPrompt deal) as [prompt|e] eqn:Hp.
    + destruct (remoteGenerateContent env (length (sent w)) (verifyRequest prompt))
        as [e|response] eqn:Hr.
      * destruct (verifyDeal_rejected env deal w prompt e Hav Hp Hr) as (w' & E & Hs).
        rewrite E. cbn [fst snd].
        destruct (JsString.eqb (message e) API_KEY_MISSING) eqn:Hm.
        -- right; left. exists e. repeat split; auto.
           rewrite Hs, length_app. cbn [length]. lia.
        -- right; right. eexists. repeat split.
           rewrite Hs, length_app. cbn [length]. lia.
      * destruct (verifyDeal_answered env deal w prompt response Hav Hp Hr)
          as (w' & E & Hs).
        rewrite E. cbn [fst snd]. right; right. eexists. split; [reflexivity|].
        split.
        -- cbv zeta. destruct (truthy (parseJsonFromText _ false)) eqn:Ht;
             [exact Ht|reflexivity].
        -- rewrite Hs, length_app. cbn [length]. lia.
    + destruct (verifyDeal_prompt_fails env deal w e Hav Hp) as (w1 & E & Hs).
      rewrite E. cbn [fst snd]. right; right. eexists. repeat split.
      rewrite Hs. lia.
  - left. unfold verifyDeal, tryCatch, bind.
    rewrite (initializeAi_absent env w Hav). cbv beta iota.
    change (message (Error API_KEY_MISSING)) with API_KEY_MISSING.
    rewrite str_eqb_refl. now split.
Qed.

Lemma verifyDeal_returns_truthy (env : Env) (deal : value) (w : World) (v : value) :
  fst (verifyDeal env deal w) = Return v -> truthy v = true.
Proof.
  intros H.
  destruct (verifyDeal_outcomes env deal w) as [(E & _)|[(e & E & _)|(v' & E & Ht & _)]];
    rewrite H in E; try discriminate.
  now injection E as ->.
Qed.

(** X14. A value that verifyDeal returns is never falsy (never null, in
    particular): a falsy decoded value is replaced by the fallback
    verification. *)
Theorem X14_verification_is_never_falsy
        (env : Env) (deal : value) (w : World) (v : value) :
  fst (verifyDeal env deal w) = Return v -> truthy v = true.
Proof. exact (verifyDeal_returns_truthy env deal w v). Qed.

Lemma X14_witness : truthy (verification FORMAT_ERROR) = true.
Proof.
  apply (X14_verification_is_never_falsy (answeringEnv (lit "null")) sampleDeal
           emptyWorld).
  vm_compute. reflexivity.
Defined.

(** X15. With a client available, a deal whose prompt cannot be built (a
    field read or a conversion raises) gives the connection-failure
    verification, and no request is sent. *)
Theorem X15_prompt_failure_is_reported_as_connection_failure
        (env : Env) (deal : value) (w : World) (e : JsError) :
  credentialAvailable env w = true ->
  verifyPrompt deal = Throw e ->
  fst (verifyDeal env deal w) = Return (verification CONNECT_FAILED)
  /\ sent (snd (verifyDeal env deal w)) = sent w.
Proof.
  intros Hav Hp.
  destruct (verifyDeal_prompt_fails env deal w e Hav Hp) as (w1 & -> & Hs).
  now split.
Qed.

Lemma X15_witness :
  fst (verifyDeal (answeringEnv []) JNull emptyWorld)
  = Return (verification CONNECT_FAILED)
  /\ sent (snd (verifyDeal (answeringEnv []) JNull emptyWorld)) = sent emptyWorld.
Proof.
  apply (X15_prompt_failure_is_reported_as_connection_failure
           (answeringEnv []) JNull emptyWorld
           (TypeError (lit "Cannot read properties of null")));
    reflexivity.
Defined.

(** ** fetchDeals *)

Lemma generateDeals_throw_kind (env : Env) (prefs : UserPreferences) (g : bool)
      (w : World) (e : JsError) (w' : World) :
  generateDeals env prefs g w = (Throw e, w') ->
  JsString.eqb (message e) API_KEY_MISSING = true \/ e = Error GENERATE_FAILED.
Proof.
  unfold generateDeals, tryCatch.
  match goal with |- context [bind ?a ?b w] => destruct (bind a b w) as [[r|e0] w1] end;
    [discriminate|].
  destruct (JsString.eqb (message e0) API_KEY_MISSING) eqn:Hm; cbn [throw];
    intros H; injection H as <- _; auto.
Qed.

(** X16. fetchDeals ends with isLoading false; the deals, the error and
    the world after it do not depend on the state before; a key once
    found missing stays missing; the verification fields are untouched. *)
Theorem X16_fetchDeals_replaces_and_settles
        (env : Env) (prefs : UserPreferences) (g : bool)
        (st st2 : App.AppState) (w : World) :
  let after := App.fetchDeals env prefs g st w in
  let after2 := App.fetchDeals env prefs g st2 w in
  App.isLoading (fst after) = false
  /\ App.deals (fst after) = App.deals (fst after2)
  /\ App.error (fst after) = App.error (fst after2)
  /\ snd after = snd after2
  /\ (App.apiKeyMissing st = true -> App.apiKeyMissing (fst after) = true)
  /\ App.selectedDealForVerification (fst after) = App.selectedDealForVerification st
  /\ App.verificationData (fst after) = App.verificationData st
  /\ App.isVerifying (fst after) = App.isVerifying st.
Proof.
  cbv zeta. unfold App.fetchDeals.
  destruct (generateDeals env prefs g w) as [[result|err] w1].
  - cbn. repeat split; auto.
  - destruct (JsString.eqb (message err) API_KEY_MISSING).
    + destruct (App.mockDeals env INITIAL_DEALS_COUNT 0 w1) as [ds w2].
      cbn. repeat split; auto.
    + cbn. repeat split; auto.
Qed.

(** X17. fetchDeals ends in one of three ways: with no error and the
    missing-key flag as before; with the placeholder notice, the flag
    set and INITIAL_DEALS_COUNT deals; or with the generic error message
    and its details, the flag as before and no deals. *)
Theorem X17_fetchDeals_ends_in_one_of_three_ways
        (env : Env) (prefs : UserPreferences) (g : bool)
        (st : App.AppState) (w : World) :
  let st' := fst (App.fetchDeals env prefs g st w) in
  (App.error st' = None /\ App.apiKeyMissing st' = App.apiKeyMissing st)
  \/ (App.error st' = Some MOCK_API_KEY_NOTICE
      /\ App.apiKeyMissing st' = true
      /\ length (App.deals st') = INITIAL_DEALS_COUNT)
  \/ (App.error st'
      = Some (GEMINI_ERROR_MESSAGE ++ lit " Details: " ++ GENERATE_FAILED)
      /\ App.apiKeyMissing st' = App.apiKeyMissing st
      /\ App.deals st' = []).
Proof.
  cbv zeta. unfold App.fetchDeals.
  destruct (generateDeals env prefs g w) as [[result|err] w1] eqn:E.
  - left. cbn. now split.
  - destruct (generateDeals_throw_kind env prefs g w err w1 E) as [Hm| ->].
    + rewrite Hm. right; left.
      pose proof (mockDeals_length env INITIAL_DEALS_COUNT 0 w1) as Hl.
      destruct (App.mockDeals env INITIAL_DEALS_COUNT 0 w1) as [ds w2].
      cbn in *. repeat split; auto.
    + right; right. cbn. repeat split; auto.
Qed.

(** ** handleVerifyDeal *)

(** X18. handleVerifyDeal always settles: isVerifying is false, the deal
    is selected, the verification data is a truthy value, the deals, the
    error and the missing-key flag are as before, and with the key known
    to be missing the world is untouched. *)
Theorem X18_handleVerifyDeal_always_settles
        (env : Env) (deal : value) (st : App.AppState) (w : World) :
  let st' := fst (App.handleVerifyDeal env deal st w) in
  App.isVerifying st' = false
  /\ App.selectedDealForVerification st' = Some deal
  /\ (exists v, App.verificationData st' = Some v /\ truthy v = true)
  /\ App.deals st' = App.deals st
  /\ App.error st' = App.error st
  /\ App.apiKeyMissing st' = App.apiKeyMissing st
  /\ (App.apiKeyMissing st = true -> snd (App.handleVerifyDeal env deal st w) = w).
Proof.
  cbv zeta. unfold App.handleVerifyDeal.
  destruct (App.apiKeyMissing st) eqn:Hk.
  - cbn. repeat split; auto. eexists. split; reflexivity.
  - destruct (verifyDeal env deal w) as [[v|e] w1] eqn:E.
    + cbn. repeat split; auto; try discriminate. exists v. split; [reflexivity|].
      apply (verifyDeal_returns_truthy env deal w). now rewrite E.
    + cbn. repeat split; auto; try discriminate. eexists. split; reflexivity.
Qed.

(** X19. Every failure of verifyDeal (missing credentials, a rejected
    request, an undecodable response) shows as a verification with score
    zero in the state after handleVerifyDeal. *)
Theorem X19_failed_verification_shows_score_zero
        (env : Env) (deal : value) (st : App.AppState) (w : World) (f : Failure) :
  happens env deal w f ->
  exists v,
    App.verificationData (fst (App.handleVerifyDeal env deal st w)) = Some v
    /\ field v (lit "score") = Some zero.
Proof.
  intros Hf. unfold App.handleVerifyDeal.
  destruct (App.apiKeyMissing st); [eexists; split; reflexivity|].
  destruct f as [|e|response]; cbn [happens] in Hf.
  - unfold verifyDeal, tryCatch, bind.
    rewrite (initializeAi_absent env w Hf). cbv beta iota.
    change (message (Error API_KEY_MISSING)) with API_KEY_MISSING.
    rewrite str_eqb_refl. eexists; split; reflexivity.
  - destruct Hf as (Hav & prompt & Hp & Hr & Hm).
    destruct (verifyDeal_rejected env deal w prompt e Hav Hp Hr) as (w' & E & _).
    rewrite E, Hm. eexists; split; reflexivity.
  - destruct Hf as (Hav & prompt & Hp & Hr & Ht).
    destruct (verifyDeal_answered env deal w prompt response Hav Hp Hr) as (w' & E & _).
    rewrite E. cbv zeta. rewrite Ht. eexists; split; reflexivity.
Qed.

Lemma X19_witness :
  exists v,
    App.verificationData
      (fst (App.handleVerifyDeal (rejectingEnv (lit "503")) sampleDeal blankApp
              emptyWorld))
    = Some v
    /\ field v (lit "score") = Some zero.
Proof.
  apply (X19_failed_verification_shows_score_zero (rejectingEnv (lit "503"))
           sampleDeal blankApp emptyWorld (OracleFailure (Error (lit "503")))).
  split; [reflexivity|]. eexists. split; [reflexivity|]. split; reflexivity.
Defined.

(** ** The placeholder deals *)

Lemma mockDeals_each (env : Env) (count : nat) :
  forall (i : nat) (w : World) (ds : list value) (w' : World),
    App.mockDeals env count i w = (ds, w') ->
    randomDraws w' = (randomDraws w + 2 * count)%nat
    /\ sent w' = sent w /\ clockReads w' = clockReads w /\ ai w' = ai w
    /\ forall a d, nth_error ds a = Some d ->
                   field d (lit "id") = Some (JString (lit "mock-" ++ ofNat (i + a))).
Proof.
  induction count as [|count IH]; intros i w ds w' H.
  - cbn [App.mockDeals] in H. injection H as <- <-.
    repeat split; try reflexivity; [lia|]. intros [|a] d Ha; discriminate.
  - cbn [App.mockDeals] in H.
    destruct (App.mockDeal env i w) as [d0 w1] eqn:E0.
    destruct (App.mockDeals env count (S i) w1) as [ds1 w2] eqn:E1.
    injection H as <- <-.
    destruct (IH _ _ _ _ E1) as (Hr & Hs & Hc & Ha & Hid).
    unfold App.mockDeal in E0. injection E0 as <- <-.
    cbn [randomDraws sent clockReads ai] in *.
    repeat split; try assumption; [lia|].
    intros [|a] d Hd; cbn [nth_error] in Hd.
    + injection Hd as <-. rewrite Nat.add_0_r. reflexivity.
    + rewrite (Hid a d Hd). do 3 f_equal. f_equal. lia.
Qed.

(** X20. With no credential, fetchDeals sends nothing, draws two random
    numbers per placeholder deal, and gives the placeholder at position
    a the id mock-a: the ids of the placeholders are pairwise distinct. *)
Theorem X20_placeholder_ids_are_distinct
        (env : Env) (prefs : UserPreferences) (g : bool)
        (st : App.AppState) (w : World) :
  credentialAvailable env w = false ->
  let after := App.fetchDeals env prefs g st w in
  sent (snd after) = sent w
  /\ randomDraws (snd after) = (randomDraws w + 2 * INITIAL_DEALS_COUNT)%nat
  /\ forall a b d d',
       nth_error (App.deals (fst after)) a = Some d ->
       nth_error (App.deals (fst after)) b = Some d' ->
       field d (lit "id") = Some (JString (lit "mock-" ++ ofNat a))
       /\ (field d (lit "id") = field d' (lit "id") -> a = b).
Proof.
  intros Hav. cbv zeta. unfold App.fetchDeals.
  rewrite (generateDeals_absent env prefs g w Hav).
  change (message (Error API_KEY_MISSING)) with API_KEY_MISSING.
  rewrite str_eqb_refl.
  destruct (App.mockDeals env INITIAL_DEALS_COUNT 0 w) as [ds w2] eqn:E.
  destruct (mockDeals_each env _ _ _ _ _ E) as (Hr & Hs & _ & _ & Hid).
  cbn [fst snd App.deals]. split; [exact Hs|]. split; [exact Hr|].
  intros a b d d' Ha Hb. rewrite (Hid a d Ha), (Hid b d' Hb). cbn [plus].
  split; [reflexivity|]. intros H. injection H as H.
  now apply ofNat_inj.
Qed.

Lemma X20_witness :
  let after := App.fetchDeals noKeyEnv noPreferences false blankApp emptyWorld in
  sent (snd after) = sent emptyWorld
  /\ randomDraws (snd after) = (randomDraws emptyWorld + 2 * INITIAL_DEALS_COUNT)%nat
  /\ forall a b d d',
       nth_error (App.deals (fst after)) a = Some d ->
       nth_error (App.deals (fst after)) b = Some d' ->
       field d (lit "id") = Some (JString (lit "mock-" ++ ofNat a))
       /\ (field d (lit "id") = field d' (lit "id") -> a = b).
Proof.
  apply (X20_placeholder_ids_are_distinct noKeyEnv noPreferences false blankApp
           emptyWorld).
  reflexivity.
Defined.

Import Chat Filters ChatSamples.
Local Close Scope N_scope.

(** ** The chat *)

Lemma startChat_with_key (env : Env) (s : Service) :
  keyMissing env = false ->
  exists w1,
    startChat env s
    = (Return tt,
       {| world := w1;
          chatInstance :=
            Some {| chatModel := GEMINI_MODEL_TEXT;
                    systemInstruction := SYSTEM_INSTRUCTION |};
          chatSent := chatSent s |})
    /\ ai w1 <> None /\ sent w1 = sent (world s).
Proof.
  intros Hk. unfold startChat. rewrite Hk.
  assert (Hav : credentialAvailable env (world s) = true).
  { unfold credentialAvailable, keyMissing in *.
    destruct (ai (world s)); [reflexivity|].
    destruct (VITE_GEMINI_API_KEY env) as [key|]; [|discriminate].
    now apply Bool.negb_false_iff. }
  unfold initializeAi. unfold credentialAvailable, keyMissing in *.
  destruct (ai (world s)) as [c|] eqn:Ha.
  - exists (world s). split; [reflexivity|]. split; [congruence|reflexivity].
  - destruct (VITE_GEMINI_API_KEY env) as [key|]; [|discriminate].
    rewrite Hav. eexists. split; [reflexivity|]. split; [discriminate|reflexivity].
Qed.

Lemma sendThrough_result (cenv : ChatEnv) (chat : ChatSession) (message : str)
      (s : Service) :
  let r := sendThrough cenv chat message s in
  (fst r = Return CHAT_ERROR
   \/ exists response,
        remoteSendMessage cenv (length (chatSent s)) chat message = inr response
        /\ fst r = Return (responseText response))
  /\ world (snd r) = world s /\ chatInstance (snd r) = chatInstance s
  /\ chatSent (snd r) = chatSent s ++ [(chat, message)].
Proof.
  cbv zeta. unfold sendThrough.
  destruct (remoteSendMessage cenv (length (chatSent s)) chat message)
    as [e|response]; cbn [fst snd world chatInstance chatSent].
  - repeat split; auto.
  - repeat split; auto. right. now exists response.
Qed.

(** X21. With no key in the environment and no chat yet,
    sendMessageToChat answers with the not-available text and leaves the
    state of the service as it was: nothing is sent. *)
Theorem X21_chat_without_key_sends_nothing
        (env : Env) (cenv : ChatEnv) (message : str) (s : Service) :
  keyMissing env = true -> chatInstance s = None ->
  sendMessageToChat env cenv message s = (Return CHAT_NOT_AVAILABLE, s).
Proof.
  intros Hk Hc. unfold sendMessageToChat, startChat. now rewrite Hc, Hk, Hc.
Qed.

Lemma X21_witness :
  sendMessageToChat noKeyEnv silentChat (lit "hello") freshService
  = (Return CHAT_NOT_AVAILABLE, freshService).
Proof.
  apply (X21_chat_without_key_sends_nothing noKeyEnv silentChat (lit "hello")
           freshService); reflexivity.
Defined.


(** X23. With a key in the environment the first message creates the
    client and the chat, with the configured model and system
    instruction; the next message reuses both, whatever the environment
    says then. *)
Theorem X23_chat_is_created_once
        (env env2 : Env) (cenv : ChatEnv) (message message2 : str) (s : Service) :
  keyMissing env = false -> chatInstance s = None ->
  let s1 := snd (sendMessageToChat env cenv message s) in
  let s2 := snd (sendMessageToChat env2 cenv message2 s1) in
  chatInstance s1
  = Some {| chatModel := GEMINI_MODEL_TEXT; systemInstruction := SYSTEM_INSTRUCTION |}
  /\ ai (world s1) <> None
  /\ chatInstance s2 = chatInstance s1
  /\ world s2 = world s1.
Proof.
  intros Hk Hc. cbv zeta.
  assert (H1 : chatInstance (snd (sendMessageToChat env cenv message s))
               = Some {| chatModel := GEMINI_MODEL_TEXT;
                         systemInstruction := SYSTEM_INSTRUCTION |}
               /\ ai (world (snd (sendMessageToChat env cenv message s))) <> None).
  { unfold sendMessageToChat. rewrite Hc.
    destruct (startChat_with_key env s Hk) as (w1 & -> & Ha & _).
    cbn [chatInstance].
    match goal with
    | |- context [sendThrough cenv ?c message ?s1] =>
        destruct (sendThrough_result cenv c message s1) as (_ & Hw & Hi & _)
    end.
    rewrite Hw, Hi. now split. }
  destruct H1 as (Hi1 & Ha1). split; [exact Hi1|]. split; [exact Ha1|].
  set (s1 := snd (sendMessageToChat env cenv message s)) in *.
  unfold sendMessageToChat. rewrite Hi1.
  match goal with
  | |- context [sendThrough cenv ?c message2 s1] =>
      destruct (sendThrough_result cenv c message2 s1) as (_ & Hw & Hi & _)
  end.
  rewrite Hw, Hi. now split.
Qed.

Lemma X23_witness :
  let s1 := snd (sendMessageToChat (answeringEnv []) silentChat (lit "hi") freshService) in
  let s2 := snd (sendMessageToChat noKeyEnv silentChat (lit "again") s1) in
  chatInstance s1
  = Some {| chatModel := GEMINI_MODEL_TEXT; systemInstruction := SYSTEM_INSTRUCTION |}
  /\ ai (world s1) <> None
  /\ chatInstance s2 = chatInstance s1
  /\ world s2 = world s1.
Proof.
  apply (X23_chat_is_created_once (answeringEnv []) noKeyEnv silentChat
           (lit "hi") (lit "again") freshService); reflexivity.
Defined.

(** ** The category filter *)

Lemma includes_In (l : list str) (c : str) : includes l c = true <-> In c l.
Proof.
  unfold includes. rewrite existsb_exists. split.
  - intros (x & Hx & E). apply str_eqb_eq in E. now subst.
  - intros H. exists c. split; [exact H|apply str_eqb_refl].
Qed.

Lemma toggle_In (c : str) (l : list str) (x : str) :
  In x (handleCategoryToggle c l)
  <-> (if includes l c then In x l /\ x <> c else In x l \/ x = c).
Proof.
  unfold handleCategoryToggle. destruct (includes l c).
  - rewrite filter_In. split; intros (H1 & H2); split; auto.
    + intros ->. now rewrite str_eqb_refl in H2.
    + apply Bool.negb_true_iff. now apply str_eqb_neq.
  - rewrite in_app_iff. cbn [In]. intuition.
Qed.

(** X24. Toggling a category flips its membership in the selection and
    leaves every other category as it was; toggling twice gives back the
    same members. *)
Theorem X24_toggle_flips_one_category (c : str) (l : list str) :
  (In c (handleCategoryToggle c l) <-> ~ In c l)
  /\ (forall x, x <> c -> (In x (handleCategoryToggle c l) <-> In x l))
  /\ (forall x, In x (handleCategoryToggle c (handleCategoryToggle c l)) <-> In x l).
Proof.
  assert (Hflip : forall l0, In c (handleCategoryToggle c l0) <-> ~ In c l0).
  { intros l0. rewrite toggle_In. destruct (includes l0 c) eqn:E.
    - apply includes_In in E. intuition.
    - assert (~ In c l0) by (rewrite <- includes_In; congruence). intuition. }
  assert (Hother : forall l0 x, x <> c ->
                     (In x (handleCategoryToggle c l0) <-> In x l0)).
  { intros l0 x Hx. rewrite toggle_In. destruct (includes l0 c); intuition. }
  split; [apply Hflip|]. split; [apply Hother|].
  intros x. destruct (list_eq_dec N.eq_dec x c) as [->|Hx].
  - rewrite Hflip, Hflip. destruct (in_dec (list_eq_dec N.eq_dec) c l); tauto.
  - now rewrite !Hother.
Qed.

(** X25. A selection free of duplicates stays free of duplicates under a
    toggle. *)
Theorem X25_toggle_keeps_the_selection_free_of_duplicates (c : str) (l : list str) :
  NoDup l -> NoDup (handleCategoryToggle c l).
Proof.
  intros H. unfold handleCategoryToggle. destruct (includes l c) eqn:E.
  - now apply NoDup_filter.
  - apply NoDup_app; [exact H|repeat constructor; intros []|].
    intros x Hx [<-|[]]. apply includes_In in Hx. congruence.
Qed.

Lemma X25_witness :
  NoDup (handleCategoryToggle (lit "Books") [lit "Travel"; lit "Books"]).
Proof.
  apply (X25_toggle_keeps_the_selection_free_of_duplicates (lit "Books")
           [lit "Travel"; lit "Books"]).
  constructor; [cbn; intros [H|[]]; discriminate|].
  constructor; [intros []|constructor].
Defined.

Import Numbers PriceHistory Display Prices.

(** ** The mock price history *)

Lemma drawn_zero (w : World) : drawn w 0 = w.
Proof. unfold drawn. rewrite Nat.add_0_r. now destruct w. Qed.

Lemma drawn_succ (w : World) (n : nat) :
  drawn {| ai := ai w; sent := sent w; clockReads := clockReads w;
           randomDraws := S (randomDraws w) |} n
  = drawn w (S n).
Proof. unfold drawn. cbn [ai sent clockReads randomDraws]. f_equal. lia. Qed.

Lemma historyLoop_runs (env : Env) (cal : Calendar) (basePrice : number) (today : N)
      (count : nat) :
  forall (history : list PriceDataPoint) (w : World),
    (forall i, (i < count)%nat -> exists day, weeksBefore cal today i = inr day) ->
    exists points,
      historyLoop env cal basePrice today count history w
      = (Return (history ++ points), drawn w count)
      /\ length points = count
      /\ forall k, (k < count)%nat ->
           exists p,
             nth_error points k = Some p
             /\ weeksBefore cal today (count - 1 - k) = inr (date p)
             /\ price p
                = pointPrice basePrice (Math_random env (randomDraws w + k))
                    (count - 1 - k).
Proof.
  induction count as [|i IH]; intros history w Hcal.
  - exists []. cbn [historyLoop ret]. rewrite app_nil_r, drawn_zero.
    repeat split. intros k Hk. lia.
  - destruct (Hcal i ltac:(lia)) as (day & Hday).
    cbn [historyLoop]. unfold bind, mathRandom. rewrite Hday.
    match goal with
    | |- context [historyLoop env cal basePrice today i ?h ?w1] =>
        destruct (IH h w1) as (points & E & Hl & Hk)
    end.
    { intros j Hj. apply Hcal. lia. }
    rewrite E. rewrite drawn_succ.
    eexists (_ :: points). split; [now rewrite <- app_assoc|].
    split; [cbn [length]; now rewrite Hl|].
    intros [|k] Hlt.
    + eexists. split; [reflexivity|]. cbn [date price].
      replace (S i - 1 - 0)%nat with i by lia. rewrite Nat.add_0_r.
      split; [exact Hday|reflexivity].
    + destruct (Hk k ltac:(lia)) as (p & Hp & Hd & Hpr).
      exists p. cbn [nth_error]. split; [exact Hp|].
      replace (S i - 1 - S k)%nat with (i - 1 - k)%nat by lia.
      split; [exact Hd|]. rewrite Hpr. cbn [randomDraws]. f_equal. f_equal. lia.
Qed.

Lemma generateMockPriceHistory_numeric (env : Env) (cal : Calendar) (s : str)
      (base : double) (w : World) :
  parseFloat (removeFirst 36%N s) = Num base ->
  (forall i, (i < 7)%nat ->
     exists day, weeksBefore cal (Date_now env (clockReads w)) i = inr day) ->
  exists history,
    generateMockPriceHistory env cal (Some (JString s)) w
    = (Return history,
       {| ai := ai w; sent := sent w; clockReads := S (clockReads w);
          randomDraws := (randomDraws w + 7)%nat |})
    /\ length history = 7%nat
    /\ (forall k, (k < 7)%nat ->
          exists p,
            nth_error history k = Some p
            /\ weeksBefore cal (Date_now env (clockReads w)) (6 - k) = inr (date p)
            /\ price p
               = pointPrice (Num base) (Math_random env (randomDraws w + k)) (6 - k)).
Proof.
  intros Hb Hcal.
  unfold generateMockPriceHistory, bind, lift, withoutDollar, parseFloatOpt.
  rewrite Hb. cbn [isNaN]. unfold dateNow.
  match goal with
  | |- context [historyLoop env cal ?b ?t 7 [] ?w1] =>
      destruct (historyLoop_runs env cal b t 7 [] w1 Hcal) as (points & E & Hl & Hk)
  end.
  exists points. rewrite E. cbn [app]. split; [reflexivity|]. split; [exact Hl|].
  intros k Hlt. destruct (Hk k Hlt) as (p & Hp & Hd & Hpr).
  exists p. repeat split; assumption.
Qed.

(** X26. For a price text that parseFloat reads as a number once the
    first dollar sign is removed, and a calendar that answers,
    generateMockPriceHistory returns seven points, reads the clock once,
    draws seven random numbers and sends nothing; the point at position
    k carries the date 6 - k weeks back, and the last point carries the
    base price rounded to two decimals. *)
Theorem X26_price_history_has_seven_points
        (env : Env) (cal : Calendar) (s : str) (base : double) (w : World) :
  parseFloat (removeFirst 36%N s) = Num base ->
  (forall i, (i < 7)%nat ->
     exists day, weeksBefore cal (Date_now env (clockReads w)) i = inr day) ->
  exists history w',
    generateMockPriceHistory env cal (Some (JString s)) w = (Return history, w')
    /\ length history = 7%nat
    /\ randomDraws w' = (randomDraws w + 7)%nat
    /\ clockReads w' = S (clockReads w)
    /\ sent w' = sent w
    /\ (forall k, (k < 7)%nat ->
          exists p,
            nth_error history k = Some p
            /\ weeksBefore cal (Date_now env (clockReads w)) (6 - k) = inr (date p))
    /\ exists last,
         nth_error history 6 = Some last
         /\ price last = parseFloat (toFixed (Num base) 2).
Proof.
  intros Hb Hcal.
  destruct (generateMockPriceHistory_numeric env cal s base w Hb Hcal)
    as (history & E & Hl & Hk).
  eexists history, _. split; [exact E|]. split; [exact Hl|].
  cbn [randomDraws clockReads sent]. repeat (split; [reflexivity|]).
  split.
  - intros k Hlt. destruct (Hk k Hlt) as (p & Hp & Hd & _). now exists p.
  - destruct (Hk 6%nat ltac:(lia)) as (p & Hp & _ & Hpr). exists p.
    split; [exact Hp|]. rewrite Hpr. reflexivity.
Qed.

Lemma X26_witness :
  exists history w',
    generateMockPriceHistory (answeringEnv []) weekNumbers
      (Some (JString (lit "$19.99"))) emptyWorld
    = (Return history, w')
    /\ length history = 7%nat
    /\ randomDraws w' = (randomDraws emptyWorld + 7)%nat
    /\ clockReads w' = S (clockReads emptyWorld)
    /\ sent w' = sent emptyWorld
    /\ (forall k, (k < 7)%nat ->
          exists p,
            nth_error history k = Some p
            /\ weeksBefore weekNumbers
                 (Date_now (answeringEnv []) (clockReads emptyWorld)) (6 - k)
               = inr (date p))
    /\ exists last,
         nth_error history 6 = Some last
         /\ price last = parseFloat (toFixed (Num (of_decimal false 1999 (-2))) 2).
Proof.
  apply (X26_price_history_has_seven_points (answeringEnv []) weekNumbers
           (lit "$19.99") (of_decimal false 1999 (-2)) emptyWorld).
  - vm_compute. reflexivity.
  - intros i _. eexists. reflexivity.
Defined.

Local Open Scope Z_scope.

(** ** Signs of doubles *)

Lemma sign_of_ratio (neg : bool) (p q : Z) : Double.sign (of_ratio neg p q) = neg.
Proof.
  unfold of_ratio. destruct (p <=? 0); [reflexivity|]. cbv zeta.
  repeat match goal with
         | |- context [let '(_, _) := ?x in _] => destruct x
         end.
  repeat match goal with
         | |- context [if ?b then _ else _] => destruct b
         end; reflexivity.
Qed.

Lemma wf_tail (neg : bool) (m e : Z) :
  0 <= m ->
  positiveSignificand (let '(m', e') := if m =? 2 ^ 53 then (2 ^ 52, e + 1) else (m, e) in
      if m' =? 0 then DZero neg
      else if 971 <? e' then DInf neg
      else DNum neg m' e').
Proof.
  intros Hm. destruct (m =? 2 ^ 53).
  - cbn [positiveSignificand]. destruct (2 ^ 52 =? 0) eqn:E; [exact I|].
    destruct (971 <? e + 1); [exact I|]. cbn [positiveSignificand]. reflexivity.
  - destruct (m =? 0) eqn:E; [exact I|]. destruct (971 <? e); [exact I|].
    cbn [positiveSignificand]. apply Z.eqb_neq in E. lia.
Qed.

Lemma wf_of_ratio (neg : bool) (p q : Z) : 0 < q -> positiveSignificand (of_ratio neg p q).
Proof.
  intros Hq. unfold of_ratio. destruct (p <=? 0) eqn:Hp; [exact I|].
  apply Z.leb_gt in Hp. cbv zeta.
  match goal with |- context [Z.max ?a (-1074)] => generalize (Z.max a (-1074)) end.
  intros e.
  assert (Hnd : forall n d, (if 0 <=? e then (p, q * 2 ^ e) else (p * 2 ^ (- e), q)) = (n, d)
                            -> 0 <= n /\ 0 < d).
  { intros n d. destruct (0 <=? e) eqn:He; intros [= <- <-].
    - apply Z.leb_le in He. split; [lia|].
      apply Z.mul_pos_pos; [lia|]. now apply Z.pow_pos_nonneg.
    - apply Z.leb_gt in He. split; [|lia].
      apply Z.mul_nonneg_nonneg; [lia|]. apply Z.pow_nonneg. lia. }
  destruct (if 0 <=? e then (p, q * 2 ^ e) else (p * 2 ^ (- e), q)) as [n d].
  destruct (Hnd n d eq_refl) as [Hn Hd].
  apply wf_tail.
  assert (0 <= n / d) by (apply Z.div_pos; lia).
  destruct ((d <? 2 * (n mod d)) || ((d =? 2 * (n mod d)) && Z.odd (n / d))); lia.
Qed.

Lemma wf_of_decimal (neg : bool) (m e10 : Z) : positiveSignificand (of_decimal neg m e10).
Proof.
  unfold of_decimal. destruct (0 <=? e10) eqn:E.
  - apply wf_of_ratio. lia.
  - apply wf_of_ratio. apply Z.leb_gt in E. apply Z.pow_pos_nonneg; lia.
Qed.

Lemma parseFloat_wf (s : str) (d : double) : parseFloat s = Num d -> positiveSignificand d.
Proof.
  unfold parseFloat.
  repeat match goal with
         | |- context [let '(_, _) := ?x in _] => destruct x
         end.
  destruct (startsWith _ _).
  - intros [= <-]. exact I.
  - repeat match goal with
           | |- context [let '(_, _) := ?x in _] => destruct x
           end.
    destruct (_ ++ _); [discriminate|]. intros [= <-]. apply wf_of_decimal.
Qed.

Lemma priceOf_wf (deal : value) (name : str) (d : double) :
  priceOf deal name = Return (Num d) -> positiveSignificand d.
Proof.
  unfold priceOf. destruct (getField deal name) as [field|]; [|discriminate].
  cbn [orTypeError obind]. destruct (withoutDollar field) as [text|]; [|discriminate].
  cbn [obind]. intros [= H]. destruct text as [t|]; [|discriminate].
  exact (parseFloat_wf _ _ H).
Qed.

Lemma pow2_pos (k : Z) : 0 <= k -> 0 < 2 ^ k.
Proof. intros. now apply Z.pow_pos_nonneg. Qed.

(** A number above zero is positive infinity or a positive finite
    double. *)
Lemma above_zero (o : double) :
  positiveSignificand o -> le (Num o) (Num zero) = false ->
  Double.sign o = false /\ (forall s, o <> DZero s).
Proof.
  intros Hwf. unfold le, zero, compare.
  destruct o as [s|s|s m e]; cbn [expo scaled Double.sign].
  - rewrite Z.compare_refl. discriminate.
  - destruct s; [discriminate|]. intros _. split; [reflexivity|discriminate].
  - cbn [positiveSignificand] in Hwf. intros H. split; [|discriminate].
    destruct s; [|reflexivity]. exfalso.
    assert (Hp : 0 < 2 ^ (e - Z.min e 0)) by (apply pow2_pos; lia).
    destruct (Z.compare_spec (- m * 2 ^ (e - Z.min e 0)) 0); try discriminate. nia.
Qed.

(** [o - d] for [d] below a positive [o]. *)
Lemma sub_below (o d : double) :
  Double.sign o = false -> (forall s, o <> DZero s) ->
  ge (Num d) (Num o) = false ->
  exists t, sub (Num o) (Num d) = Num t /\ Double.sign t = false
            /\ (forall s, o = DInf s -> exists s', t = DInf s').
Proof.
  intros Hs Hnz. unfold ge, compare, sub, add.
  destruct o as [s|s|s m e]; cbn [Double.sign] in Hs; subst s.
  - now destruct (Hnz false).
  - destruct d as [a|a|a m2 e2]; cbn [neg].
    + intros _. eexists. cbn [Double.add]. split; [reflexivity|].
      split; [reflexivity|]. intros; eauto.
    + destruct a; cbn [Bool.eqb]; [|discriminate]. intros _. cbn [negb eqb].
      eexists. split; [reflexivity|]. split; [reflexivity|]. intros; eauto.
    + intros _. eexists. cbn [Double.add]. split; [reflexivity|].
      split; [reflexivity|]. intros; eauto.
  - destruct d as [a|a|a m2 e2]; cbn [neg expo scaled].
    + intros _. eexists. cbn [Double.add]. split; [reflexivity|].
      split; [reflexivity|]. intros; discriminate.
    + destruct a; [|discriminate]. intros _. eexists. cbn [Double.add negb].
      split; [reflexivity|]. split; [reflexivity|]. intros; discriminate.
    + intros H. eexists. split; [reflexivity|]. split; [|intros; discriminate].
      cbn [Double.add]. cbv zeta.
      rewrite (Z.min_comm e e2).
      set (x := m * 2 ^ (e - Z.min e2 e)) in *.
      set (y := (if a then - m2 else m2) * 2 ^ (e2 - Z.min e2 e)) in *.
      assert (E : (if negb a then - m2 else m2) * 2 ^ (e2 - Z.min e2 e) = - y).
      { subst y. destruct a; cbn [negb]; lia. }
      rewrite E.
      assert (Hlt : y < x).
      { destruct (Z.compare_spec y x); try discriminate. assumption. }
      assert (Hn : (x + - y <? 0) = false) by (apply Z.ltb_ge; lia).
      rewrite Hn. destruct (x + - y =? 0); [reflexivity|].
      destruct (0 <=? Z.min e2 e); apply sign_of_ratio.
Qed.

Lemma div_positive (t o : double) :
  positiveSignificand o -> Double.sign t = false -> Double.sign o = false -> (forall s, o <> DZero s) ->
  (div (Num t) (Num o) = NaN /\ exists s, o = DInf s)
  \/ exists u, div (Num t) (Num o) = Num u /\ Double.sign u = false /\ positiveSignificand u.
Proof.
  intros Hwf Ht Ho Hnz. unfold div. rewrite Ht, Ho. cbn [xorb].
  destruct t as [a|a|a m1 e1], o as [b|b|b m2 e2];
    try (now destruct (Hnz b));
    try (left; split; [reflexivity|eauto]; fail);
    try (right; eexists; split; [reflexivity|]; split; [reflexivity|exact I]; fail).
  right. eexists. split; [reflexivity|]. split; [apply sign_of_ratio|].
  apply wf_of_ratio. cbn [positiveSignificand] in Hwf.
  apply Z.mul_pos_pos; [lia|]. apply pow2_pos. lia.
Qed.

Lemma hundred_eq : exists m e, hundred = DNum false m e.
Proof. eexists _, _. vm_compute. reflexivity. Qed.

Lemma mul_hundred (u : double) :
  Double.sign u = false ->
  exists v, mul (Num u) (Num hundred) = Num v /\ Double.sign v = false /\ positiveSignificand v.
Proof.
  intros Hu. destruct hundred_eq as (m & e & ->). unfold mul.
  destruct u as [a|a|a m1 e1]; cbn [Double.sign] in Hu; subst a.
  - eexists. split; [reflexivity|]. split; [reflexivity|exact I].
  - eexists. split; [reflexivity|]. split; [reflexivity|exact I].
  - eexists. split; [reflexivity|]. cbn [Double.mul Double.sign xorb]. cbv zeta.
    destruct (0 <=? e1 + e) eqn:E.
    + split; [apply sign_of_ratio|apply wf_of_ratio; lia].
    + split; [apply sign_of_ratio|]. apply wf_of_ratio. apply pow2_pos.
      apply Z.leb_gt in E. lia.
Qed.

Lemma round_positive (v : double) :
  Double.sign v = false -> positiveSignificand v ->
  exists x, round (Num v) = Num x /\ Double.sign x = false.
Proof.
  intros Hs Hwf. unfold round.
  destruct v as [a|a|a m e]; cbn [Double.sign] in Hs; subst a; eauto.
  destruct (0 <=? e) eqn:E; [eauto|]. cbv zeta.
  apply Z.leb_gt in E. cbn [positiveSignificand] in Hwf.
  assert (Hq : 0 < 2 ^ (- e)) by (apply pow2_pos; lia).
  assert (Hn : 0 <= (2 * m + 2 ^ (- e)) / (2 * 2 ^ (- e))) by (apply Z.div_pos; lia).
  destruct (_ =? 0) eqn:En; [eauto|].
  eexists. split; [reflexivity|]. unfold of_Z. rewrite sign_of_ratio.
  apply Z.ltb_ge. exact Hn.
Qed.

Lemma discountPercentage_inv (deal : value) (r : number) :
  discountPercentage deal = Return (Some r) ->
  exists o d,
    priceOf deal (lit "originalPrice") = Return (Num o)
    /\ priceOf deal (lit "discountedPrice") = Return (Num d)
    /\ le (Num o) (Num zero) = false
    /\ ge (Num d) (Num o) = false
    /\ r = round (mul (div (sub (Num o) (Num d)) (Num o)) (Num hundred)).
Proof.
  unfold discountPercentage.
  destruct (priceOf deal (lit "originalPrice")) as [original|]; [|discriminate].
  destruct (priceOf deal (lit "discountedPrice")) as [discounted|]; [|discriminate].
  cbn [obind].
  destruct original as [|o]; [discriminate|].
  destruct discounted as [|d]; [discriminate|]. cbn [isNaN orb].
  destruct (le (Num o) (Num zero)) eqn:E1; [discriminate|].
  destruct (ge (Num d) (Num o)) eqn:E2; [discriminate|]. cbn [orb].
  intros [= <-]. exists o, d. repeat split; assumption.
Qed.

(** X28. When discountPercentage returns a number, both prices were read
    as numbers, the original one is above zero and the discounted one is
    below the original, and the result is not negative; it is NaN only
    when the original price is Infinity. *)
Theorem X28_discount_is_never_negative (deal : value) (r : number) :
  discountPercentage deal = Return (Some r) ->
  exists o d,
    priceOf deal (lit "originalPrice") = Return (Num o)
    /\ priceOf deal (lit "discountedPrice") = Return (Num d)
    /\ compare o zero = Gt
    /\ compare d o = Lt
    /\ ((r = NaN /\ o = DInf false)
        \/ exists x, r = Num x /\ Double.sign x = false).
Proof.
  intros H. destruct (discountPercentage_inv deal r H) as (o & d & Ho & Hd & Hz & Hlt & ->).
  exists o, d. split; [exact Ho|]. split; [exact Hd|].
  split. { unfold le in Hz. destruct (compare o zero); try discriminate. reflexivity. }
  split. { unfold ge in Hlt. destruct (compare d o); try discriminate. reflexivity. }
  pose proof (priceOf_wf _ _ _ Ho) as Hwf.
  destruct (above_zero o Hwf Hz) as [Hs Hnz].
  destruct (sub_below o d Hs Hnz Hlt) as (t & -> & Ht & Hinf).
  destruct (div_positive t o Hwf Ht Hs Hnz) as [[-> [s E]]|(u & -> & Hu & _)].
  - left. split; [reflexivity|]. subst o. cbn [Double.sign] in Hs. now subst s.
  - right. destruct (mul_hundred u Hu) as (v & -> & Hv & Hwv).
    exact (round_positive v Hv Hwv).
Qed.

Lemma X28_witness :
  discountPercentage (pricedDeal "$100" "$75") = Return (Some (Num (of_Z 25)))
  /\ exists o d,
    priceOf (pricedDeal "$100" "$75") (lit "originalPrice") = Return (Num o)
    /\ priceOf (pricedDeal "$100" "$75") (lit "discountedPrice") = Return (Num d)
    /\ compare o zero = Gt
    /\ compare d o = Lt
    /\ ((Num (of_Z 25) = NaN /\ o = DInf false)
        \/ exists x, Num (of_Z 25) = Num x /\ Double.sign x = false).
Proof.
  split; [vm_compute; reflexivity|].
  apply (X28_discount_is_never_negative (pricedDeal "$100" "$75")).
  vm_compute. reflexivity.
Defined.

(** ** The score display *)

Lemma small_ints :
  four = DNum false (2 ^ 52) (-50)
  /\ three = DNum false (3 * 2 ^ 51) (-51)
  /\ two = DNum false (2 ^ 52) (-51).
Proof. repeat split; vm_compute; reflexivity. Qed.

(** A score of at least 3 is at least 2, and one of at least 4 is at
    least 3. *)
Lemma ge_three_two (score : number) :
  ge score (Num three) = true -> ge score (Num two) = true.
Proof.
  destruct small_ints as (_ & -> & ->).
  destruct score as [|d]; [discriminate|]. unfold ge, compare.
  destruct d as [s|s|s m e]; cbn [expo scaled]; try (destruct s; discriminate || reflexivity).
  - set (k := e - Z.min e (-51)).
    assert (Hp : 0 < 2 ^ (-51 - Z.min e (-51))) by (apply pow2_pos; lia).
    set (p := 2 ^ (-51 - Z.min e (-51))) in *.
    set (x := (if s then - m else m) * 2 ^ k).
    destruct (Z.compare_spec x (3 * 2 ^ 51 * p)); try discriminate; intros _;
      destruct (Z.compare_spec x (2 ^ 52 * p)); try reflexivity; exfalso;
      change (2 ^ 52) with 4503599627370496 in *;
      change (2 ^ 51) with 2251799813685248 in *; nia.
Qed.

Lemma ge_four_two (score : number) :
  ge score (Num four) = true -> ge score (Num two) = true.
Proof.
  destruct small_ints as (-> & _ & ->).
  destruct score as [|d]; [discriminate|]. unfold ge, compare.
  destruct d as [s|s|s m e]; cbn [expo scaled]; try (destruct s; discriminate || reflexivity).
  - assert (Hp : 0 < 2 ^ (-51 - Z.min e (-51))) by (apply pow2_pos; lia).
    assert (Hq : 0 < 2 ^ (-50 - Z.min e (-50))) by (apply pow2_pos; lia).
    assert (Hk : 0 < 2 ^ (e - Z.min e (-50))) by (apply pow2_pos; lia).
    destruct (Z.le_gt_cases e (-51)) as [Hle|Hgt].
    + rewrite !Z.min_l in * by lia.
      replace (-50 - e) with (Z.succ (-51 - e)) by lia.
      rewrite Z.pow_succ_r by lia.
      set (p := 2 ^ (-51 - e)) in *. replace (e - e) with 0 by lia.
      set (x := (if s then - m else m) * 2 ^ 0).
      destruct (Z.compare_spec x (2 ^ 52 * (2 * p))); try discriminate; intros _;
        destruct (Z.compare_spec x (2 ^ 52 * p)); try reflexivity; exfalso;
        change (2 ^ 52) with 4503599627370496 in *; nia.
    + rewrite (Z.min_r e (-51)) by lia.
      assert (Hm : Z.min e (-50) = -50) by lia. rewrite Hm.
      replace (-51 - -51) with 0 by lia. replace (-50 - -50) with 0 by lia.
      replace (e - -51) with (Z.succ (e - -50)) by lia.
      rewrite Z.pow_succ_r by lia.
      assert (Hk' : 0 < 2 ^ (e - -50)) by (apply pow2_pos; lia).
      set (p := 2 ^ (e - -50)) in *.
      set (y := (if s then - m else m)).
      destruct (Z.compare_spec (y * p) (2 ^ 52 * 2 ^ 0)); try discriminate; intros _;
        destruct (Z.compare_spec (y * (2 * p)) (2 ^ 52 * 2 ^ 0)); try reflexivity; exfalso;
        change (2 ^ 52) with 4503599627370496 in *; change (2 ^ 0) with 1 in *; nia.
Qed.

(** X29. In the score display colour and label agree: green goes exactly
    with Excellent, red exactly with Poor/Risky, yellow exactly with
    Good or Fair; a score that is NaN reads Poor/Risky. *)
Theorem X29_score_colour_and_label_agree (score : number) :
  (scoreColor score = lit "text-green-500" <-> scoreText score = lit "Excellent")
  /\ (scoreColor score = lit "text-red-500" <-> scoreText score = lit "Poor/Risky")
  /\ (scoreColor score = lit "text-yellow-500"
      <-> scoreText score = lit "Good" \/ scoreText score = lit "Fair")
  /\ (isNaN score = true -> scoreText score = lit "Poor/Risky").
Proof.
  unfold scoreColor, scoreText.
  pose proof (ge_three_two score) as H32.
  pose proof (ge_four_two score) as H42.
  destruct (ge score (Num four)) eqn:E4.
  - repeat split; try discriminate; try reflexivity.
    + intros [H|H]; discriminate.
    + destruct score; discriminate.
  - destruct (ge score (Num three)) eqn:E3.
    + rewrite (H32 eq_refl). repeat split; try discriminate; try reflexivity.
      * now left.
      * destruct score; discriminate.
    + destruct (ge score (Num two)) eqn:E2.
      * repeat split; try discriminate; try reflexivity.
        -- now right.
        -- destruct score; discriminate.
      * repeat split; try discriminate; try reflexivity.
        intros [H|H]; discriminate.
Qed.

Local Close Scope Z_scope.
Local Open Scope N_scope.

(** ** Prices that are no numbers *)



Lemma withoutDollar_throws (v : option value) (e : JsError) :
  withoutDollar v = Throw e -> exists msg, e = TypeError msg.
Proof.
  destruct v as [[| | | s | |]|]; cbn [withoutDollar]; try discriminate;
    intros [= <-]; eauto.
Qed.

Lemma withoutDollar_noText (v : value) :
  noText v = true -> exists msg, withoutDollar (Some v) = Throw (TypeError msg).
Proof. destruct v; try discriminate; intros _; cbn [withoutDollar]; eauto. Qed.



(** X30. A price that is there but is neither null nor a string (a JSON
    number, say) makes generateMockPriceHistory raise a TypeError with
    the world untouched, and makes discountPercentage raise a TypeError
    for a deal whose original or discounted price is such a value. *)
Theorem X30_price_that_is_no_text_is_a_type_error
        (env : Env) (cal : Calendar) (v : value) (w : World) :
  noText v = true ->
  (exists msg,
     generateMockPriceHistory env cal (Some v) w = (Throw (TypeError msg), w))
  /\ forall props,
       obj_get (lit "originalPrice") props = Some v
       \/ obj_get (lit "discountedPrice") props = Some v ->
       exists msg, discountPercentage (JObject props) = Throw (TypeError msg).
Proof.
  intros Hv. destruct (withoutDollar_noText v Hv) as (msg & Ew). split.
  - exists msg. unfold generateMockPriceHistory, bind, lift. now rewrite Ew.
  - intros props Hf. unfold discountPercentage, priceOf.
    cbn [getField orTypeError obind].
    destruct Hf as [Hf|Hf]; rewrite Hf.
    + rewrite Ew. cbn [obind]. eauto.
    + destruct (withoutDollar (obj_get (lit "originalPrice") props)) as [t|e] eqn:Eo.
      * cbn [obind]. rewrite Ew. cbn [obind]. eauto.
      * cbn [obind]. destruct (withoutDollar_throws _ _ Eo) as (m & ->). eauto.
Qed.

Lemma X30_witness :
  (exists msg,
     generateMockPriceHistory noKeyEnv {| weeksBefore := fun _ _ => inr [] |}
       (Some (JNumber (of_Z 20))) emptyWorld
     = (Throw (TypeError msg), emptyWorld))
  /\ forall props,
       obj_get (lit "originalPrice") props = Some (JNumber (of_Z 20))
       \/ obj_get (lit "discountedPrice") props = Some (JNumber (of_Z 20)) ->
       exists msg, discountPercentage (JObject props) = Throw (TypeError msg).
Proof.
  apply (X30_price_that_is_no_text_is_a_type_error
           noKeyEnv {| weeksBefore := fun _ _ => inr [] |}
           (JNumber (of_Z 20)) emptyWorld).
  reflexivity.
Defined.
